(** * LM-Studio-Chatbot: the streaming chunker, the speech pipeline and the
      synthesis adapter

    A shallow embedding of [lmstudio_kokoro_speak_stream.py] and of the
    synthesis path of [server.py], with the properties the specification
    states about them.

    A Python [str] is a sequence of Unicode code points; it is modelled as a
    list of code points, so [str.strip] and the regular expression
    [SENT_END_RE] read the same characters as the interpreter does. *)

From Stdlib Require Import NArith List String Ascii Bool Lia.
From stdpp Require Import gmap list.

Set Warnings "-register-all".

Local Open Scope N_scope.
Local Open Scope list_scope.

(** ** Python strings *)

Module PyStr.

Definition char := N.
Definition str := list char.

(** [py "..."] is the [str] whose code points are the characters of the
    literal. *)
Definition py (s : string) : str := map N_of_ascii (list_ascii_of_string s).

(** [str.isspace] on one character: the code points Unicode classifies as
    white space, as CPython's [Py_UNICODE_ISSPACE] does. *)
Definition isspace (c : char) : bool :=
  ((9 <=? c) && (c <=? 13)) || ((28 <=? c) && (c <=? 32))
  || (c =? 133) || (c =? 160) || (c =? 5760)
  || ((8192 <=? c) && (c <=? 8202))
  || (c =? 8232) || (c =? 8233) || (c =? 8239) || (c =? 8287) || (c =? 12288).

Fixpoint lstrip (s : str) : str :=
  match s with
  | c :: s' => if isspace c then lstrip s' else s
  | [] => []
  end.

Definition rstrip (s : str) : str := rev (lstrip (rev s)).

(** [s.strip()] *)
Definition strip (s : str) : str := rstrip (lstrip s).

(** Truth value of a string in a condition: non-empty. *)
Definition truthy (s : str) : bool :=
  match s with [] => false | _ :: _ => true end.

Definition blank (s : str) : bool := forallb isspace s.

End PyStr.

Import PyStr.

(** ** The chunker of [lmstudio_kokoro_speak_stream.py] *)

Module Chunker.

(** The character class [[.!?]] and the newline of
    [SENT_END_RE = re.compile(r"([.!?]+|\n)")]. *)
Definition is_ender (c : char) : bool := (c =? 46) || (c =? 33) || (c =? 63).
Definition is_nl (c : char) : bool := c =? 10.
Definition is_delim (c : char) : bool := is_ender c || is_nl c.

(** [SENT_END_RE.split]: the pattern is scanned from left to right; matches
    do not overlap, the first alternative [[.!?]+] is greedy, and the only
    group is the whole match, so the result alternates the text between two
    matches with the matched delimiter and ends with the text after the last
    match.  The scanner keeps the parts already closed, the text since the
    last match and, while it is inside a match of [[.!?]+], that run.
    ([re_split_splits] and [splits_unique] below: the result is the one
    split that reading of the pattern allows.) *)
Record scanner := Scanner {
  parts_done : list str;
  cur_text : str;
  cur_run : option str
}.

(** The run in progress, if any, is a complete match once a character that
    is not in [[.!?]] follows it (or the input ends). *)
Definition close_run (st : scanner) : scanner :=
  match cur_run st with
  | Some d => Scanner (parts_done st ++ [cur_text st; d]) [] None
  | None => st
  end.

Definition scan_char (st : scanner) (c : char) : scanner :=
  if is_ender c then
    Scanner (parts_done st) (cur_text st) (Some (default [] (cur_run st) ++ [c]))
  else
    let st' := close_run st in
    if is_nl c then Scanner (parts_done st' ++ [cur_text st'; [c]]) [] None
    else Scanner (parts_done st') (cur_text st' ++ [c]) None.

Definition scan_end (st : scanner) : list str :=
  let st' := close_run st in parts_done st' ++ [cur_text st'].

Definition scan_init : scanner := Scanner [] [] None.

Definition scan (st : scanner) (s : str) : scanner := fold_left scan_char s st.

Definition re_split (s : str) : list str := scan_end (scan scan_init s).

(** One pass of the loop body: [cur += text_part + ender], then the guarded
    [chunks.append(cur.strip())]. *)
Definition emit (text_part ender : str) : list str :=
  let cur := [] ++ text_part ++ ender in
  if truthy (strip cur) then [strip cur] else [].

(** [for i in range(0, len(parts) - 1, 2)]: every index [i] that has an
    [i + 1] in [parts]. *)
Fixpoint chunk_loop (parts : list str) : list str :=
  match parts with
  | text_part :: ender :: rest => emit text_part ender ++ chunk_loop rest
  | _ => []
  end.

Definition split_into_speakable_chunks (buffer : str) : list str * str :=
  let parts := re_split buffer in
  let chunks := chunk_loop parts in
  let remainder :=
    if Nat.odd (length parts) then default [] (last parts) else [] in
  (chunks, remainder).

End Chunker.

Import Chunker.

(** ** Exceptions *)

Module PyExn.

(** Instances of [Exception]; [RuntimeError] carries the [__cause__] set by
    [raise ... from exc]. *)
Inductive error : Type :=
| ValueError (msg : str)
| RuntimeError (msg : str) (cause : option error)
| OtherError (msg : str).

(** [str(exc)] *)
Definition message (e : error) : str :=
  match e with
  | ValueError m => m
  | RuntimeError m _ => m
  | OtherError m => m
  end.

(** What a [try] in the main thread can see: an [Exception], or the
    [KeyboardInterrupt] of Ctrl+C, which is not one. *)
Inductive raised : Type :=
| Exception (e : error)
| KeyboardInterrupt.

(** What [print(s)] writes: [s] and the newline of the default [end]. *)
Definition print_line (s : str) : str := s ++ [10].

End PyExn.

Import PyExn.

(** ** The streaming pipeline of [main] *)

Module Stream.

Section Pipeline.

Context {audio : Type}.

(** Where each worker thread stands in its [while True] loop. *)
Inductive tts_pc : Type :=
| TtsWaiting                      (* at [tts_q.get()] *)
| TtsGot (text : option str)      (* an item was dequeued, not yet handled *)
| TtsStopped.                     (* after [break] *)

Inductive player_pc : Type :=
| PlayerWaiting                   (* at [audio_q.get()] *)
| PlayerPlaying (a : audio)       (* inside [sd.play(..., blocking=True)] *)
| PlayerStopped.                  (* after [break] *)

(** The two queues and the two workers; [None] is the sentinel. *)
Record sys : Type := Sys {
  tts_q : list (option str);
  audio_q : list (option audio);
  tts_at : tts_pc;
  player_at : player_pc
}.

(** One atomic move of one thread.  The scheduler picks the thread, so the
    time a call takes is the number of moves of the other threads before it
    returns; the outcome of the engine call is the environment's:
    [TtsSynth out] is [next(pipeline(text, voice=KOKORO_VOICE))] returning
    [out.audio] or raising.  [PlayerGet] starts [sd.play] on the buffer it
    takes (the conversion by [np.asarray] keeps the samples) and
    [PlayerDone] is its return. *)
Inductive action : Type :=
| Put (item : option str)         (* the conversation loop: [tts_q.put] *)
| TtsGet
| TtsForward
| TtsSynth (out : error + audio)
| PlayerGet
| PlayerDone.

Inductive event : Type :=
| EvPut (item : option str)
| EvSynth (text : str) (out : error + audio)
| EvPrint (line : str)
| EvPlayStart (a : audio)
| EvPlayEnd (a : audio).

(** [print(f"\n[TTS error] {e}\n")] *)
Definition tts_error_line (e : error) : str :=
  print_line ([10] ++ py "[TTS error] " ++ message e ++ [10]).

Definition step (s : sys) (a : action) : option (sys * list event) :=
  match a with
  | Put item =>
      Some (Sys (tts_q s ++ [item]) (audio_q s) (tts_at s) (player_at s),
            [EvPut item])
  | TtsGet =>
      match tts_at s, tts_q s with
      | TtsWaiting, text :: q =>
          Some (Sys q (audio_q s) (TtsGot text) (player_at s), [])
      | _, _ => None
      end
  | TtsForward =>
      match tts_at s with
      | TtsGot None =>
          Some (Sys (tts_q s) (audio_q s ++ [None]) TtsStopped (player_at s), [])
      | _ => None
      end
  | TtsSynth out =>
      match tts_at s with
      | TtsGot (Some text) =>
          match out with
          | inr a =>
              Some (Sys (tts_q s) (audio_q s ++ [Some a]) TtsWaiting (player_at s),
                    [EvSynth text out])
          | inl e =>
              Some (Sys (tts_q s) (audio_q s) TtsWaiting (player_at s),
                    [EvSynth text out; EvPrint (tts_error_line e)])
          end
      | _ => None
      end
  | PlayerGet =>
      match player_at s, audio_q s with
      | PlayerWaiting, None :: q =>
          Some (Sys (tts_q s) q (tts_at s) PlayerStopped, [])
      | PlayerWaiting, Some a :: q =>
          Some (Sys (tts_q s) q (tts_at s) (PlayerPlaying a), [EvPlayStart a])
      | _, _ => None
      end
  | PlayerDone =>
      match player_at s with
      | PlayerPlaying a =>
          Some (Sys (tts_q s) (audio_q s) (tts_at s) PlayerWaiting, [EvPlayEnd a])
      | _ => None
      end
  end.

(** A schedule is a list of moves; it runs as far as every move is enabled. *)
Fixpoint run (s : sys) (acts : list action) : option (sys * list event) :=
  match acts with
  | [] => Some (s, [])
  | a :: acts' =>
      match step s a with
      | Some (s', evs) =>
          match run s' acts' with
          | Some (s'', evs') => Some (s'', evs ++ evs')
          | None => None
          end
      | None => None
      end
  end.

(** Both queues empty, both threads just started. *)
Definition sys_init : sys := Sys [] [] TtsWaiting PlayerWaiting.

(** Observations of a history. *)
Definition puts (h : list event) : list (option str) :=
  flat_map (fun e => match e with EvPut x => [x] | _ => [] end) h.

Definition synths (h : list event) : list (str * (error + audio)) :=
  flat_map (fun e => match e with EvSynth t o => [(t, o)] | _ => [] end) h.

Definition prints (h : list event) : list str :=
  flat_map (fun e => match e with EvPrint l => [l] | _ => [] end) h.

Definition play_events (h : list event) : list event :=
  flat_map (fun e => match e with
                     | EvPlayStart _ | EvPlayEnd _ => [e]
                     | _ => []
                     end) h.

Definition starts (h : list event) : list audio :=
  flat_map (fun e => match e with EvPlayStart a => [a] | _ => [] end) h.

(** The audio of the calls that returned, and the errors of those that
    raised, in call order. *)
Definition oks (l : list (str * (error + audio))) : list audio :=
  flat_map (fun p => match snd p with inr a => [a] | inl _ => [] end) l.

Definition errs (l : list (str * (error + audio))) : list error :=
  flat_map (fun p => match snd p with inl e => [e] | inr _ => [] end) l.

(** The text chunks of a queue history up to its first sentinel. *)
Fixpoint before_sentinel {A} (l : list (option A)) : list A :=
  match l with
  | Some x :: l' => x :: before_sentinel l'
  | _ => []
  end.

End Pipeline.

(** *** One turn of the conversation loop *)

Inductive role : Type := User | Assistant.

Record chat_message : Type := Message { msg_role : role; msg_content : str }.

(** What the chat backend does with one request: the [delta.content] of the
    events it yields ([None] when the delta or its content is missing), and
    then either the end of the stream or an exception, raised by
    [client.chat.completions.create] itself when there is no event before
    it, or by the iteration. *)
Record response : Type := Response {
  deltas : list (option str);
  failure : option raised
}.

(** The variables of the [try] body, with what was put on [tts_q] and
    printed so far. *)
Record turn_state : Type := TurnState {
  full : str;
  buffer : str;
  spoken : list str;
  printed : list str
}.

(** One iteration of [for event in stream]. *)
Definition on_event (st : turn_state) (delta : option str) : turn_state :=
  match delta with
  | Some token =>
      if truthy token then
        let full := full st ++ token in
        let buffer := buffer st ++ token in
        let '(chunks, buffer) := split_into_speakable_chunks buffer in
        TurnState full buffer (spoken st ++ chunks) (printed st ++ [token])
      else st
  | None => st
  end.

Definition stream_loop (st : turn_state) (events : list (option str)) : turn_state :=
  fold_left on_event events st.

Record turn_result : Type := TurnResult {
  messages_after : list chat_message;
  tts_puts : list str;
  output : list str;
  exits : bool            (* the [break] of [except KeyboardInterrupt] *)
}.

(** [print(f"\n[LLM error] {e}\n")] *)
Definition llm_error_line (e : error) : str :=
  print_line ([10] ++ py "[LLM error] " ++ message e ++ [10]).

(** One pass of [while True] in [main], for the line [input] returned and
    the backend's answer to the request; [output] is what the pass writes
    after the prompt. *)
Definition turn (backend : list chat_message -> response)
    (messages : list chat_message) (line : str) : turn_result :=
  let user := strip line in
  if negb (truthy user) then TurnResult messages [] [] false
  else
    let messages := messages ++ [Message User user] in
    let resp := backend messages in
    let st := stream_loop (TurnState [] [] [] [py "Assistant: "]) (deltas resp) in
    match failure resp with
    | None =>
        let messages := messages ++ [Message Assistant (full st)] in
        let leftover :=
          if truthy (strip (buffer st)) then [strip (buffer st)] else [] in
        TurnResult messages (spoken st ++ leftover)
                   (printed st ++ [print_line [10]]) false
    | Some KeyboardInterrupt =>
        TurnResult messages (spoken st) (printed st) true
    | Some (Exception e) =>
        TurnResult messages (spoken st) (printed st ++ [llm_error_line e]) false
    end.

End Stream.

Import Stream.

(** ** The synthesis adapter of [server.py] *)

Module Server.

(** A [KPipeline] object: its language code and which construction made it
    (object identity). *)
Record pipeline : Type := KPipeline { lang_code : str; serial : nat }.

(** A value of [voice_catalog]: the dict [{"lang": lang_code}]. *)
Record voice_info : Type := VoiceInfo { lang : str }.

Section Synthesis.

Context {sample : Type}.

(** Module-level state that is read-only after start-up. *)
Variable DEFAULT_VOICE : str.
Variable voice_catalog : gmap str voice_info.

(** The engine: what iterating [pipeline(clean_text, voice=resolved_voice)]
    yields (the flattened [chunk.audio] arrays), and the exception that ends
    the iteration, if one does. *)
Variable engine : pipeline -> str -> str -> list (list sample) * option error.

(** [_audio_to_wav_base64], the encoder of the concatenated samples. *)
Variable audio_to_wav_base64 : list sample -> str.

Inductive event : Type :=
| EvGetPipeline (lang_code : str)            (* [get_pipeline] entered *)
| EvCreate (p : pipeline)                    (* [KPipeline(...)] constructed *)
| EvCall (p : pipeline) (text voice : str)   (* the engine called *)
| EvPop (lang_code : str) (removed : option pipeline)
| EvLog (line : str).                        (* [app.logger.error] *)

(** The mutable module state: the pipeline cache and how many pipelines were
    constructed, with the trace of what was done. *)
Record world : Type := World {
  pipelines : gmap str pipeline;
  created : nat;
  trace : list event
}.

(** Computations that read and write the world and may raise. *)
Definition M (A : Type) : Type := world -> (error + A) * world.

Definition ret {A} (x : A) : M A := fun w => (inr x, w).

Definition raise {A} (e : error) : M A := fun w => (inl e, w).

Definition bind {A B} (m : M A) (k : A -> M B) : M B :=
  fun w => match m w with
           | (inr x, w') => k x w'
           | (inl e, w') => (inl e, w')
           end.

(** [try: body except Exception as exc: handler] *)
Definition try_except {A} (body : M A) (handler : error -> M A) : M A :=
  fun w => match body w with
           | (inr x, w') => (inr x, w')
           | (inl exc, w') => handler exc w'
           end.

Definition tell (e : event) : M unit :=
  fun w => (inr tt, World (pipelines w) (created w) (trace w ++ [e])).

Notation "x <- m ;; k" := (bind m (fun x => k))
  (at level 100, m at next level, right associativity).
Notation "m ;;; k" := (bind m (fun _ => k))
  (at level 100, right associativity).

(** [requested or DEFAULT_VOICE or ""] *)
Definition or_default (requested : option str) : str :=
  match requested with
  | Some v => if truthy v then v else DEFAULT_VOICE
  | None => DEFAULT_VOICE
  end.

Definition get_voice_info (requested : option str) : error + (str * str) :=
  let voice := strip (or_default requested) in
  match voice_catalog !! voice with
  | None => inl (ValueError (py "Voice '" ++ voice ++ py "' is not available."))
  | Some info => inr (voice, lang info)
  end.

(** [KPipeline(...)] is taken to return: an exception of the constructor
    would leave [synthesize_audio] from here, outside its [try]. *)
Definition get_pipeline (lang_code : str) : M pipeline :=
  tell (EvGetPipeline lang_code) ;;;
  fun w =>
    match pipelines w !! lang_code with
    | Some pipeline => (inr pipeline, w)
    | None =>
        let pipeline := KPipeline lang_code (created w) in
        (inr pipeline,
         World (<[lang_code := pipeline]> (pipelines w)) (S (created w))
               (trace w ++ [EvCreate pipeline]))
    end.

(** [pipelines.pop(lang_code, None)] *)
Definition pop_pipeline (lang_code : str) : M unit :=
  fun w =>
    (inr tt,
     World (delete lang_code (pipelines w)) (created w)
           (trace w ++ [EvPop lang_code (pipelines w !! lang_code)])).

(** What the body of the [try] computes from the engine's answer: every
    non-empty array is kept; an exception of the engine discards what was
    collected; no array at all is an error of its own. *)
Definition collect (pipeline : pipeline) (clean_text resolved_voice : str)
    : error + (str * str) :=
  let '(arrays, exc) := engine pipeline clean_text resolved_voice in
  match exc with
  | Some e => inl e
  | None =>
      let segments := List.filter (fun arr => negb (Nat.eqb (length arr) 0)) arrays in
      match segments with
      | [] => inl (RuntimeError (py "Kokoro returned empty audio.") None)
      | _ :: _ => inr (audio_to_wav_base64 (concat segments), resolved_voice)
      end
  end.

(** The body of the [try]; [with tts_lock] serializes it against other
    requests and leaves no trace in a single request. *)
Definition synth_once (pipeline : pipeline) (clean_text resolved_voice : str)
    : M (str * str) :=
  tell (EvCall pipeline clean_text resolved_voice) ;;;
  fun w => (collect pipeline clean_text resolved_voice, w).

Definition tts_failed (resolved_voice : str) (what : str) : str :=
  py "TTS failed for voice '" ++ resolved_voice ++ py "': " ++ what.

(** [for attempt in (0, 1)], and the [raise] after the loop. *)
Fixpoint attempts (todo : list nat) (last_error : option error)
    (lang_code clean_text resolved_voice : str) : M (str * str) :=
  match todo with
  | [] =>
      raise (RuntimeError
               (tts_failed resolved_voice
                  (match last_error with Some e => message e | None => py "None" end))
               last_error)
  | attempt :: todo' =>
      pipeline <- get_pipeline lang_code ;;
      try_except (synth_once pipeline clean_text resolved_voice)
        (fun exc =>
           pop_pipeline lang_code ;;;
           if Nat.eqb attempt 0 then
             attempts todo' (Some exc) lang_code clean_text resolved_voice
           else
             let error_msg := tts_failed resolved_voice (message exc) in
             tell (EvLog error_msg) ;;;
             raise (RuntimeError error_msg (Some exc)))
  end.

Definition synthesize_audio (text voice_name : option str) : M (str * str) :=
  match get_voice_info voice_name with
  | inl e => raise e
  | inr (resolved_voice, lang_code) =>
      let clean_text := strip (default [] text) in
      if negb (truthy clean_text) then
        raise (ValueError (py "No text provided to synthesize."))
      else attempts [0; 1]%nat None lang_code clean_text resolved_voice
  end.

(** Observations of a trace. *)
Definition engine_calls (t : list event) : list pipeline :=
  flat_map (fun e => match e with EvCall p _ _ => [p] | _ => [] end) t.

(** The cache entries a trace removed: the [pop]s that found one. *)
Definition evictions (t : list event) : list (str * pipeline) :=
  flat_map (fun e => match e with
                     | EvPop l (Some p) => [(l, p)]
                     | _ => []
                     end) t.

End Synthesis.

End Server.

(** ** Vocabulary of the statements *)

Module Spec.

(** No character of [s] can be matched by [SENT_END_RE]. *)
Definition no_delim (s : str) : bool := forallb (fun c => negb (is_delim c)) s.

(** [rejoin pads chunks] puts the chunks back between the strings [pads]:
    [p0 ++ c1 ++ p1 ++ ... ++ cn ++ pn]. *)
Fixpoint rejoin (pads chunks : list str) : str :=
  match pads with
  | [] => []
  | p :: pads' =>
      p ++ match chunks with
           | [] => []
           | c :: chunks' => c ++ rejoin pads' chunks'
           end
  end.

(** [padded chunks body]: [body] is the chunks in order, with only white
    space before, between and after them. *)
Inductive padded : list str -> str -> Prop :=
| padded_nil w : blank w = true -> padded [] w
| padded_cons w c chunks body :
    blank w = true -> padded chunks body -> padded (c :: chunks) (w ++ c ++ body).

Definition ends_with_ender (s : str) : bool :=
  match last s with Some c => is_ender c | None => false end.

Definition starts_with_ender (s : str) : bool :=
  match s with c :: _ => is_ender c | [] => false end.

(** No token boundary falls inside a run of [[.!?]]: at every boundary, the
    text received so far does not end with such a character while the text
    still to come starts with one.  [pre] is the text before [tokens]. *)
Fixpoint runs_kept (pre : str) (tokens : list str) : bool :=
  match tokens with
  | [] => true
  | t :: tokens' =>
      negb (ends_with_ender pre && starts_with_ender (concat tokens))
      && runs_kept (pre ++ t) tokens'
  end.

(** A string one match of [SENT_END_RE] can be: a non-empty run of [[.!?]],
    or one newline. *)
Definition is_match (d : str) : bool :=
  (truthy d && forallb is_ender d)
  || match d with [c] => is_nl c | _ => false end.

(** [splits s parts]: what [re.split] with the pattern [([.!?]+|\n)] is
    specified to return on [s].  Matches are found from left to right: the
    text before a match holds no character that could start one; a match
    of [[.!?]+] is greedy, so what follows it does not continue the run;
    the search resumes after the match; the text after the last match ends
    the list. *)
Inductive splits : str -> list str -> Prop :=
| splits_last t :
    no_delim t = true -> splits t [t]
| splits_match t d rest parts :
    no_delim t = true -> is_match d = true ->
    starts_with_ender d && starts_with_ender rest = false ->
    splits rest parts ->
    splits (t ++ d ++ rest) (t :: d :: parts).

(** Parts as [SENT_END_RE.split] lists them before the last text: a text
    without delimiter, then the match that ended it, and so on. *)
Fixpoint parts_ok (parts : list str) : bool :=
  match parts with
  | [] => true
  | text :: d :: rest => no_delim text && is_match d && parts_ok rest
  | [_] => false
  end.

(** What the scanner has read so far. *)
Definition consumed (st : scanner) : str :=
  concat (parts_done st) ++ cur_text st ++ default [] (cur_run st).

(** The scanner holds well-formed parts, a text without delimiter and, if
    any, a non-empty run of [[.!?]]. *)
Definition scanner_ok (st : scanner) : bool :=
  parts_ok (parts_done st) && no_delim (cur_text st)
  && match cur_run st with
     | Some d => truthy d && forallb is_ender d
     | None => true
     end.

(** The same scanner with [parts] read before everything it has read. *)
Definition prepend (parts : list str) (st : scanner) : scanner :=
  Scanner (parts ++ parts_done st) (cur_text st) (cur_run st).

(** What [split_into_speakable_chunks] returns when the scanner ends in
    [st]. *)
Definition view (st : scanner) : list str * str :=
  match cur_run st with
  | Some d => (chunk_loop (parts_done st) ++ emit (cur_text st) d, [])
  | None => (chunk_loop (parts_done st), cur_text st)
  end.

(** [s] is empty or ends with a character of a delimiter. *)
Definition closed_end (s : str) : bool :=
  match last s with Some c => is_delim c | None => true end.

(** *** The pipeline *)

Section PipelineSpec.

Context {audio : Type}.

(** The item the synthesis worker has taken off [tts_q] and not finished. *)
Definition in_flight (pc : @tts_pc) : list (option str) :=
  match pc with
  | TtsWaiting => []
  | TtsGot item => [item]
  | TtsStopped => [None]
  end.

(** The sentinel the synthesis worker has forwarded, and the one the
    playback worker has received. *)
Definition forwarded (pc : @tts_pc) : list (option audio) :=
  match pc with TtsStopped => [None] | _ => [] end.

Definition received (pc : @player_pc audio) : list (option audio) :=
  match pc with PlayerStopped => [None] | _ => [] end.

(** A buffer played from start to end. *)
Definition played (a : audio) : list (@event audio) := [EvPlayStart a; EvPlayEnd a].

(** What ties a state to the history that led to it: every item put is
    handled, in flight or still queued, in order; every audio buffer made
    is started or still queued, in order; the sentinel ends both; every
    error was printed; and the buffers were played one after the other. *)
Record inv (s : @sys audio) (h : list (@event audio)) : Prop := Inv {
  inv_text :
    puts h = map Some (map fst (synths h)) ++ in_flight (tts_at s) ++ tts_q s;
  inv_audio :
    map Some (oks (synths h)) ++ forwarded (tts_at s)
    = map Some (starts h) ++ received (player_at s) ++ audio_q s;
  inv_print :
    prints h = map tts_error_line (errs (synths h));
  inv_play :
    match player_at s with
    | PlayerPlaying a =>
        exists done, starts h = done ++ [a]
                     /\ play_events h = flat_map played done ++ [EvPlayStart a]
    | _ => play_events h = flat_map played (starts h)
    end
}.

End PipelineSpec.

(** *** The synthesis adapter *)

Import Server.

(** The pipeline the first attempt runs on: the cached one, or the one
    [get_pipeline] constructs. *)
Definition first_pipeline (w : world) (lang_code : str) : pipeline :=
  default (KPipeline lang_code (created w)) (pipelines w !! lang_code).

Definition first_lookup (w : world) (lang_code : str) : list Server.event :=
  EvGetPipeline lang_code
  :: match pipelines w !! lang_code with
     | Some _ => []
     | None => [EvCreate (KPipeline lang_code (created w))]
     end.

Definition created_after_first (w : world) (lang_code : str) : nat :=
  match pipelines w !! lang_code with
  | Some _ => created w
  | None => S (created w)
  end.

(** The pipeline the retry constructs. *)
Definition second_pipeline (w : world) (lang_code : str) : pipeline :=
  KPipeline lang_code (created_after_first w lang_code).

(** What a request does when its first attempt fails, up to the second
    call of the engine: the failed call, the eviction, and the pipeline
    constructed for the retry. *)
Definition retry_events (w : world) (lang_code clean_text voice : str)
    : list Server.event :=
  first_lookup w lang_code
  ++ [EvCall (first_pipeline w lang_code) clean_text voice;
      EvPop lang_code (Some (first_pipeline w lang_code));
      EvGetPipeline lang_code;
      EvCreate (second_pipeline w lang_code);
      EvCall (second_pipeline w lang_code) clean_text voice].

(** What follows when the retry fails with [e2]. *)
Definition second_failure_events (w : world) (lang_code voice : str) (e2 : error)
    : list Server.event :=
  [EvPop lang_code (Some (second_pipeline w lang_code));
   EvLog (tts_failed voice (message e2))].

End Spec.

Import Spec.

(** ** The rest of [server.py]: the voice catalog, start-up, the model list
       and the two routes *)

Module App.

Import Server.

(** *** Dictionaries that keep insertion order *)

(** A Python [dict] with [str] keys: the items in insertion order, each key
    once. *)
Definition dict (V : Type) : Type := list (str * V).

(** [d.get(k)] *)
Fixpoint dict_get {V} (k : str) (d : dict V) : option V :=
  match d with
  | [] => None
  | (k', v) :: d' => if decide (k = k') then Some v else dict_get k d'
  end.

(** [d[k] = v]: a key already there keeps its place. *)
Fixpoint dict_set {V} (k : str) (v : V) (d : dict V) : dict V :=
  match d with
  | [] => [(k, v)]
  | (k', v') :: d' =>
      if decide (k = k') then (k, v) :: d' else (k', v') :: dict_set k v d'
  end.

Definition dict_keys {V} (d : dict V) : list str := map fst d.

(** [k in d] *)
Definition dict_has {V} (k : str) (d : dict V) : bool :=
  match dict_get k d with Some _ => true | None => false end.

(** The catalog as [get_voice_info] reads it. *)
Definition as_map {V} (d : dict V) : gmap str V := list_to_map d.

(** *** [_parse_voice_catalog] *)

(** Both cases of an ASCII letter given in lower case. *)
Definition either_case (lower c : char) : bool :=
  (c =? lower) || (c =? lower - 32).

(** What [[a-z]] matches under [re.IGNORECASE] in a [str] pattern: the 52
    ASCII letters and the four letters whose case folds to one of them. *)
Definition is_lang_letter (c : char) : bool :=
  ((97 <=? c) && (c <=? 122)) || ((65 <=? c) && (c <=? 90))
  || (c =? 304) || (c =? 305) || (c =? 383) || (c =? 8490).

(** The pattern [lang_code='([a-z])'] at the start of [s], ignoring case:
    the letters of [lang_code] in either case, the underscore, the equals
    sign and the quotes as they are.  The result is group 1. *)
Definition lang_match_here (s : str) : option char :=
  match s with
  | l :: a :: n :: g :: u :: c :: o :: d :: e :: eq :: q1 :: x :: q2 :: _ =>
      if either_case 108 l && either_case 97 a && either_case 110 n
         && either_case 103 g && (u =? 95) && either_case 99 c
         && either_case 111 o && either_case 100 d && either_case 101 e
         && (eq =? 61) && (q1 =? 39) && is_lang_letter x && (q2 =? 39)
      then Some x else None
  | _ => None
  end.

(** [lang_re.search(line)]: the leftmost match; [None] when there is none. *)
Fixpoint lang_search (line : str) : option char :=
  match lang_match_here line with
  | Some x => Some x
  | None =>
      match line with
      | [] => None
      | _ :: line' => lang_search line'
      end
  end.

(** [s.startswith(prefix)] *)
Fixpoint startswith (prefix s : str) : bool :=
  match prefix, s with
  | [], _ => true
  | p :: prefix', c :: s' => (c =? p) && startswith prefix' s'
  | _ :: _, [] => false
  end.

(** [s.split("|")]: the fields between the bars, one more than there are
    bars. *)
Fixpoint split_bar (s : str) : list str :=
  match s with
  | [] => [[]]
  | c :: s' =>
      if c =? 124 then [] :: split_bar s'
      else match split_bar s' with
           | field :: fields => (c :: field) :: fields
           | [] => [[c]]
           end
  end.

(** [l[1:-1]] *)
Definition inner {A} (l : list A) : list A := removelast (tail l).

(** [re.sub(r"[`*]", "", s)] *)
Definition drop_emphasis (s : str) : str :=
  List.filter (fun c => negb ((c =? 96) || (c =? 42))) s.

(** [s.replace("\\_", "_")]: every backslash followed by an underscore,
    found from left to right, becomes the underscore. *)
Fixpoint unescape_underscore (s : str) : str :=
  match s with
  | [] => []
  | c :: s' =>
      match s' with
      | u :: s'' =>
          if (c =? 92) && (u =? 95) then 95 :: unescape_underscore s''
          else c :: unescape_underscore s'
      | [] => [c]
      end
  end.

(** [s.lower() == "name"]: the four letters in either case (no other
    character has one of them as its lower case). *)
Definition lower_is_name (s : str) : bool :=
  match s with
  | [n; a; m; e] =>
      either_case 110 n && either_case 97 a && either_case 109 m && either_case 101 e
  | _ => false
  end.

(** The name a table row gives, if it gives one: the body of the loop from
    [line.startswith] on. *)
Definition row_name (line : str) : option str :=
  if negb (startswith (py "|") line) || startswith (py "| Name") line
     || startswith (py "| ----") line
  then None
  else
    let cells := map strip (inner (split_bar line)) in
    match cells with
    | [] => None
    | name_cell :: _ =>
        let name := strip (unescape_underscore (drop_emphasis name_cell)) in
        if negb (truthy name) || lower_is_name name then None else Some name
    end.

(** One pass of [for raw in handle], on the dictionary and the current
    language code. *)
Definition parse_line (st : dict voice_info * str) (raw : str)
    : dict voice_info * str :=
  let '(voices, lang_code) := st in
  let line := strip raw in
  if negb (truthy line) then st
  else
    match lang_search line with
    | Some x => (voices, [x])
    | None =>
        match row_name line with
        | Some name => (dict_set name (VoiceInfo lang_code) voices, lang_code)
        | None => st
        end
    end.

(** [_parse_voice_catalog(path, fallback_lang)]; [file] is [None] when the
    path does not exist, and the lines of the file otherwise. *)
Definition _parse_voice_catalog (file : option (list str)) (fallback_lang : str)
    : dict voice_info :=
  match file with
  | None => []
  | Some lines => fst (fold_left parse_line lines ([], fallback_lang))
  end.

(** *** Start-up: the default voice *)

(** Lines 81 to 86: [env_voice] is [os.getenv("KOKORO_VOICE")], [None] when
    the variable is not set.  The result is [DEFAULT_VOICE] and
    [voice_catalog] as the requests find them. *)
Definition startup (env_voice : option str) (KOKORO_DEFAULT_LANG : str)
    (parsed : dict voice_info) : str * dict voice_info :=
  let voice_catalog := parsed in
  let DEFAULT_VOICE := default (py "af_nicole") env_voice in
  if negb (dict_has DEFAULT_VOICE voice_catalog) then
    let DEFAULT_VOICE :=
      match dict_keys voice_catalog with
      | first :: _ => first
      | [] => if truthy DEFAULT_VOICE then DEFAULT_VOICE else py "af_nicole"
      end in
    if negb (dict_has DEFAULT_VOICE voice_catalog) then
      (DEFAULT_VOICE,
       dict_set DEFAULT_VOICE (VoiceInfo KOKORO_DEFAULT_LANG) voice_catalog)
    else (DEFAULT_VOICE, voice_catalog)
  else (DEFAULT_VOICE, voice_catalog).

(** *** The model list: [_fetch_lmstudio_models], [available_models],
        [resolve_model_name] *)

(** The value of an optional string in a condition: [None] and the empty
    string count as missing. *)
Definition given (o : option str) : option str :=
  match o with
  | Some s => if truthy s then Some s else None
  | None => None
  end.

(** Truth value of a list in a condition: non-empty. *)
Definition some {A} (l : list A) : bool :=
  match l with [] => false | _ :: _ => true end.

Section Models.

(** Readings of [time.monotonic()]; [within_ttl now ts] is the test
    [now - ts < MODEL_CACHE_TTL]. *)
Context {time : Type}.
Variable within_ttl : time -> time -> bool.

(** [os.getenv("LMSTUDIO_MODEL_NAME")] *)
Variable LMSTUDIO_MODEL_NAME : option str.

(** [_model_cache] *)
Record model_cache : Type := ModelCache {
  cache_ts : time;
  cache_models : list str
}.

(** What [client.models.list()] does: it raises, or it returns a response
    whose [data] is missing or lists models, each with its [id] or none. *)
Definition listing : Type := error + option (list (option str)).

Definition _fetch_lmstudio_models (response : listing) : list str :=
  match response with
  | inl _ => []
  | inr data =>
      flat_map (fun id => match id with
                          | Some i => if truthy i then [i] else []
                          | None => []
                          end)
               (default [] data)
  end.

(** The result of [available_models], the cache after it, and whether the
    backend was asked. *)
Record models_result : Type := ModelsResult {
  models_of : list str;
  cache_after : model_cache;
  asked : bool
}.

Definition available_models (force_refresh : bool) (now : time)
    (response : listing) (cache : model_cache) : models_result :=
  match given LMSTUDIO_MODEL_NAME with
  | Some name => ModelsResult [name] cache false
  | None =>
      let cached := cache_models cache in
      let ts := cache_ts cache in
      if negb force_refresh && some cached && within_ttl now ts
      then ModelsResult cached cache false
      else
        let models := _fetch_lmstudio_models response in
        if some models then ModelsResult models (ModelCache now models) true
        else ModelsResult cached cache true
  end.

(** [resolve_model_name(requested)]: the model or the [RuntimeError], with
    the cache after the call and whether the backend was asked. *)
Definition resolve_model_name (requested : option str) (now : time)
    (response : listing) (cache : model_cache)
    : (error + str) * model_cache * bool :=
  match given requested with
  | Some r => (inr r, cache, false)
  | None =>
      let m := available_models false now response cache in
      match models_of m with
      | [] => (inl (RuntimeError (py "No LM Studio model is currently loaded.") None),
               cache_after m, asked m)
      | first :: _ => (inr first, cache_after m, asked m)
      end
  end.

End Models.

(** *** The routes [/api/chat] and [/api/tts] *)

Section Routes.

Context {time sample msg : Type}.
Variable within_ttl : time -> time -> bool.
Variable LMSTUDIO_MODEL_NAME : option str.
Variable DEFAULT_VOICE : str.
Variable voice_catalog : gmap str voice_info.
Variable engine : pipeline -> str -> str -> list (list sample) * option error.
Variable audio_to_wav_base64 : list sample -> str.

(** What a route returns: the JSON object of a success (status 200), or
    [{"error": ...}] with its status. *)
Inductive reply : Type :=
| ChatReply (content audio model voice : str)
| TtsReply (audio voice : str)
| ErrorReply (error : str) (status : nat).

(** The fields [chat] reads from the JSON object of the request, with the
    types of the annotations: the messages are a list, the voice and the
    model a [str] or nothing.  [temperature] is taken to be a number, so
    that [float] returns, and goes to the backend as it is.  [Http.chat]
    below is the route on a body of any shape; on a request of this form
    it is this function (lemma [chat_typed]). *)
Record chat_payload : Type := ChatPayload {
  payload_messages : list msg;
  payload_voice : option str;
  payload_model : option str
}.

(** The two caches of the module. *)
Record app_state : Type := AppState {
  models_cache : @model_cache time;
  synth_world : world
}.

(** The reply of a request, the state it leaves, the models the chat
    backend was called with, and whether the model list was asked for. *)
Record served : Type := Served {
  reply_of : reply;
  state_after : app_state;
  llm_calls : list str;
  models_asked : bool
}.

Definition is_runtime_error (e : error) : bool :=
  match e with RuntimeError _ _ => true | _ => false end.

Definition is_value_error (e : error) : bool :=
  match e with ValueError _ => true | _ => false end.

(** The [except] clauses around [synthesize_audio], in both routes. *)
Definition synthesis_error (exc : error) : reply :=
  if is_value_error exc then ErrorReply (message exc) 400
  else ErrorReply (message exc) 500.

(** [chat()].  [now] and [response] are what [time.monotonic()] and
    [client.models.list()] give if they are called; [llm model messages]
    is the outcome of [client.chat.completions.create] and of reading
    [completion.choices[0].message.content]. *)
Definition chat (payload : chat_payload) (now : time) (response : listing)
    (llm : str -> list msg -> error + option str) (st : app_state) : served :=
  let messages := payload_messages payload in
  let requested_voice := payload_voice payload in
  if negb (some messages) then
    Served (ErrorReply (py "messages are required") 400) st [] false
  else
    match get_voice_info DEFAULT_VOICE voice_catalog requested_voice with
    | inl exc => Served (ErrorReply (message exc) 400) st [] false
    | inr (resolved_voice, _) =>
        let '(resolved, cache, asked) :=
          resolve_model_name within_ttl LMSTUDIO_MODEL_NAME
            (payload_model payload) now response (models_cache st) in
        let st := AppState cache (synth_world st) in
        match resolved with
        | inl exc => Served (ErrorReply (message exc) 503) st [] asked
        | inr model_name =>
            match llm model_name messages with
            | inl exc =>
                Served (ErrorReply (message exc)
                          (if is_runtime_error exc then 503 else 500))
                       st [model_name] asked
            | inr answer =>
                let content := default [] (given answer) in
                match synthesize_audio DEFAULT_VOICE voice_catalog engine
                        audio_to_wav_base64 (Some content) (Some resolved_voice)
                        (synth_world st) with
                | (inl exc, w) =>
                    Served (synthesis_error exc) (AppState cache w) [model_name] asked
                | (inr (audio_b64, resolved_voice), w) =>
                    Served (ChatReply content audio_b64 model_name resolved_voice)
                           (AppState cache w) [model_name] asked
                end
            end
        end
    end.

(** [tts()]; [text] and [voice] are [payload.get("text", "")] and
    [payload.get("voice")], each a [str] or nothing.  [Http.tts] below is
    the route on a body of any shape; on a request of this form it is
    this function (lemma [tts_typed]). *)
Definition tts (text voice : option str) (st : app_state) : served :=
  match synthesize_audio DEFAULT_VOICE voice_catalog engine audio_to_wav_base64
          text voice (synth_world st) with
  | (inl exc, w) =>
      Served (synthesis_error exc) (AppState (models_cache st) w) [] false
  | (inr (audio_b64, resolved_voice), w) =>
      Served (TtsReply audio_b64 resolved_voice) (AppState (models_cache st) w) [] false
  end.

End Routes.

End App.

(** ** The rest of [lmstudio_kokoro_speak_stream.py]: the loop of [main]
       and the end of the pipeline *)

Module Session.

(** Where [main] is when the inputs given to it are used up: back at the
    prompt, past the shutdown lines after [break], or left by an exception
    [input] raised (it is called outside the [try]). *)
Inductive status : Type :=
| AtPrompt
| Finished
| Aborted (r : raised).

Record session : Type := SessionState {
  history : list chat_message;          (* [messages] *)
  queued : list (option str);           (* every [tts_q.put], in order *)
  status_of : status
}.

(** The [while True] of [main] and the shutdown after it.  Each input is
    what one call of [input("You: ")] does: it returns a line or raises. *)
Fixpoint main_loop (backend : list chat_message -> response)
    (inputs : list (raised + str)) (messages : list chat_message)
    (queued : list (option str)) : session :=
  match inputs with
  | [] => SessionState messages queued AtPrompt
  | inl r :: _ => SessionState messages queued (Aborted r)
  | inr line :: inputs' =>
      let t := turn backend messages line in
      let queued := queued ++ map Some (tts_puts t) in
      if exits t then SessionState (messages_after t) (queued ++ [None]) Finished
      else main_loop backend inputs' (messages_after t) queued
  end.

Definition main (backend : list chat_message -> response)
    (inputs : list (raised + str)) : session :=
  main_loop backend inputs [] [].

(** A string the engine can be given: not empty, no white space around. *)
Definition speakable (s : str) : bool :=
  truthy s && bool_decide (strip s = s).

(** The roles of a history in which every answer directly follows a
    question; [asked] tells whether the message before is a question. *)
Fixpoint answers_follow (asked : bool) (roles : list role) : bool :=
  match roles with
  | [] => true
  | User :: roles' => answers_follow true roles'
  | Assistant :: roles' => asked && answers_follow false roles'
  end.

(** A question of the history is a line the user typed, trimmed and not
    empty. *)
Definition question_ok (m : chat_message) : Prop :=
  msg_role m = User -> speakable (msg_content m) = true.

(** The tokens of a response: the contents that are neither missing nor
    empty. *)
Definition tokens_of (deltas : list (option str)) : list str :=
  flat_map (fun d => match d with
                     | Some token => if truthy token then [token] else []
                     | None => []
                     end) deltas.

End Session.

(** *** Running the pipeline to its end *)

Module Drain.

Section Schedule.

Context {audio : Type}.

(** The engine, as a function of the chunk. *)
Variable synth : str -> error + audio.

(** The moves of the synthesis worker on the items of [tts_q], up to the
    sentinel. *)
Fixpoint tts_moves (q : list (option str)) : list (@action audio) :=
  match q with
  | [] => []
  | None :: _ => [TtsGet; TtsForward]
  | Some text :: q' => TtsGet :: TtsSynth (synth text) :: tts_moves q'
  end.

(** The moves of the synthesis worker from where it stands. *)
Definition tts_finish (pc : @tts_pc) (q : list (option str)) : list (@action audio) :=
  match pc with
  | TtsStopped => []
  | TtsGot None => [TtsForward]
  | TtsGot (Some text) => TtsSynth (synth text) :: tts_moves q
  | TtsWaiting => tts_moves q
  end.

(** The moves of the playback worker on the items of [audio_q], up to the
    sentinel. *)
Fixpoint player_moves (q : list (option audio)) : list (@action audio) :=
  match q with
  | [] => []
  | None :: _ => [PlayerGet]
  | Some _ :: q' => PlayerGet :: PlayerDone :: player_moves q'
  end.

Definition player_finish (pc : @player_pc audio) (q : list (option audio))
    : list (@action audio) :=
  match pc with
  | PlayerStopped => []
  | PlayerPlaying _ => PlayerDone :: player_moves q
  | PlayerWaiting => player_moves q
  end.

(** What the synthesis worker puts on [audio_q] while it makes
    [tts_moves q]. *)
Fixpoint tts_output (q : list (option str)) : list (option audio) :=
  match q with
  | [] => []
  | None :: _ => [None]
  | Some text :: q' =>
      match synth text with
      | inr a => Some a :: tts_output q'
      | inl _ => tts_output q'
      end
  end.

Definition tts_finish_output (pc : @tts_pc) (q : list (option str))
    : list (option audio) :=
  match pc with
  | TtsStopped => []
  | TtsGot None => [None]
  | TtsGot (Some text) =>
      match synth text with
      | inr a => Some a :: tts_output q
      | inl _ => tts_output q
      end
  | TtsWaiting => tts_output q
  end.

(** First the synthesis worker to its end, then the playback worker. *)
Definition drain (s : @sys audio) : list (@action audio) :=
  tts_finish (tts_at s) (tts_q s)
  ++ player_finish (player_at s) (audio_q s ++ tts_finish_output (tts_at s) (tts_q s)).

(** The moves of the conversation loop, as against those of the workers. *)
Definition is_put (a : @action audio) : bool :=
  match a with Put _ => true | _ => false end.

End Schedule.

End Drain.

(** *** More vocabulary for the synthesis adapter *)

Module SynthSpec.

Import Server.

(** The pipelines a trace constructed. *)
Definition constructed (t : list Server.event) : list pipeline :=
  flat_map (fun e => match e with EvCreate p => [p] | _ => [] end) t.

(** Every cached pipeline is filed under its own language code and is one
    of the pipelines constructed so far. *)
Definition cache_ok (w : world) : Prop :=
  forall l p, pipelines w !! l = Some p ->
              lang_code p = l /\ (serial p < created w)%nat.

End SynthSpec.

(** *** Vocabulary for the voice catalog *)

Module CatalogSpec.

Import Server App.

(** A name as the parser stores it: not empty, trimmed, not [name] in any
    case, and free of the bar and of the emphasis marks. *)
Definition voice_name_ok (name : str) : Prop :=
  truthy name = true /\ strip name = name /\ lower_is_name name = false
  /\ forall c, c ∈ name -> c <> 124 /\ c <> 96 /\ c <> 42.

(** A language code as the parser stores it: the fallback, or the one
    letter of a marker. *)
Definition lang_ok (fallback lang_code : str) : Prop :=
  lang_code = fallback \/ exists x, is_lang_letter x = true /\ lang_code = [x].

(** A line of the file that holds no language marker. *)
Definition no_marker (raw : str) : bool :=
  match lang_search (strip raw) with None => true | Some _ => false end.

Definition catalog_ok (fallback : str) (d : dict voice_info) : Prop :=
  NoDup (dict_keys d)
  /\ forall name info, dict_get name d = Some info ->
                       voice_name_ok name /\ lang_ok fallback (lang info).

End CatalogSpec.

From stdpp Require Import sorting.

Local Open Scope N_scope.
Local Open Scope list_scope.

(** *** The route [/api/voices] *)

Module Listing.

Import Server App.

(** [a <= b] on [str]: by code points, from the left; a proper prefix is
    smaller. *)
Fixpoint str_le (a b : str) : bool :=
  match a, b with
  | [], _ => true
  | _ :: _, [] => false
  | x :: a', y :: b' =>
      if (x <? y)%N then true else if (y <? x)%N then false else str_le a' b'
  end.

(** The order [sorted] puts the items of a dict in: tuples compare by
    their first components, and the keys of a dict differ, so the values
    are never compared. *)
Definition item_le (x y : str * voice_info) : Prop :=
  str_le (fst x) (fst y) = true.

#[global] Instance item_le_dec (x y : str * voice_info) : Decision (item_le x y) :=
  decide (str_le (fst x) (fst y) = true).

(** [sorted(voice_catalog.items())]: a stable sort, as Python's is. *)
Definition sorted_items (voice_catalog : dict voice_info) : list (str * voice_info) :=
  merge_sort item_le voice_catalog.

(** [{"name": name, "lang_code": meta["lang"]}] *)
Record voice_entry : Type := VoiceEntry { name : str; lang_code_of : str }.

(** [{"voices": voices, "default": DEFAULT_VOICE}] *)
Record voices_reply : Type := VoicesReply {
  voices : list voice_entry;
  default_of : str
}.

Definition list_voices (DEFAULT_VOICE : str) (voice_catalog : dict voice_info)
    : voices_reply :=
  VoicesReply
    (map (fun '(name, meta) => VoiceEntry name (lang meta)) (sorted_items voice_catalog))
    DEFAULT_VOICE.

(** [a < b] on [str]. *)
Definition str_lt (a b : str) : Prop := str_le a b = true /\ a <> b.

End Listing.
(** *** [server.py] on any request: bodies of any shape, and a pipeline
        constructor that can raise *)

(** The routes read the fields of a JSON body that can hold any value, and
    [get_pipeline] calls [KPipeline(...)] outside the [try] of
    [synthesize_audio].  This module has the routes and the synthesis
    adapter on every parsed body and for a constructor that may raise;
    [Server] and [App] above are the same code for requests whose fields
    have the types of the annotations and a constructor that returns. *)

Module Http.

Import Server App.

(** What [request.get_json] gives: the Python value of a JSON text.
    [pyfloat] stands for the floats. *)
Inductive pyval {pyfloat : Type} : Type :=
| PNone
| PBool (b : bool)
| PInt (n : Z)
| PFloat (x : pyfloat)
| PStr (s : str)
| PList (items : list pyval)
| PDict (fields : list (str * pyval)).

Arguments pyval : clear implicits.

Section Requests.

Context {time sample pyfloat : Type}.

(** [bool(x)] of a float: [x != 0.0]. *)
Variable float_truthy : pyfloat -> bool.

(** Python's [float(v)]: the float, or the [ValueError], [TypeError] or
    [OverflowError] it raises. *)
Variable float : pyval pyfloat -> error + pyfloat.

(** The literal [0.7]. *)
Variable default_temperature : pyfloat.

Variable within_ttl : time -> time -> bool.
Variable LMSTUDIO_MODEL_NAME : option str.
Variable DEFAULT_VOICE : str.
Variable voice_catalog : gmap str voice_info.
Variable engine : pipeline -> str -> str -> list (list sample) * option error.
Variable audio_to_wav_base64 : list sample -> str.

(** [KPipeline(lang_code=..., repo_id=..., model=...)] called in a state of
    the module: [None] when it returns, the exception when it raises. *)
Variable construct : world -> str -> option error.

Local Abbreviation value := (pyval pyfloat).

(** Truth value in a condition. *)
Definition py_truthy (v : value) : bool :=
  match v with
  | PNone => false
  | PBool b => b
  | PInt n => negb (Z.eqb n 0)
  | PFloat x => float_truthy x
  | PStr s => truthy s
  | PList items => some items
  | PDict fields => some fields
  end.

(** [type(v).__name__] *)
Definition type_name (v : value) : str :=
  match v with
  | PNone => py "NoneType"
  | PBool _ => py "bool"
  | PInt _ => py "int"
  | PFloat _ => py "float"
  | PStr _ => py "str"
  | PList _ => py "list"
  | PDict _ => py "dict"
  end.

(** The [AttributeError] of [v.attr] on a value that has no such
    attribute. *)
Definition attribute_error (v : value) (attr : str) : error :=
  OtherError (py "'" ++ type_name v ++ py "' object has no attribute '"
              ++ attr ++ py "'").

(** [request.get_json(force=True) or {}], and what [payload.get] needs:
    the fields of a dict; any other value that is not falsy has no [get].
    The body is taken to parse. *)
Definition payload_of (body : value) : error + list (str * value) :=
  if negb (py_truthy body) then inr []
  else match body with
       | PDict fields => inr fields
       | _ => inl (attribute_error body (py "get"))
       end.

(** [payload.get(key)] and [payload.get(key, fallback)] *)
Definition get (payload : list (str * value)) (key : str) : value :=
  default PNone (dict_get key payload).

Definition get_or (payload : list (str * value)) (key : str) (fallback : value)
    : value :=
  default fallback (dict_get key payload).

(** [float(payload.get("temperature", 0.7))] *)
Definition temperature_of (payload : list (str * value)) : error + pyfloat :=
  match dict_get (py "temperature") payload with
  | None => inr default_temperature
  | Some v => float v
  end.

(** [get_voice_info(requested)] for any value of [requested]: a value
    that is not falsy is used as it is, and only a [str] has [strip]. *)
Definition get_voice_info (requested : value) : error + (str * str) :=
  let chosen := if py_truthy requested then requested else PStr DEFAULT_VOICE in
  match chosen with
  | PStr s =>
      let voice := strip s in
      match voice_catalog !! voice with
      | None => inl (ValueError (py "Voice '" ++ voice ++ py "' is not available."))
      | Some info => inr (voice, lang info)
      end
  | _ => inl (attribute_error chosen (py "strip"))
  end.

(** [get_pipeline(lang_code)]; an exception of the constructor leaves the
    function, with nothing cached. *)
Definition get_pipeline (lang_code : str) : M pipeline :=
  bind (tell (EvGetPipeline lang_code)) (fun _ =>
  fun w =>
    match pipelines w !! lang_code with
    | Some pipeline => (inr pipeline, w)
    | None =>
        match construct w lang_code with
        | Some exc => (inl exc, w)
        | None =>
            let pipeline := KPipeline lang_code (created w) in
            (inr pipeline,
             World (<[lang_code := pipeline]> (pipelines w)) (S (created w))
                   (trace w ++ [EvCreate pipeline]))
        end
    end).

(** [for attempt in (0, 1)], and the [raise] after the loop;
    [get_pipeline] is called outside the [try]. *)
Fixpoint attempts (todo : list nat) (last_error : option error)
    (lang_code clean_text resolved_voice : str) : M (str * str) :=
  match todo with
  | [] =>
      raise (RuntimeError
               (tts_failed resolved_voice
                  (match last_error with Some e => message e | None => py "None" end))
               last_error)
  | attempt :: todo' =>
      bind (get_pipeline lang_code) (fun pipeline =>
      try_except (synth_once engine audio_to_wav_base64 pipeline clean_text resolved_voice)
        (fun exc =>
           bind (pop_pipeline lang_code) (fun _ =>
           if Nat.eqb attempt 0 then
             attempts todo' (Some exc) lang_code clean_text resolved_voice
           else
             let error_msg := tts_failed resolved_voice (message exc) in
             bind (tell (EvLog error_msg)) (fun _ =>
             raise (RuntimeError error_msg (Some exc))))))
  end.

(** [(text or "").strip()] *)
Definition clean_text_of (text : value) : error + str :=
  match (if py_truthy text then text else PStr []) with
  | PStr s => inr (strip s)
  | other => inl (attribute_error other (py "strip"))
  end.

Definition synthesize_audio (text voice_name : value) : M (str * str) :=
  match get_voice_info voice_name with
  | inl e => raise e
  | inr (resolved_voice, lang_code) =>
      match clean_text_of text with
      | inl e => raise e
      | inr clean_text =>
          if negb (truthy clean_text) then
            raise (ValueError (py "No text provided to synthesize."))
          else attempts [0; 1]%nat None lang_code clean_text resolved_voice
      end
  end.

(** [resolve_model_name(requested)]: a value that is not falsy is the
    model, whatever it is. *)
Definition resolve_model_name (requested : value) (now : time)
    (response : listing) (cache : model_cache) : (error + value) * model_cache * bool :=
  if py_truthy requested then (inr requested, cache, false)
  else
    let m := available_models within_ttl LMSTUDIO_MODEL_NAME false now response cache in
    match models_of m with
    | [] => (inl (RuntimeError (py "No LM Studio model is currently loaded.") None),
             cache_after m, asked m)
    | first :: _ => (inr (PStr first), cache_after m, asked m)
    end.

(** What a route does: it returns the JSON object of a success (status
    200) or [{"error": ...}] with its status, or an exception leaves it. *)
Inductive reply : Type :=
| ChatReply (content audio : str) (model : value) (voice : str)
| TtsReply (audio voice : str)
| ErrorReply (error : str) (status : nat)
| Unhandled (exc : error).

(** One call of [client.chat.completions.create]. *)
Record llm_call : Type := LlmCall {
  call_model : value;
  call_messages : value;
  call_temperature : pyfloat
}.

(** The reply of a request, the state it leaves, the calls of the chat
    backend, and whether the model list was asked for. *)
Record served : Type := Served {
  reply_of : reply;
  state_after : @app_state time;
  llm_calls : list llm_call;
  models_asked : bool
}.

(** The [except] clauses around [synthesize_audio], in both routes. *)
Definition synthesis_error (exc : error) : reply :=
  if is_value_error exc then ErrorReply (message exc) 400
  else ErrorReply (message exc) 500.

(** [chat()].  [now] and [response] are what [time.monotonic()] and
    [client.models.list()] give if they are called; [llm] is the outcome
    of [client.chat.completions.create] and of reading
    [completion.choices[0].message.content]. *)
Definition chat (body : value) (now : time) (response : listing)
    (llm : llm_call -> error + option str) (st : @app_state time) : served :=
  match payload_of body with
  | inl exc => Served (Unhandled exc) st [] false
  | inr payload =>
      let messages := get_or payload (py "messages") (PList []) in
      match temperature_of payload with
      | inl exc => Served (Unhandled exc) st [] false
      | inr temperature =>
          let requested_voice := get payload (py "voice") in
          if negb (py_truthy messages) then
            Served (ErrorReply (py "messages are required") 400) st [] false
          else
            match get_voice_info requested_voice with
            | inl exc =>
                if is_value_error exc
                then Served (ErrorReply (message exc) 400) st [] false
                else Served (Unhandled exc) st [] false
            | inr (resolved_voice, _) =>
                let '(resolved, cache, asked) :=
                  resolve_model_name (get payload (py "model")) now response
                    (models_cache st) in
                let st := AppState cache (synth_world st) in
                match resolved with
                | inl exc => Served (ErrorReply (message exc) 503) st [] asked
                | inr model_name =>
                    let call := LlmCall model_name messages temperature in
                    match llm call with
                    | inl exc =>
                        Served (ErrorReply (message exc)
                                  (if is_runtime_error exc then 503 else 500))
                               st [call] asked
                    | inr answer =>
                        let content := default [] (given answer) in
                        match synthesize_audio (PStr content) (PStr resolved_voice)
                                (synth_world st) with
                        | (inl exc, w) =>
                            Served (synthesis_error exc) (AppState cache w) [call] asked
                        | (inr (audio_b64, resolved_voice), w) =>
                            Served (ChatReply content audio_b64 model_name resolved_voice)
                                   (AppState cache w) [call] asked
                        end
                    end
                end
            end
      end
  end.

(** [tts()] *)
Definition tts (body : value) (st : @app_state time) : served :=
  match payload_of body with
  | inl exc => Served (Unhandled exc) st [] false
  | inr payload =>
      let text := get_or payload (py "text") (PStr []) in
      let voice := get payload (py "voice") in
      match synthesize_audio text voice (synth_world st) with
      | (inl exc, w) =>
          Served (synthesis_error exc) (AppState (models_cache st) w) [] false
      | (inr (audio_b64, resolved_voice), w) =>
          Served (TtsReply audio_b64 resolved_voice) (AppState (models_cache st) w)
                 [] false
      end
  end.

(** **** The ways a synthesis request fails *)

(** The request is refused before anything is done: the voice does not
    resolve (or is not a [str]), or the text is not a [str], or it is
    blank. *)
Definition bad_input (text voice_name : value) (e : error) : Prop :=
  get_voice_info voice_name = inl e
  \/ exists voice l,
       get_voice_info voice_name = inr (voice, l)
       /\ (clean_text_of text = inl e
           \/ exists clean_text,
                clean_text_of text = inr clean_text /\ truthy clean_text = false
                /\ e = ValueError (py "No text provided to synthesize.")).

(** The constructor raised [e], on the first lookup or on the one of the
    retry: [e] leaves [synthesize_audio] as it is, after no call of the
    engine or after the one that failed, and no pipeline is cached for
    the language. *)
Definition constructor_failed (text voice_name : value) (w w' : world) (e : error)
    : Prop :=
  exists voice l clean_text new,
    get_voice_info voice_name = inr (voice, l)
    /\ clean_text_of text = inr clean_text /\ truthy clean_text = true
    /\ trace w' = trace w ++ new
    /\ pipelines w' !! l = None
    /\ construct w' l = Some e
    /\ (engine_calls new = []
        \/ exists p1 exc1,
             engine_calls new = [p1]
             /\ collect engine audio_to_wav_base64 p1 clean_text voice = inl exc1).

(** The engine failed on both attempts: [e] is the [RuntimeError] that
    names the voice and carries the exception of the second attempt; it
    was logged last, and no pipeline is cached for the language. *)
Definition engine_failed_twice (text voice_name : value) (w w' : world) (e : error)
    : Prop :=
  exists voice l clean_text new exc,
    get_voice_info voice_name = inr (voice, l)
    /\ clean_text_of text = inr clean_text /\ truthy clean_text = true
    /\ trace w' = trace w ++ new
    /\ pipelines w' !! l = None
    /\ e = RuntimeError (tts_failed voice (message exc)) (Some exc)
    /\ length (engine_calls new) = 2%nat
    /\ last new = Some (EvLog (tts_failed voice (message exc))).

(** **** Requests whose fields have the annotated types *)

(** A field of a request as the annotations have it: a [str] or
    nothing. *)
Definition optional (o : option str) : value :=
  match o with Some s => PStr s | None => PNone end.

(** What [App.chat] and [App.tts] answer, read as an answer of the routes
    here; [messages] and [temperature] are what the chat backend was
    called with. *)
Definition typed_reply (r : App.reply) : reply :=
  match r with
  | App.ChatReply content audio model voice => ChatReply content audio (PStr model) voice
  | App.TtsReply audio voice => TtsReply audio voice
  | App.ErrorReply error status => ErrorReply error status
  end.

Definition typed_served (messages : list value) (temperature : pyfloat)
    (r : @App.served time) : served :=
  Served (typed_reply (App.reply_of r)) (App.state_after r)
         (map (fun model => LlmCall (PStr model) (PList messages) temperature)
              (App.llm_calls r))
         (App.models_asked r).

End Requests.

End Http.
(** * Checks of the model against the interpreter

    [re.split] on the inputs below gives the lists on the right. *)

Example re_split_empty : re_split (py "") = [[]].
Proof. reflexivity. Qed.

Example re_split_sentence :
  re_split (py "Hello. World") = [py "Hello"; py "."; py " World"].
Proof. reflexivity. Qed.

Example re_split_runs :
  re_split (py "Wait... what?!") = [py "Wait"; py "..."; py " what"; py "?!"; []].
Proof. reflexivity. Qed.

Example re_split_newline_after_run :
  re_split (py "a." ++ [10] ++ [10] ++ py "b")
  = [py "a"; py "."; []; [10]; []; [10]; py "b"].
Proof. reflexivity. Qed.

Example split_hello_world :
  split_into_speakable_chunks (py "Hello world") = ([], py "Hello world").
Proof. reflexivity. Qed.

Example split_hello_world_bang :
  split_into_speakable_chunks (py "Hello. World!") = ([py "Hello."; py "World!"], []).
Proof. reflexivity. Qed.

(** * Properties *)

(** ** Strings and [strip] *)

Lemma is_ender_cases c : is_ender c = true -> c = 46 \/ c = 33 \/ c = 63.
Proof.
  unfold is_ender. intros H.
  apply orb_true_iff in H as [H|H]; [apply orb_true_iff in H as [H|H]|];
    apply N.eqb_eq in H; auto.
Qed.

Lemma is_ender_not_space c : is_ender c = true -> isspace c = false.
Proof. intros [H|[H|H]]%is_ender_cases; subst; reflexivity. Qed.

Lemma is_nl_space c : is_nl c = true -> isspace c = true.
Proof. unfold is_nl. intros H%N.eqb_eq. subst. reflexivity. Qed.

Lemma is_nl_not_ender c : is_nl c = true -> is_ender c = false.
Proof. unfold is_nl. intros H%N.eqb_eq. subst. reflexivity. Qed.

Lemma blank_app a b : blank (a ++ b) = blank a && blank b.
Proof. apply forallb_app. Qed.

Lemma lstrip_blank s : blank s = true -> lstrip s = [].
Proof.
  induction s as [|c s IH]; simpl; [reflexivity|].
  intros [Hc Hs]%andb_true_iff. rewrite Hc. auto.
Qed.

Lemma lstrip_nil_blank s : lstrip s = [] -> blank s = true.
Proof.
  induction s as [|c s IH]; simpl; [reflexivity|].
  destruct (isspace c); simpl; [assumption|discriminate].
Qed.

(** [lstrip] removes a blank prefix and nothing else. *)
Lemma lstrip_split s : exists w, blank w = true /\ s = w ++ lstrip s.
Proof.
  induction s as [|c s [w [Hw Hs]]]; simpl.
  - exists []. auto.
  - destruct (isspace c) eqn:Hc.
    + exists (c :: w). simpl. rewrite Hc, Hw. split; [reflexivity|congruence].
    + exists []. auto.
Qed.

Lemma lstrip_head s c s' : lstrip s = c :: s' -> isspace c = false.
Proof.
  induction s as [|x s IH]; simpl; [discriminate|].
  destruct (isspace x) eqn:Hx; [assumption|].
  intros [= -> _]. assumption.
Qed.

Lemma lstrip_fix c s : isspace c = false -> lstrip (c :: s) = c :: s.
Proof. simpl. intros ->. reflexivity. Qed.

(** A prefix that is followed by a visible character keeps it. *)
Lemma lstrip_app_visible x c y :
  isspace c = false -> lstrip (x ++ c :: y) = lstrip x ++ c :: y.
Proof.
  intros Hc. induction x as [|a x IH]; simpl.
  - rewrite Hc. reflexivity.
  - destruct (isspace a); [assumption|reflexivity].
Qed.

Lemma lstrip_app_blank w s : blank w = true -> lstrip (w ++ s) = lstrip s.
Proof.
  induction w as [|a w IH]; simpl; [reflexivity|].
  intros [Ha Hw]%andb_true_iff. rewrite Ha. auto.
Qed.

Lemma blank_rev s : blank (rev s) = blank s.
Proof.
  unfold blank. induction s as [|c s IH]; simpl; [reflexivity|].
  rewrite forallb_app, IH. simpl. rewrite andb_true_r. apply andb_comm.
Qed.

Lemma rstrip_split s : exists w, blank w = true /\ s = rstrip s ++ w.
Proof.
  destruct (lstrip_split (rev s)) as [w [Hw Hs]].
  exists (rev w). rewrite blank_rev. split; [assumption|].
  unfold rstrip. rewrite <- rev_app_distr, <- Hs, rev_involutive. reflexivity.
Qed.

Lemma rstrip_app_visible x c : isspace c = false -> rstrip (x ++ [c]) = x ++ [c].
Proof.
  intros Hc. unfold rstrip. rewrite rev_app_distr. simpl. rewrite Hc.
  simpl. rewrite rev_involutive. reflexivity.
Qed.

Lemma rstrip_app_blank s w : blank w = true -> rstrip (s ++ w) = rstrip s.
Proof.
  intros Hw. unfold rstrip. rewrite rev_app_distr, lstrip_app_blank; [reflexivity|].
  rewrite blank_rev. assumption.
Qed.

Lemma rstrip_blank s : blank s = true -> rstrip s = [].
Proof.
  intros H. unfold rstrip. rewrite lstrip_blank; [reflexivity|].
  rewrite blank_rev. assumption.
Qed.

Lemma rstrip_last s c : last (rstrip s) = Some c -> isspace c = false.
Proof.
  unfold rstrip. destruct (lstrip (rev s)) as [|x l] eqn:E; simpl; [discriminate|].
  rewrite last_snoc. intros [= <-]. eapply lstrip_head, E.
Qed.

(** [strip] removes a blank prefix and a blank suffix and nothing else. *)
Lemma strip_split s :
  exists w1 w2, blank w1 = true /\ blank w2 = true /\ s = w1 ++ strip s ++ w2.
Proof.
  destruct (lstrip_split s) as [w1 [H1 E1]].
  destruct (rstrip_split (lstrip s)) as [w2 [H2 E2]].
  exists w1, w2. unfold strip. repeat split; try assumption.
  rewrite <- E2. assumption.
Qed.

Lemma strip_blank s : blank s = true -> strip s = [].
Proof. intros H. unfold strip. rewrite lstrip_blank; [reflexivity|assumption]. Qed.

Lemma strip_nil_blank s : strip s = [] -> blank s = true.
Proof.
  intros H. destruct (strip_split s) as [w1 [w2 [H1 [H2 E]]]].
  rewrite H in E. rewrite E. simpl. rewrite blank_app, H1, H2. reflexivity.
Qed.

Lemma truthy_false s : truthy s = false -> s = [].
Proof. destruct s; [reflexivity|discriminate]. Qed.

Lemma truthy_true s : truthy s = true -> s <> [].
Proof. destruct s; [discriminate|intros _ [=]]. Qed.

Lemma rstrip_head s c s' : rstrip s = c :: s' -> exists s'', s = c :: s''.
Proof.
  intros H. destruct (rstrip_split s) as [w [_ E]].
  rewrite H in E. simpl in E. eauto.
Qed.

(** A stripped string starts and ends with a visible character. *)
Lemma strip_head s c s' : strip s = c :: s' -> isspace c = false.
Proof.
  unfold strip. intros H. destruct (rstrip_head _ _ _ H) as [s'' E].
  eapply lstrip_head, E.
Qed.

Lemma strip_last s c : last (strip s) = Some c -> isspace c = false.
Proof. apply rstrip_last. Qed.

(** Text followed by a visible last character: only the front is trimmed. *)
Lemma strip_app_visible x d c :
  isspace c = false -> (forall a, a ∈ d -> isspace a = false) ->
  strip (x ++ d ++ [c]) = lstrip x ++ d ++ [c].
Proof.
  intros Hc Hd. unfold strip.
  assert (E : lstrip (x ++ d ++ [c]) = lstrip x ++ d ++ [c]).
  { destruct d as [|a d]; simpl.
    - apply lstrip_app_visible. assumption.
    - apply lstrip_app_visible. apply Hd. left. }
  rewrite E, !app_assoc. apply rstrip_app_visible. assumption.
Qed.

(** ** The scanner behind [SENT_END_RE.split] *)

Lemma scan_app st a b : scan st (a ++ b) = scan (scan st a) b.
Proof. apply fold_left_app. Qed.

Lemma scan_cons st c s : scan st (c :: s) = scan (scan_char st c) s.
Proof. reflexivity. Qed.

Lemma is_delim_false c :
  is_delim c = false -> is_ender c = false /\ is_nl c = false.
Proof. unfold is_delim. apply orb_false_iff. Qed.

Lemma no_delim_app a b : no_delim (a ++ b) = no_delim a && no_delim b.
Proof. apply forallb_app. Qed.

Lemma parts_ok_even parts : parts_ok parts = true -> Nat.even (length parts) = true.
Proof.
  revert parts. fix IH 1. intros [|t [|d rest]]; simpl; try (reflexivity || discriminate).
  intros [_ H]%andb_true_iff. apply IH, H.
Qed.

Lemma parts_ok_app p q : parts_ok p = true -> parts_ok (p ++ q) = parts_ok q.
Proof.
  revert p. fix IH 1. intros [|t [|d rest]]; simpl; try (reflexivity || discriminate).
  intros [-> H]%andb_true_iff. simpl. apply IH, H.
Qed.

Lemma chunk_loop_app p q :
  parts_ok p = true -> chunk_loop (p ++ q) = chunk_loop p ++ chunk_loop q.
Proof.
  revert p. fix IH 1. intros [|t [|d rest]]; simpl; try (reflexivity || discriminate).
  intros [_ H]%andb_true_iff. rewrite <- app_assoc. f_equal. apply IH, H.
Qed.

Lemma is_match_run d : truthy d = true -> forallb is_ender d = true -> is_match d = true.
Proof. intros H1 H2. unfold is_match. rewrite H1, H2. reflexivity. Qed.

Lemma is_match_nl c : is_nl c = true -> is_match [c] = true.
Proof. intros H. unfold is_match. rewrite H. apply orb_true_r. Qed.

(** Every step of the scanner keeps its state well formed. *)
Lemma close_run_ok st : scanner_ok st = true -> scanner_ok (close_run st) = true.
Proof.
  unfold scanner_ok, close_run. destruct st as [P t [d|]]; simpl; [|tauto].
  intros [[HP Ht]%andb_true_iff [Hd1 Hd2]%andb_true_iff]%andb_true_iff.
  rewrite parts_ok_app by assumption. simpl.
  rewrite Ht, is_match_run by assumption. reflexivity.
Qed.

Lemma close_run_None st : cur_run (close_run st) = None.
Proof. unfold close_run. destruct st as [P t [d|]]; reflexivity. Qed.

Lemma scan_char_ok st c : scanner_ok st = true -> scanner_ok (scan_char st c) = true.
Proof.
  intros H. unfold scan_char. destruct (is_ender c) eqn:He.
  - unfold scanner_ok in *. simpl.
    apply andb_true_iff in H as [-> Hr]. simpl.
    rewrite forallb_app. simpl. rewrite He.
    destruct (cur_run st) as [d|]; simpl; [|reflexivity].
    apply andb_true_iff in Hr as [_ ->]. destruct d; reflexivity.
  - apply close_run_ok in H. pose proof (close_run_None st) as Hn.
    destruct (close_run st) as [P t r]. simpl in Hn. subst r.
    unfold scanner_ok in *. simpl in *. rewrite andb_true_r in *.
    apply andb_true_iff in H as [HP Ht].
    destruct (is_nl c) eqn:Hc; simpl.
    + rewrite parts_ok_app by assumption. simpl.
      rewrite Ht, is_match_nl by assumption. reflexivity.
    + rewrite HP, no_delim_app, Ht. simpl. unfold is_delim. rewrite He, Hc. reflexivity.
Qed.

Lemma scan_ok st s : scanner_ok st = true -> scanner_ok (scan st s) = true.
Proof.
  revert st. induction s as [|c s IH]; intros st H; [assumption|].
  rewrite scan_cons. apply IH, scan_char_ok, H.
Qed.

Lemma scan_char_consumed st c : consumed (scan_char st c) = consumed st ++ [c].
Proof.
  unfold consumed, scan_char, close_run.
  destruct st as [P t [d|]]; simpl; destruct (is_ender c); simpl;
    try destruct (is_nl c); simpl;
    rewrite ?concat_app; simpl; rewrite ?app_nil_r, <- ?app_assoc; simpl;
    rewrite <- ?app_assoc; reflexivity.
Qed.

Lemma scan_consumed st s : consumed (scan st s) = consumed st ++ s.
Proof.
  revert st. induction s as [|c s IH]; intros st.
  - simpl. rewrite app_nil_r. reflexivity.
  - rewrite scan_cons, IH, scan_char_consumed, <- app_assoc. reflexivity.
Qed.

(** The parts read before do not influence the scanner. *)
Lemma scan_char_prepend D st c :
  scan_char (prepend D st) c = prepend D (scan_char st c).
Proof.
  unfold scan_char, close_run, prepend.
  destruct st as [P t [d|]]; simpl; destruct (is_ender c); simpl;
    try destruct (is_nl c); simpl; rewrite <- ?app_assoc; reflexivity.
Qed.

Lemma scan_prepend D st s : scan (prepend D st) s = prepend D (scan st s).
Proof.
  revert st. induction s as [|c s IH]; intros st; [reflexivity|].
  rewrite !scan_cons, scan_char_prepend. apply IH.
Qed.

Lemma view_prepend D st :
  parts_ok D = true ->
  view (prepend D st) = (chunk_loop D ++ fst (view st), snd (view st)).
Proof.
  intros HD. unfold view, prepend. destruct st as [P t [d|]]; simpl;
    rewrite chunk_loop_app by assumption; rewrite <- ?app_assoc; reflexivity.
Qed.

(** A text without delimiter only extends the current text. *)
Lemma scan_text P t w :
  no_delim w = true -> scan (Scanner P t None) w = Scanner P (t ++ w) None.
Proof.
  revert t. induction w as [|c w IH]; intros t.
  - rewrite app_nil_r. reflexivity.
  - simpl no_delim. intros [Hc Hw]%andb_true_iff.
    apply negb_true_iff, is_delim_false in Hc as [He Hn].
    rewrite scan_cons. unfold scan_char. simpl. rewrite He, Hn.
    rewrite IH by assumption. rewrite <- app_assoc. reflexivity.
Qed.

(** A run of [[.!?]] only extends the current run. *)
Lemma scan_run P t r p :
  forallb is_ender p = true -> truthy p = true ->
  scan (Scanner P t r) p = Scanner P t (Some (default [] r ++ p)).
Proof.
  revert r. induction p as [|c p IH]; intros r; [discriminate|].
  simpl forallb. intros [Hc Hp]%andb_true_iff _.
  rewrite scan_cons. unfold scan_char. simpl. rewrite Hc.
  destruct p as [|c' p'].
  - reflexivity.
  - rewrite IH by (assumption || reflexivity). simpl. rewrite <- app_assoc. reflexivity.
Qed.

Lemma view_close_run st :
  scanner_ok st = true ->
  view st = (chunk_loop (parts_done (close_run st)), cur_text (close_run st)).
Proof.
  unfold scanner_ok, view, close_run. destruct st as [P t [d|]]; simpl; [|reflexivity].
  intros [[HP _]%andb_true_iff _]%andb_true_iff.
  rewrite chunk_loop_app by assumption. simpl. rewrite app_nil_r. reflexivity.
Qed.

(** [SENT_END_RE.split] returns an odd number of parts, so the remainder is
    always the last one. *)
Lemma re_split_odd buffer : Nat.odd (length (re_split buffer)) = true.
Proof.
  unfold re_split, scan_end.
  assert (H : scanner_ok (close_run (scan scan_init buffer)) = true)
    by (apply close_run_ok, scan_ok; reflexivity).
  unfold scanner_ok in H. apply andb_true_iff in H as [[HP _]%andb_true_iff _].
  rewrite length_app, Nat.odd_add, <- Nat.negb_even, (parts_ok_even _ HP). reflexivity.
Qed.

(** The result of [split_into_speakable_chunks], read off the scanner. *)
Lemma split_view buffer :
  split_into_speakable_chunks buffer = view (scan scan_init buffer).
Proof.
  unfold split_into_speakable_chunks. rewrite re_split_odd.
  assert (H : scanner_ok (scan scan_init buffer) = true) by (apply scan_ok; reflexivity).
  rewrite (view_close_run _ H). apply close_run_ok in H.
  unfold re_split, scan_end.
  unfold scanner_ok in H. apply andb_true_iff in H as [[HP _]%andb_true_iff _].
  rewrite last_snoc, chunk_loop_app by assumption. simpl. rewrite app_nil_r. reflexivity.
Qed.

(** ** What the parts and the chunks are made of *)

Lemma match_chars d c : is_match d = true -> c ∈ d -> is_delim c = true.
Proof.
  unfold is_match, is_delim. intros [[_ H]%andb_true_iff|H]%orb_true_iff Hc.
  - rewrite forallb_forall in H. rewrite H; [reflexivity|].
    apply list_elem_of_In, Hc.
  - destruct d as [|x [|? ?]]; try discriminate.
    apply list_elem_of_singleton in Hc. subst. rewrite H. apply orb_true_r.
Qed.

Lemma match_cases d :
  is_match d = true ->
  (exists d' e, d = d' ++ [e] /\ forallb is_ender d' = true /\ is_ender e = true)
  \/ (exists c, d = [c] /\ is_nl c = true).
Proof.
  unfold is_match. intros [[H1 H2]%andb_true_iff|H]%orb_true_iff.
  - left. destruct d as [|x d _] using rev_ind; [discriminate|].
    rewrite forallb_app in H2. apply andb_true_iff in H2 as [H2 H3].
    simpl in H3. rewrite andb_true_r in H3. eauto.
  - right. destruct d as [|x [|? ?]]; try discriminate. eauto.
Qed.

Lemma closed_end_match x d : is_match d = true -> closed_end (x ++ d) = true.
Proof.
  intros H. unfold closed_end. rewrite last_app.
  destruct (last d) as [c|] eqn:E.
  - apply (match_chars d); [assumption|]. apply last_Some_elem_of, E.
  - apply last_None in E. subst. discriminate.
Qed.

Lemma parts_ok_closed s parts :
  closed_end s = true -> parts_ok parts = true ->
  closed_end (s ++ concat parts) = true.
Proof.
  revert s parts. fix IH 2. intros s [|t [|d rest]] Hs; simpl;
    try discriminate.
  - rewrite app_nil_r. auto.
  - intros [[_ Hd]%andb_true_iff Hr]%andb_true_iff.
    replace (s ++ t ++ d ++ concat rest) with (((s ++ t) ++ d) ++ concat rest)
      by (rewrite <- !app_assoc; reflexivity).
    apply IH; [|assumption]. apply closed_end_match, Hd.
Qed.

Lemma elem_of_chunk_loop parts chunk :
  parts_ok parts = true -> chunk ∈ chunk_loop parts ->
  exists t d, no_delim t = true /\ is_match d = true /\ chunk ∈ emit t d.
Proof.
  revert parts. fix IH 1. intros [|t [|d rest]]; simpl; try discriminate.
  - intros _ H. inversion H.
  - intros [[Ht Hd]%andb_true_iff Hr]%andb_true_iff [H|H]%elem_of_app.
    + eauto.
    + apply (IH rest); assumption.
Qed.

Lemma no_delim_strip t : no_delim t = true -> no_delim (strip t) = true.
Proof.
  intros H. destruct (strip_split t) as [w1 [w2 [_ [_ E]]]].
  rewrite E, !no_delim_app in H.
  apply andb_true_iff in H as [_ [H _]%andb_true_iff]. exact H.
Qed.

Lemma last_visible_rstrip s c : last s = Some c -> isspace c = false -> rstrip s = s.
Proof.
  intros H Hc. destruct s as [|x s _] using rev_ind; [discriminate|].
  rewrite last_snoc in H. injection H as ->. apply rstrip_app_visible, Hc.
Qed.

(** A stripped string is not changed by stripping it again. *)
Lemma strip_strip s : strip (strip s) = strip s.
Proof.
  destruct (strip s) as [|c s'] eqn:E; [reflexivity|].
  unfold strip at 1. rewrite lstrip_fix by (eapply strip_head, E).
  destruct (last (c :: s')) as [x|] eqn:L.
  - eapply last_visible_rstrip; [exact L|]. rewrite <- E in L. eapply strip_last, L.
  - apply last_None in L. discriminate.
Qed.

Lemma strip_app_blank t w : blank w = true -> strip (t ++ w) = strip t.
Proof.
  intros Hw. unfold strip.
  destruct (lstrip_split t) as [w1 [H1 E]].
  destruct (lstrip t) as [|x l] eqn:L.
  - rewrite app_nil_r in E. subst t.
    rewrite lstrip_blank by (rewrite blank_app, H1, Hw; reflexivity). reflexivity.
  - rewrite E at 1. rewrite <- app_assoc, lstrip_app_blank by assumption.
    rewrite <- app_comm_cons, lstrip_fix by (eapply lstrip_head, L).
    rewrite app_comm_cons. apply rstrip_app_blank, Hw.
Qed.

(** What one pass of the loop appends: nothing, or one non-empty trimmed
    string that ends with a character of [[.!?]] or, when a newline ended
    it, holds no delimiter at all. *)
Lemma emit_chunk t d chunk :
  no_delim t = true -> is_match d = true -> chunk ∈ emit t d ->
  truthy chunk = true /\ strip chunk = chunk
  /\ (ends_with_ender chunk = true \/ no_delim chunk = true).
Proof.
  intros Ht Hd. unfold emit. simpl.
  destruct (truthy (strip (t ++ d))) eqn:E; [|intros H; inversion H].
  intros ->%list_elem_of_singleton. split; [assumption|]. split; [apply strip_strip|].
  destruct (match_cases d Hd) as [[d' [e [-> [Hd' He]]]]|[c [-> Hc]]].
  - left. rewrite strip_app_visible.
    + unfold ends_with_ender. rewrite !app_assoc, last_snoc. assumption.
    + apply is_ender_not_space, He.
    + intros a Ha. apply is_ender_not_space.
      rewrite forallb_forall in Hd'. apply Hd', list_elem_of_In, Ha.
  - right. rewrite strip_app_blank.
    + apply no_delim_strip, Ht.
    + simpl. rewrite (is_nl_space c Hc). reflexivity.
Qed.

(** ** Putting the chunks back *)

Lemma padded_blank_l w chunks body :
  blank w = true -> padded chunks body -> padded chunks (w ++ body).
Proof.
  intros Hw H. destruct H as [w' H'|w' c chunks body H' Hp].
  - apply padded_nil. rewrite blank_app, Hw, H'. reflexivity.
  - rewrite app_assoc. apply padded_cons; [|assumption].
    rewrite blank_app, Hw, H'. reflexivity.
Qed.

Lemma padded_app a x b y : padded a x -> padded b y -> padded (a ++ b) (x ++ y).
Proof.
  intros Ha Hb. induction Ha as [w Hw|w c chunks body Hw Hp IH]; simpl.
  - apply padded_blank_l; assumption.
  - rewrite <- !app_assoc. apply padded_cons; assumption.
Qed.

Lemma padded_emit t d : padded (emit t d) (t ++ d).
Proof.
  unfold emit. simpl. destruct (strip_split (t ++ d)) as [w1 [w2 [H1 [H2 E]]]].
  destruct (truthy (strip (t ++ d))) eqn:T.
  - rewrite E at 2. apply padded_cons; [assumption|]. apply padded_nil, H2.
  - apply padded_nil, strip_nil_blank, truthy_false, T.
Qed.

Lemma padded_chunk_loop parts :
  parts_ok parts = true -> padded (chunk_loop parts) (concat parts).
Proof.
  revert parts. fix IH 1. intros [|t [|d rest]]; simpl; try discriminate.
  - intros _. apply padded_nil. reflexivity.
  - intros [_ Hr]%andb_true_iff. rewrite app_assoc.
    apply padded_app; [apply padded_emit|apply (IH rest), Hr].
Qed.

Lemma padded_rejoin chunks body :
  padded chunks body ->
  exists pads, length pads = S (length chunks)
               /\ Forall (fun p => blank p = true) pads
               /\ rejoin pads chunks = body.
Proof.
  induction 1 as [w Hw|w c chunks body Hw Hp [pads [Hl [Hb E]]]].
  - exists [w]. simpl. rewrite app_nil_r. auto.
  - exists (w :: pads). simpl. rewrite Hl, E. auto.
Qed.

(** The scanner's parts, its text and its run are the input, in order. *)
Lemma padded_view st :
  scanner_ok st = true ->
  exists body, padded (fst (view st)) body /\ body ++ snd (view st) = consumed st.
Proof.
  unfold scanner_ok, view, consumed. destruct st as [P t [d|]]; simpl;
    intros [[HP Ht]%andb_true_iff _]%andb_true_iff.
  - exists (concat P ++ t ++ d). rewrite app_nil_r. split; [|reflexivity].
    apply padded_app; [apply padded_chunk_loop, HP|apply padded_emit].
  - exists (concat P). rewrite app_nil_r. split; [|reflexivity].
    apply padded_chunk_loop, HP.
Qed.

(** ** Claims about one call of the chunker *)

Lemma consumed_scan_init s : consumed (scan scan_init s) = s.
Proof. rewrite scan_consumed. reflexivity. Qed.

Lemma scan_init_ok s : scanner_ok (scan scan_init s) = true.
Proof. apply scan_ok. reflexivity. Qed.

Lemma scanner_ok_run P t d :
  scanner_ok (Scanner P t (Some d)) = true ->
  parts_ok P = true /\ no_delim t = true /\ is_match d = true.
Proof.
  unfold scanner_ok. cbn [parts_done cur_text cur_run].
  intros [[HP Ht]%andb_true_iff [H1 H2]%andb_true_iff]%andb_true_iff.
  auto using is_match_run.
Qed.

Lemma scanner_ok_text P t :
  scanner_ok (Scanner P t None) = true -> parts_ok P = true /\ no_delim t = true.
Proof.
  unfold scanner_ok. cbn [parts_done cur_text cur_run].
  intros [[HP Ht]%andb_true_iff _]%andb_true_iff. auto.
Qed.

(** C1: the chunks of [split_into_speakable_chunks B], put back in order with
    white space only (what [strip] removed, newline delimiters included)
    before, between and after them, and followed by the remainder, are [B]:
    no text is lost or repeated at a boundary. *)
Theorem split_rejoin_lossless (B : str) :
  let (chunks, remainder) := split_into_speakable_chunks B in
  exists pads,
    length pads = S (length chunks)
    /\ Forall (fun p => blank p = true) pads
    /\ rejoin pads chunks ++ remainder = B.
Proof.
  rewrite split_view.
  destruct (padded_view _ (scan_init_ok B)) as [body [Hp E]].
  rewrite consumed_scan_init in E.
  destruct (view (scan scan_init B)) as [chunks remainder]. simpl in *.
  destruct (padded_rejoin _ _ Hp) as [pads [Hl [Hb Hr]]].
  exists pads. rewrite Hr. auto.
Qed.

(** C10: the remainder is a suffix of the buffer, taken as it is; it holds
    no [.], [!], [?] or newline; what precedes it is empty or ends with one
    of them, and is made of the chunks and of white space only, so every
    delimiter of the buffer is in a chunk or in white space that was
    dropped. *)
Theorem remainder_verbatim_suffix (B : str) :
  let (chunks, remainder) := split_into_speakable_chunks B in
  exists pre,
    B = pre ++ remainder
    /\ no_delim remainder = true
    /\ closed_end pre = true
    /\ padded chunks pre.
Proof.
  rewrite split_view.
  pose proof (scan_init_ok B) as H. pose proof (consumed_scan_init B) as E.
  unfold view, consumed in *.
  destruct (scan scan_init B) as [P t [d|]]; cbn [parts_done cur_text cur_run] in *.
  - destruct (scanner_ok_run _ _ _ H) as [HP [Ht Hd]].
    cbn [default from_option id] in E.
    exists B. rewrite app_nil_r. repeat split.
    + rewrite <- E, app_assoc. apply closed_end_match, Hd.
    + rewrite <- E. apply padded_app; [apply padded_chunk_loop, HP|apply padded_emit].
  - destruct (scanner_ok_text _ _ H) as [HP Ht].
    cbn [default from_option id] in E. rewrite app_nil_r in E.
    exists (concat P). repeat split; auto.
    + apply (parts_ok_closed [] P); [reflexivity|assumption].
    + apply padded_chunk_loop, HP.
Qed.

Lemma view_chunks st chunk :
  scanner_ok st = true -> chunk ∈ fst (view st) ->
  exists t d, no_delim t = true /\ is_match d = true /\ chunk ∈ emit t d.
Proof.
  destruct st as [P t [d|]]; unfold view; cbn [parts_done cur_text cur_run fst].
  - intros [HP [Ht Hd]]%scanner_ok_run [H|H]%elem_of_app.
    + eapply elem_of_chunk_loop; eassumption.
    + eauto.
  - intros [HP Ht]%scanner_ok_text H. eapply elem_of_chunk_loop; eassumption.
Qed.

(** ** Resuming the scanner *)

Lemma starts_with_ender_cons c s : starts_with_ender (c :: s) = is_ender c.
Proof. reflexivity. Qed.

(** After a complete run of [[.!?]], an input that does not extend the run
    is read as if from the start. *)
Lemma view_after_run P t d s :
  parts_ok P = true -> no_delim t = true -> is_match d = true ->
  starts_with_ender s = false ->
  view (scan (Scanner P t (Some d)) s)
  = (chunk_loop P ++ emit t d ++ fst (view (scan scan_init s)),
     snd (view (scan scan_init s))).
Proof.
  intros HP Ht Hd Hs. destruct s as [|c s].
  - unfold view. simpl. rewrite app_nil_r. reflexivity.
  - rewrite starts_with_ender_cons in Hs. rewrite !scan_cons.
    assert (E : scan_char (Scanner P t (Some d)) c
                = prepend (P ++ [t; d]) (scan_char scan_init c)).
    { unfold scan_char, close_run, prepend. rewrite Hs. simpl.
      destruct (is_nl c); simpl; rewrite <- ?app_assoc; reflexivity. }
    rewrite E, scan_prepend, view_prepend.
    + rewrite chunk_loop_app by assumption. simpl.
      rewrite app_nil_r, <- app_assoc. reflexivity.
    + rewrite parts_ok_app by assumption. simpl. rewrite Ht, Hd. reflexivity.
Qed.

(** One more piece after closed parts: its text, then its delimiter. *)
Lemma view_piece P t d :
  parts_ok P = true -> no_delim t = true -> is_match d = true ->
  view (scan (Scanner P [] None) (t ++ d)) = (chunk_loop P ++ emit t d, []).
Proof.
  intros HP Ht Hd. rewrite scan_app, scan_text by assumption. simpl.
  destruct (match_cases d Hd) as [[d' [e [-> [Hd' He]]]]|[c [-> Hc]]].
  - rewrite scan_run.
    + reflexivity.
    + rewrite forallb_app, Hd'. simpl. rewrite He. reflexivity.
    + destruct d'; reflexivity.
  - rewrite scan_cons. unfold scan_char, close_run. simpl.
    rewrite (is_nl_not_ender c Hc), Hc. unfold view. simpl.
    rewrite chunk_loop_app by assumption. simpl. rewrite app_nil_r. reflexivity.
Qed.

Lemma last_no_delim t c : no_delim t = true -> last t = Some c -> is_delim c = false.
Proof.
  intros Ht Hc. apply last_Some_elem_of in Hc.
  unfold no_delim in Ht. rewrite forallb_forall in Ht.
  apply negb_true_iff, Ht, list_elem_of_In, Hc.
Qed.

(** A scanner that has read a text ending with a delimiter holds no pending
    text, and it is inside a run exactly when that text ends with a
    character of [[.!?]]. *)
Lemma closed_end_text P t :
  scanner_ok (Scanner P t None) = true ->
  closed_end (consumed (Scanner P t None)) = true -> t = [].
Proof.
  intros [HP Ht]%scanner_ok_text. unfold consumed, closed_end. simpl.
  rewrite app_nil_r, last_app.
  destruct (last t) as [c|] eqn:E.
  - rewrite (last_no_delim t c Ht E). discriminate.
  - intros _. apply last_None, E.
Qed.

Lemma run_ends_with_ender P t d :
  scanner_ok (Scanner P t (Some d)) = true ->
  ends_with_ender (consumed (Scanner P t (Some d))) = true.
Proof.
  unfold scanner_ok, consumed, ends_with_ender. cbn [parts_done cur_text cur_run default].
  intros [_ [H1 H2]%andb_true_iff]%andb_true_iff.
  rewrite !app_assoc, last_app. unfold id.
  destruct (last d) as [c|] eqn:E.
  - rewrite forallb_forall in H2. apply H2, list_elem_of_In, last_Some_elem_of, E.
  - apply last_None in E. subst. discriminate.
Qed.

Lemma starts_with_ender_app_text t d :
  no_delim t = true -> t <> [] -> starts_with_ender (t ++ d) = false.
Proof.
  destruct t as [|c t]; [congruence|]. simpl.
  intros [Hc _]%andb_true_iff _. apply negb_true_iff, is_delim_false in Hc. tauto.
Qed.

(** Appending one piece to a buffer that ends with a delimiter appends what
    the loop emits for that piece. *)
Lemma split_app_piece head t d :
  closed_end head = true -> no_delim t = true -> is_match d = true ->
  ends_with_ender (head ++ t) && starts_with_ender d = false ->
  split_into_speakable_chunks (head ++ t ++ d)
  = (fst (split_into_speakable_chunks head) ++ emit t d, []).
Proof.
  intros Hh Ht Hd Hmax. rewrite !split_view, scan_app.
  pose proof (scan_init_ok head) as Hok. pose proof (consumed_scan_init head) as E.
  destruct (scan scan_init head) as [P t0 [d0|]].
  - destruct (scanner_ok_run _ _ _ Hok) as [HP [Ht0 Hd0]].
    rewrite view_after_run; try assumption.
    + unfold scan_init. rewrite (view_piece [] t d) by (reflexivity || assumption).
      unfold view. simpl. rewrite <- app_assoc. reflexivity.
    + destruct t as [|c t'].
      * simpl. rewrite app_nil_r in Hmax.
        rewrite <- E, (run_ends_with_ender _ _ _ Hok) in Hmax. exact Hmax.
      * apply starts_with_ender_app_text; [assumption|discriminate].
  - rewrite <- E in Hh. pose proof (closed_end_text _ _ Hok Hh) as ->.
    destruct (scanner_ok_text _ _ Hok) as [HP _].
    rewrite view_piece by assumption. reflexivity.
Qed.

(** The longest suffix whose characters all satisfy [p]. *)
Lemma longest_suffix (p : char -> bool) (s : str) :
  exists a b, s = a ++ b /\ forallb p b = true
              /\ match last a with Some c => p c = false | None => True end.
Proof.
  induction s as [|x s IH] using rev_ind.
  - exists [], []. simpl. auto.
  - destruct (p x) eqn:Hx.
    + destruct IH as [a [b [-> [Hb Ha]]]]. exists a, (b ++ [x]).
      rewrite forallb_app, Hb, app_assoc. simpl. rewrite Hx. auto.
    + exists (s ++ [x]), []. rewrite app_nil_r, last_snoc. auto.
Qed.

(** Every non-empty buffer that ends with a delimiter ends with one piece:
    a text without delimiter and the last match of [SENT_END_RE]. *)
Lemma last_piece B :
  B <> [] -> closed_end B = true ->
  exists head t d,
    B = head ++ t ++ d
    /\ closed_end head = true /\ no_delim t = true /\ is_match d = true
    /\ ends_with_ender (head ++ t) && starts_with_ender d = false.
Proof.
  intros Hne Hc.
  destruct B as [|x B' _] using rev_ind; [congruence|].
  unfold closed_end in Hc. rewrite last_snoc in Hc.
  assert (Hpre : forall a, exists head t,
             a = head ++ t /\ closed_end head = true /\ no_delim t = true).
  { intros a.
    destruct (longest_suffix (fun c => negb (is_delim c)) a) as [h [t [-> [Ht Hh]]]].
    exists h, t. repeat split; [|exact Ht].
    unfold closed_end. destruct (last h); [|reflexivity].
    apply negb_false_iff, Hh. }
  destruct (is_ender x) eqn:Hx.
  - destruct (longest_suffix is_ender (B' ++ [x])) as [a [d [E [Hd Ha]]]].
    destruct (Hpre a) as [head [t [-> [Hh Ht]]]].
    exists head, t, d. rewrite E, <- app_assoc. repeat split; try assumption.
    + apply is_match_run; [|assumption].
      destruct d; [|reflexivity]. rewrite app_nil_r in E. rewrite <- E, last_snoc in Ha.
      congruence.
    + unfold ends_with_ender. destruct (last (head ++ t)); [|reflexivity].
      rewrite Ha. reflexivity.
  - destruct (Hpre B') as [head [t [-> [Hh Ht]]]].
    exists head, t, [x]. rewrite <- app_assoc. repeat split; try assumption.
    + apply is_match_nl. unfold is_delim in Hc. rewrite Hx in Hc. exact Hc.
    + simpl. rewrite Hx. apply andb_false_r.
Qed.

(** C4, as the code has it: the empty buffer and a buffer without delimiter
    give no chunk and come back unchanged; a non-empty buffer that ends with
    a delimiter leaves no remainder, and its last piece (the text after the
    previous delimiter with the closing match) is appended, trimmed, as the
    last chunk unless it is all white space, in which case nothing is
    appended for it; and [split("Hello. World")] is [(["Hello."], " World")]. *)
Theorem split_boundary_cases (B : str) :
  split_into_speakable_chunks [] = ([], [])
  /\ (no_delim B = true -> split_into_speakable_chunks B = ([], B))
  /\ (B <> [] -> closed_end B = true ->
      snd (split_into_speakable_chunks B) = []
      /\ exists head t d,
           B = head ++ t ++ d
           /\ closed_end head = true /\ no_delim t = true /\ is_match d = true
           /\ ends_with_ender (head ++ t) && starts_with_ender d = false
           /\ fst (split_into_speakable_chunks B)
              = fst (split_into_speakable_chunks head)
                ++ (if truthy (strip (t ++ d)) then [strip (t ++ d)] else []))
  /\ split_into_speakable_chunks (py "Hello. World") = ([py "Hello."], py " World").
Proof.
  split; [reflexivity|]. split; [|split; [|reflexivity]].
  - intros H. rewrite split_view. unfold scan_init. rewrite scan_text by assumption.
    reflexivity.
  - intros Hne Hc.
    destruct (last_piece B Hne Hc) as [head [t [d [E [Hh [Ht [Hd Hm]]]]]]].
    pose proof (split_app_piece head t d Hh Ht Hd Hm) as Hs. rewrite <- E in Hs.
    rewrite Hs. split; [reflexivity|].
    exists head, t, d. repeat split; assumption.
Qed.

Lemma split_boundary_cases_witness :
  let B := py "Hello. World!" in
  (B <> [] /\ closed_end B = true)
  /\ snd (split_into_speakable_chunks B) = []
  /\ no_delim (py "Hello world") = true
  /\ split_into_speakable_chunks (py "Hello world") = ([], py "Hello world").
Proof.
  split; [split; [discriminate|reflexivity]|].
  split.
  - destruct (split_boundary_cases (py "Hello. World!")) as [_ [_ [H _]]].
    apply H; [discriminate|reflexivity].
  - split; [reflexivity|].
    destruct (split_boundary_cases (py "Hello world")) as [_ [H _]].
    apply H. reflexivity.
Defined.

(** C4 as stated fails on its third case: the buffer that is one newline
    ends on a delimiter, and no chunk is emitted for its last piece. *)
Lemma lone_newline_emits_nothing :
  closed_end [10] = true
  /\ split_into_speakable_chunks [10] = ([], [])
  /\ ~ (exists chunk, last (fst (split_into_speakable_chunks [10])) = Some chunk).
Proof.
  split; [reflexivity|]. split; [reflexivity|].
  intros [chunk H]. discriminate.
Qed.

(** ** Feeding the chunker token by token *)

Lemma emit_run t d :
  truthy d = true -> forallb is_ender d = true -> emit t d = [lstrip t ++ d].
Proof.
  intros H1 H2. unfold emit. simpl.
  destruct d as [|e d _] using rev_ind; [discriminate|].
  rewrite forallb_app in H2. apply andb_true_iff in H2 as [H2 H3].
  simpl in H3. rewrite andb_true_r in H3.
  rewrite strip_app_visible.
  - destruct (lstrip t ++ d ++ [e]) eqn:E; [|reflexivity].
    apply app_eq_nil in E as [_ E]. apply app_eq_nil in E as [_ E]. discriminate.
  - apply is_ender_not_space, H3.
  - intros a Ha. apply is_ender_not_space.
    rewrite forallb_forall in H2. apply H2, list_elem_of_In, Ha.
Qed.

Lemma scan_char_ender P t r c :
  is_ender c = true ->
  scan_char (Scanner P t r) c = Scanner P t (Some (default [] r ++ [c])).
Proof. intros H. unfold scan_char. rewrite H. reflexivity. Qed.

(** After a complete run, any input gives the same text as from the start:
    a run continued by the input is one chunk instead of two. *)
Lemma view_after_run_text s : forall P t d,
  parts_ok P = true -> no_delim t = true ->
  truthy d = true -> forallb is_ender d = true ->
  concat (fst (view (scan (Scanner P t (Some d)) s)))
  = concat (chunk_loop P ++ emit t d ++ fst (view (scan scan_init s)))
  /\ snd (view (scan (Scanner P t (Some d)) s)) = snd (view (scan scan_init s)).
Proof.
  induction s as [|c s IH]; intros P t d HP Ht Hd1 Hd2.
  - rewrite view_after_run by (auto using is_match_run). auto.
  - destruct (is_ender c) eqn:Hc.
    + rewrite !scan_cons. unfold scan_init.
      rewrite !scan_char_ender by assumption. cbn [default from_option id app].
      assert (Hd3 : forallb is_ender (d ++ [c]) = true).
      { rewrite forallb_app, Hd2. simpl. rewrite Hc. reflexivity. }
      assert (Hd4 : truthy (d ++ [c]) = true) by (destruct d; reflexivity).
      destruct (IH P t (d ++ [c]) HP Ht Hd4 Hd3) as [E1 E2].
      destruct (IH [] [] [c]) as [E3 E4]; try reflexivity.
      { simpl. rewrite Hc. reflexivity. }
      split; [|exact (eq_trans E2 (eq_sym E4))].
      etransitivity; [exact E1|]. rewrite !concat_app. f_equal.
      transitivity (concat (emit t d)
                    ++ concat (chunk_loop [] ++ emit [] [c] ++ fst (view (scan scan_init s))));
        [|f_equal; symmetry; exact E3].
      rewrite !concat_app.
      rewrite !emit_run by (assumption || reflexivity || (simpl; rewrite Hc; reflexivity)).
      simpl. rewrite !app_nil_r, <- !app_assoc. reflexivity.
    + rewrite view_after_run by (auto using is_match_run). auto.
Qed.

Lemma scan_init_text b :
  no_delim b = true -> scan scan_init b = Scanner [] b None.
Proof. intros H. unfold scan_init. rewrite scan_text by assumption. reflexivity. Qed.

(** One token of the loop of [main]: the scanner resumes from the remainder. *)
Lemma on_event_scan st t :
  no_delim (buffer st) = true ->
  buffer (on_event st (Some t)) = snd (view (scan (Scanner [] (buffer st) None) t))
  /\ spoken (on_event st (Some t))
     = spoken st ++ fst (view (scan (Scanner [] (buffer st) None) t)).
Proof.
  intros Hb. unfold on_event. destruct t as [|c t].
  - simpl. rewrite app_nil_r. auto.
  - cbn [truthy]. rewrite split_view, scan_app, scan_init_text by assumption.
    destruct (view (scan (Scanner [] (buffer st) None) (c :: t))). auto.
Qed.

Lemma view_ok_remainder st : scanner_ok st = true -> no_delim (snd (view st)) = true.
Proof.
  destruct st as [P t [d|]]; unfold view; cbn [cur_run cur_text snd]; [reflexivity|].
  intros [_ Ht]%scanner_ok_text. exact Ht.
Qed.

Lemma text_scanner_ok b : no_delim b = true -> scanner_ok (Scanner [] b None) = true.
Proof. intros H. unfold scanner_ok. simpl. rewrite H. reflexivity. Qed.

Lemma ends_with_ender_app pre t :
  t <> [] -> ends_with_ender (pre ++ t) = ends_with_ender t.
Proof.
  intros H. unfold ends_with_ender. rewrite last_app.
  destruct (last t) eqn:E; [reflexivity|]. apply last_None in E. congruence.
Qed.

Lemma runs_kept_head pre tokens :
  runs_kept pre tokens = true -> ends_with_ender pre = true ->
  starts_with_ender (concat tokens) = false.
Proof.
  destruct tokens as [|t tokens]; [reflexivity|].
  cbn [runs_kept]. intros [H _]%andb_true_iff Hp. rewrite Hp in H.
  apply negb_true_iff in H. exact H.
Qed.

Lemma scan_from_parts P t r s :
  scan (Scanner P t r) s = prepend P (scan (Scanner [] t r) s).
Proof. rewrite <- scan_prepend. unfold prepend. simpl. rewrite app_nil_r. reflexivity. Qed.

(** Resuming from the remainder, as the caller does, against scanning on:
    the remainder and the text of the chunks agree; the chunks agree unless
    the scanner stopped inside a run that the input continues. *)
Lemma resume_view st rest :
  scanner_ok st = true ->
  let v1 := view st in
  let v' := view (scan (Scanner [] (snd v1) None) rest) in
  snd (view (scan st rest)) = snd v'
  /\ concat (fst (view (scan st rest))) = concat (fst v1 ++ fst v')
  /\ ((cur_run st <> None -> starts_with_ender rest = false) ->
      fst (view (scan st rest)) = fst v1 ++ fst v').
Proof.
  intros Hok. destruct st as [P t [d|]]; cbv zeta.
  - change (view (Scanner P t (Some d))) with (chunk_loop P ++ emit t d, @nil char).
    cbn [fst snd].
    destruct (scanner_ok_run _ _ _ Hok) as [HP [Ht Hd]].
    unfold scanner_ok in Hok. cbn [cur_run parts_done cur_text] in Hok.
    apply andb_true_iff in Hok as [_ [Hd1 Hd2]%andb_true_iff].
    destruct (view_after_run_text rest P t d HP Ht Hd1 Hd2) as [E1 E2].
    fold scan_init. split; [exact E2|]. split.
    + rewrite E1, <- app_assoc. reflexivity.
    + intros Hs. rewrite view_after_run; try assumption.
      * cbn [fst]. rewrite <- app_assoc. reflexivity.
      * apply Hs. discriminate.
  - change (view (Scanner P t None)) with (chunk_loop P, t). cbn [fst snd].
    destruct (scanner_ok_text _ _ Hok) as [HP Ht].
    rewrite scan_from_parts, view_prepend by assumption. cbn [fst snd]. auto.
Qed.

(** The loop of [main] against one scan of everything received. *)
Lemma stream_loop_scan tokens : forall st pre,
  no_delim (buffer st) = true ->
  let st' := stream_loop st (map Some tokens) in
  let v := view (scan (Scanner [] (buffer st) None) (concat tokens)) in
  buffer st' = snd v
  /\ exists cs, spoken st' = spoken st ++ cs
                /\ concat cs = concat (fst v)
                /\ (runs_kept pre tokens = true -> cs = fst v).
Proof.
  induction tokens as [|t tokens IH]; intros st pre Hb; cbn zeta.
  - simpl. split; [reflexivity|]. exists []. rewrite app_nil_r. auto.
  - cbn [map concat]. unfold stream_loop. cbn [fold_left].
    fold (stream_loop (on_event st (Some t)) (map Some tokens)).
    destruct (on_event_scan st t Hb) as [Eb Es].
    rewrite scan_app.
    pose proof (scan_ok _ t (text_scanner_ok _ Hb)) as Hok.
    pose proof (scan_consumed (Scanner [] (buffer st) None) t) as Hcons.
    assert (Hb1 : no_delim (buffer (on_event st (Some t))) = true).
    { rewrite Eb. apply view_ok_remainder, Hok. }
    destruct (IH (on_event st (Some t)) (pre ++ t) Hb1) as [Er [cs [Hs [Hc Hk]]]].
    rewrite Er, Hs, Es. rewrite Eb in *. clear Er Hs Es Eb Hb1.
    destruct (resume_view _ (concat tokens) Hok) as [R1 [R2 R3]].
    split; [symmetry; exact R1|].
    exists (fst (view (scan (Scanner [] (buffer st) None) t)) ++ cs).
    split; [rewrite app_assoc; reflexivity|]. split.
    + rewrite R2, !concat_app, Hc. reflexivity.
    + cbn [runs_kept]. intros [_ Hrk]%andb_true_iff.
      rewrite R3, (Hk Hrk); [reflexivity|].
      intros Hrun. apply (runs_kept_head _ _ Hrk).
      assert (Hne : t <> []).
      { intros ->. apply Hrun. reflexivity. }
      rewrite ends_with_ender_app by assumption.
      destruct (scan (Scanner [] (buffer st) None) t) as [P1 t1 [d|]];
        [|exfalso; apply Hrun; reflexivity].
      pose proof (run_ends_with_ender _ _ _ Hok) as He.
      rewrite Hcons in He. rewrite ends_with_ender_app in He by assumption. exact He.
Qed.

(** C2, as the code has it: fed token by token, the loop of [main] ends with
    the remainder of one call on the whole text, and the chunks it put on
    the queue, read one after the other, are the text of the chunks of that
    one call; they are the same chunks when no token boundary falls inside a
    run of [.], [!] and [?] (a run cut by a boundary is spoken as two
    chunks). *)
Theorem incremental_vs_batch (tokens : list str) :
  let st := stream_loop (TurnState [] [] [] []) (map Some tokens) in
  let (chunks, remainder) := split_into_speakable_chunks (concat tokens) in
  buffer st = remainder
  /\ concat (spoken st) = concat chunks
  /\ (runs_kept [] tokens = true -> spoken st = chunks).
Proof.
  rewrite split_view.
  destruct (stream_loop_scan tokens (TurnState [] [] [] []) [] eq_refl)
    as [Hr [cs [Hs [Hc Hk]]]].
  cbn [buffer spoken app] in *. fold scan_init in Hr, Hc, Hk.
  destruct (view (scan scan_init (concat tokens))) as [chunks remainder].
  cbn [fst snd] in *. rewrite Hs. auto.
Qed.

Lemma incremental_vs_batch_witness :
  let tokens := [py "Hel"; py "lo. Wo"; py "rld!"; py " Bye"] in
  runs_kept [] tokens = true
  /\ spoken (stream_loop (TurnState [] [] [] []) (map Some tokens))
     = fst (split_into_speakable_chunks (concat tokens)).
Proof.
  split; [reflexivity|].
  pose proof (incremental_vs_batch [py "Hel"; py "lo. Wo"; py "rld!"; py " Bye"]) as H.
  cbv zeta in H.
  destruct (split_into_speakable_chunks
              (concat [py "Hel"; py "lo. Wo"; py "rld!"; py " Bye"])) as [chunks remainder].
  destruct H as [_ [_ H]]. apply H. reflexivity.
Defined.

(** C2 as stated fails: when [a.] and [.] arrive as two tokens, two chunks
    are put on the queue, and one call on [a..] gives one. *)
Lemma run_cut_by_token_boundary :
  let tokens := [py "a."; py "."] in
  spoken (stream_loop (TurnState [] [] [] []) (map Some tokens)) = [py "a."; py "."]
  /\ split_into_speakable_chunks (concat tokens) = ([py "a.."], [])
  /\ spoken (stream_loop (TurnState [] [] [] []) (map Some tokens))
       ++ [buffer (stream_loop (TurnState [] [] [] []) (map Some tokens))]
     <> fst (split_into_speakable_chunks (concat tokens))
        ++ [snd (split_into_speakable_chunks (concat tokens))].
Proof.
  split; [reflexivity|]. split; [reflexivity|]. discriminate.
Qed.

(** ** The scanner computes what [re.split] is specified to return *)

Lemma scan_end_prepend D st : scan_end (prepend D st) = D ++ scan_end st.
Proof.
  unfold scan_end, close_run, prepend. destruct st as [P t [d|]]; simpl;
    rewrite <- ?app_assoc; reflexivity.
Qed.

Lemma re_split_text t : no_delim t = true -> re_split t = [t].
Proof. intros H. unfold re_split. rewrite scan_init_text by assumption. reflexivity. Qed.

Lemma scan_end_after_run t d rest :
  starts_with_ender rest = false ->
  scan_end (scan (Scanner [] t (Some d)) rest) = t :: d :: re_split rest.
Proof.
  intros Hs. destruct rest as [|c rest]; [reflexivity|].
  rewrite starts_with_ender_cons in Hs. unfold re_split. rewrite !scan_cons.
  assert (E : scan_char (Scanner [] t (Some d)) c
              = prepend [t; d] (scan_char scan_init c)).
  { unfold scan_char, close_run, prepend. rewrite Hs. simpl.
    destruct (is_nl c); reflexivity. }
  rewrite E, scan_prepend, scan_end_prepend. reflexivity.
Qed.

Lemma re_split_match t d rest :
  no_delim t = true -> is_match d = true ->
  starts_with_ender d && starts_with_ender rest = false ->
  re_split (t ++ d ++ rest) = t :: d :: re_split rest.
Proof.
  intros Ht Hd Hg. unfold re_split at 1.
  rewrite scan_app, scan_init_text, scan_app by assumption.
  destruct (match_cases d Hd) as [[d' [e [-> [Hd' He]]]]|[c [-> Hc]]].
  - rewrite scan_run.
    + apply scan_end_after_run.
      destruct d' as [|x d']; simpl in Hg, Hd'.
      * rewrite He in Hg. exact Hg.
      * apply andb_true_iff in Hd' as [Hx _]. rewrite Hx in Hg. exact Hg.
    + rewrite forallb_app, Hd'. simpl. rewrite He. reflexivity.
    + destruct d'; reflexivity.
  - rewrite scan_cons.
    assert (E : scan_char (Scanner [] t None) c = prepend [t; [c]] scan_init).
    { unfold scan_char, close_run, prepend. simpl.
      rewrite (is_nl_not_ender c Hc), Hc. reflexivity. }
    rewrite E, !scan_prepend, scan_end_prepend. reflexivity.
Qed.

(** Whatever satisfies the specification is what the scanner returns. *)
Theorem splits_re_split s parts : splits s parts -> re_split s = parts.
Proof.
  induction 1 as [t Ht|t d rest parts Ht Hd Hg _ IH].
  - apply re_split_text, Ht.
  - rewrite re_split_match by assumption. rewrite IH. reflexivity.
Qed.

(** The longest prefix whose characters all satisfy [p]. *)
Lemma longest_prefix (p : char -> bool) (s : str) :
  exists a b, s = a ++ b /\ forallb p a = true
              /\ match b with c :: _ => p c = false | [] => True end.
Proof.
  induction s as [|x s [a [b [-> [Ha Hb]]]]].
  - exists [], []. simpl. auto.
  - destruct (p x) eqn:Hx.
    + exists (x :: a), b. simpl. rewrite Hx, Ha. auto.
    + exists [], (x :: a ++ b). simpl. auto.
Qed.

(** Every string has a split that satisfies the specification. *)
Lemma splits_exists s : exists parts, splits s parts.
Proof.
  remember (length s) as n eqn:Hn. revert s Hn.
  induction n as [n IH] using lt_wf_ind. intros s ->.
  destruct (longest_prefix (fun c => negb (is_delim c)) s) as [t [s' [-> [Ht Hs']]]].
  destruct s' as [|c s'].
  - rewrite app_nil_r. exists [t]. apply splits_last, Ht.
  - apply negb_false_iff in Hs'. destruct (is_ender c) eqn:He.
    + destruct (longest_prefix is_ender s') as [d [rest [-> [Hd Hrest]]]].
      destruct (IH (length rest)) with (s := rest) as [parts Hp]; [|reflexivity|].
      { rewrite !length_app. simpl. rewrite length_app. lia. }
      exists (t :: (c :: d) :: parts).
      apply (splits_match t (c :: d) rest parts); try assumption.
      * apply is_match_run; [reflexivity|]. simpl. rewrite He, Hd. reflexivity.
      * simpl. rewrite He. simpl. destruct rest; [reflexivity|exact Hrest].
    + destruct (IH (length s')) with (s := s') as [parts Hp]; [|reflexivity|].
      { rewrite length_app. simpl. lia. }
      exists (t :: [c] :: parts).
      apply (splits_match t [c] s' parts); try assumption.
      * apply is_match_nl. unfold is_delim in Hs'. rewrite He in Hs'. exact Hs'.
      * simpl. rewrite He. reflexivity.
Qed.

(** [re_split] is the split of the specification, and the only one. *)
Theorem re_split_splits s : splits s (re_split s).
Proof.
  destruct (splits_exists s) as [parts H].
  rewrite (splits_re_split s parts H). exact H.
Qed.

Corollary splits_unique s p q : splits s p -> splits s q -> p = q.
Proof. intros Hp Hq. rewrite <- (splits_re_split s p Hp). apply splits_re_split, Hq. Qed.


(** ** Where a chunk stands in the buffer *)

(** Every chunk comes from one text and the match that ended it: the text
    starts where the buffer starts or right after a delimiter, and a run
    of [[.!?]] is taken whole. *)
Lemma splits_chunk s parts chunk :
  splits s parts -> chunk ∈ chunk_loop parts ->
  exists pre t d post,
    s = pre ++ t ++ d ++ post
    /\ closed_end pre = true /\ no_delim t = true /\ is_match d = true
    /\ starts_with_ender d && starts_with_ender post = false
    /\ chunk ∈ emit t d.
Proof.
  induction 1 as [t Ht|t d rest parts Ht Hd Hg _ IH]; cbn [chunk_loop].
  - intros H. inversion H.
  - intros [H|H]%elem_of_app.
    + exists [], t, d, rest. repeat split; auto.
    + destruct (IH H) as [pre [t' [d' [post [-> [Hp [Ht' [Hd' [Hg' Hc]]]]]]]]].
      exists (t ++ d ++ pre), t', d', post.
      split; [rewrite <- !app_assoc; reflexivity|]. split; [|repeat split; auto].
      rewrite app_assoc. unfold closed_end. rewrite last_app.
      unfold closed_end in Hp. destruct (last pre) as [c|]; [exact Hp|].
      apply (closed_end_match t d Hd).
Qed.

(** What one pass of the loop keeps of its text and its match: a run of
    [[.!?]] stays at the end of the chunk, with the text before it trimmed
    on the left; a newline is trimmed away with the white space around the
    text. *)
Lemma emit_position t d chunk :
  no_delim t = true -> is_match d = true -> chunk ∈ emit t d ->
  exists w, blank w = true
    /\ ((exists body, chunk = body ++ d /\ no_delim body = true
                      /\ truthy d = true /\ forallb is_ender d = true
                      /\ t = w ++ body)
        \/ (exists w', blank w' = true /\ d = [10] /\ t = w ++ chunk ++ w'
                       /\ no_delim chunk = true)).
Proof.
  intros Ht Hd. unfold emit. simpl.
  destruct (truthy (strip (t ++ d))) eqn:E; [|intros H; inversion H].
  intros ->%list_elem_of_singleton.
  destruct (match_cases d Hd) as [[d' [e [-> [Hd' He]]]]|[c [-> Hc]]].
  - destruct (lstrip_split t) as [w [Hw Et]]. exists w. split; [exact Hw|]. left.
    exists (lstrip t). rewrite strip_app_visible.
    + split; [reflexivity|]. split.
      * rewrite Et, no_delim_app in Ht. apply andb_true_iff in Ht as [_ Ht]. exact Ht.
      * split; [destruct d'; reflexivity|]. split; [|exact Et].
        rewrite forallb_app, Hd'. cbn. rewrite He. reflexivity.
    + apply is_ender_not_space, He.
    + intros a Ha. apply is_ender_not_space.
      rewrite forallb_forall in Hd'. apply Hd', list_elem_of_In, Ha.
  - assert (Hb : blank [c] = true) by (cbn; rewrite (is_nl_space c Hc); reflexivity).
    rewrite strip_app_blank by exact Hb.
    destruct (strip_split t) as [w1 [w2 [H1 [H2 Et]]]].
    exists w1. split; [exact H1|]. right. exists w2. split; [exact H2|].
    split; [|split; [exact Et|apply no_delim_strip, Ht]].
    unfold is_nl in Hc. apply N.eqb_eq in Hc. subst c. reflexivity.
Qed.

(** C3, as the code has it: every chunk is non-empty and trimmed, and it
    either ends with [.], [!] or [?], or it was cut at a newline, which the
    trim removed, and then holds no [.], [!], [?] or newline at all.  The
    chunk stands in the buffer where the code cut it: it starts, after
    white space only, at the start of the buffer or right after a
    delimiter.  A chunk of the first kind is a text without delimiter and
    the whole run of [[.!?]] that follows it in the buffer; a chunk of the
    second kind is followed in the buffer by white space only and then the
    newline at which it was cut. *)
Theorem chunk_ends_at_boundary (B : str) (i : nat) (chunk : str) :
  fst (split_into_speakable_chunks B) !! i = Some chunk ->
  truthy chunk = true
  /\ strip chunk = chunk
  /\ (ends_with_ender chunk = true \/ no_delim chunk = true)
  /\ exists pre w post,
       closed_end pre = true /\ blank w = true
       /\ ((exists body run,
              chunk = body ++ run /\ no_delim body = true
              /\ truthy run = true /\ forallb is_ender run = true
              /\ B = pre ++ w ++ chunk ++ post
              /\ starts_with_ender post = false)
           \/ (exists w',
                 blank w' = true /\ no_delim chunk = true
                 /\ B = pre ++ w ++ chunk ++ w' ++ [10] ++ post)).
Proof.
  intros H%list_elem_of_lookup_2. cbn [split_into_speakable_chunks fst] in H.
  destruct (splits_chunk B _ chunk (re_split_splits B) H)
    as [pre [t [d [post [E [Hp [Ht [Hd [Hg Hc]]]]]]]]].
  destruct (emit_chunk t d chunk Ht Hd Hc) as [H1 [H2 H3]].
  split; [exact H1|]. split; [exact H2|]. split; [exact H3|].
  destruct (emit_position t d chunk Ht Hd Hc)
    as [w [Hw [[body [Eb [Hb [Hr [He Et]]]]]|[w' [Hw' [Ed [Et Hn]]]]]]].
  - exists pre, w, post. split; [exact Hp|]. split; [exact Hw|]. left.
    exists body, d. split; [exact Eb|]. split; [exact Hb|].
    split; [exact Hr|]. split; [exact He|]. split.
    + rewrite E, Et, Eb, <- !app_assoc. reflexivity.
    + destruct d as [|c d']; [discriminate Hr|].
      cbn in He. apply andb_true_iff in He as [Hc' _].
      cbn [starts_with_ender] in Hg. rewrite Hc' in Hg. exact Hg.
  - exists pre, w, post. split; [exact Hp|]. split; [exact Hw|]. right.
    exists w'. split; [exact Hw'|]. split; [exact Hn|].
    rewrite E, Et, Ed, <- !app_assoc. reflexivity.
Qed.

Lemma chunk_ends_at_boundary_witness :
  let B := py "Hi!" ++ [10] ++ py "So" ++ [10] in
  fst (split_into_speakable_chunks B) !! 1%nat = Some (py "So")
  /\ (truthy (py "So") = true
      /\ strip (py "So") = py "So"
      /\ (ends_with_ender (py "So") = true \/ no_delim (py "So") = true)).
Proof.
  split; [reflexivity|].
  destruct (chunk_ends_at_boundary (py "Hi!" ++ [10] ++ py "So" ++ [10]) 1 (py "So"))
    as [H1 [H2 [H3 _]]]; [reflexivity|].
  auto.
Defined.

(** C3 as stated fails: the line [Hello] of [Hello\nWorld] is emitted
    without its newline, so its last character is [o]. *)
Lemma chunk_newline_trimmed :
  let B := py "Hello" ++ [10] ++ py "World" in
  fst (split_into_speakable_chunks B) = [py "Hello"]
  /\ ~ (forall chunk, chunk ∈ fst (split_into_speakable_chunks B) ->
        exists c, last chunk = Some c /\ is_delim c = true).
Proof.
  split; [reflexivity|].
  intros H. destruct (H (py "Hello")) as [c [Hc Hd]].
  - left.
  - injection Hc as <-. discriminate.
Qed.
(** ** The pipeline: queues and workers *)

Section PipelineProps.

Context {audio : Type}.

Implicit Types (s : @sys audio) (h evs : list (@event audio)) (a : @action audio).

Lemma puts_app h evs : puts (h ++ evs) = puts h ++ puts evs.
Proof. apply flat_map_app. Qed.

Lemma synths_app h evs : synths (h ++ evs) = synths h ++ synths evs.
Proof. apply flat_map_app. Qed.

Lemma prints_app h evs : prints (h ++ evs) = prints h ++ prints evs.
Proof. apply flat_map_app. Qed.

Lemma play_events_app h evs : play_events (h ++ evs) = play_events h ++ play_events evs.
Proof. apply flat_map_app. Qed.

Lemma starts_app h evs : starts (h ++ evs) = starts h ++ starts evs.
Proof. apply flat_map_app. Qed.

Lemma oks_app (l l' : list (str * (error + audio))) : oks (l ++ l') = oks l ++ oks l'.
Proof. apply flat_map_app. Qed.

Lemma errs_app (l l' : list (str * (error + audio))) : errs (l ++ l') = errs l ++ errs l'.
Proof. apply flat_map_app. Qed.

Lemma inv_init : inv (@sys_init audio) [].
Proof. split; reflexivity. Qed.

Ltac observe :=
  rewrite ?puts_app, ?synths_app, ?prints_app, ?play_events_app, ?starts_app,
    ?oks_app, ?errs_app, ?map_app;
  cbn [puts synths prints play_events starts oks errs flat_map app map fst snd
       forwarded in_flight received tts_at player_at tts_q audio_q] in *;
  rewrite ?app_nil_r in *.

(** Every move keeps the state and the history tied. *)
Lemma step_inv s a s' evs h :
  inv s h -> step s a = Some (s', evs) -> inv s' (h ++ evs).
Proof.
  intros [I1 I2 I3 I4] Hstep.
  destruct s as [tq aq tpc ppc]. cbn [tts_at player_at tts_q audio_q] in *.
  destruct a as [item| | |out| |]; cbn [step tts_at player_at tts_q audio_q] in Hstep.
  - injection Hstep as <- <-. split; observe; try assumption.
    rewrite I1, <- !app_assoc. reflexivity.
  - destruct tpc; try discriminate. destruct tq as [|text q]; try discriminate.
    injection Hstep as <- <-. split; observe; assumption.
  - destruct tpc as [|[text|]|]; try discriminate.
    injection Hstep as <- <-. split; observe; try assumption.
    rewrite I2, <- !app_assoc. reflexivity.
  - destruct tpc as [|[text|]|]; try discriminate.
    destruct out as [e|au]; injection Hstep as <- <-; split; observe; try assumption.
    + rewrite I1, <- !app_assoc. reflexivity.
    + rewrite I3. reflexivity.
    + rewrite I1, <- !app_assoc. reflexivity.
    + rewrite I2, <- !app_assoc. reflexivity.
  - destruct ppc; try discriminate. destruct aq as [|[au|] q]; try discriminate;
      injection Hstep as <- <-; split; observe; try assumption.
    + rewrite I2, <- !app_assoc. reflexivity.
    + exists (starts h). rewrite I4. auto.
  - destruct ppc as [|au|]; try discriminate. injection Hstep as <- <-.
    split; observe; try assumption.
    destruct I4 as [done [E1 E2]]. rewrite E2, E1, flat_map_app. cbn [flat_map played app].
    rewrite <- !app_assoc. reflexivity.
Qed.

Lemma run_inv acts : forall s h s' evs,
  inv s h -> run s acts = Some (s', evs) -> inv s' (h ++ evs).
Proof.
  induction acts as [|a acts IH]; intros s h s' evs Hinv Hrun; cbn [run] in Hrun.
  - injection Hrun as <- <-. rewrite app_nil_r. assumption.
  - destruct (step s a) as [[s1 ev1]|] eqn:E1; [|discriminate].
    destruct (run s1 acts) as [[s2 ev2]|] eqn:E2; [|discriminate].
    injection Hrun as <- <-. rewrite app_assoc.
    eapply IH; [|exact E2]. eapply step_inv; eassumption.
Qed.

(** What holds after every schedule from the start. *)
Lemma reachable_inv acts s h : run sys_init acts = Some (s, h) -> inv s h.
Proof. intros H. apply (run_inv acts sys_init [] s h inv_init H). Qed.

Lemma run_snoc acts a : forall s s1 h1 s2 evs,
  run s acts = Some (s1, h1) -> step s1 a = Some (s2, evs) ->
  run s (acts ++ [a]) = Some (s2, h1 ++ evs).
Proof.
  induction acts as [|b acts IH]; intros s s1 h1 s2 evs Hrun Hstep; cbn [run app] in *.
  - injection Hrun as <- <-. rewrite Hstep. cbn. rewrite app_nil_r. reflexivity.
  - destruct (step s b) as [[s' ev']|]; [|discriminate].
    destruct (run s' acts) as [[s'' ev'']|] eqn:E; [|discriminate].
    injection Hrun as <- <-.
    rewrite (IH _ _ _ _ _ E Hstep), app_assoc. reflexivity.
Qed.

Lemma before_sentinel_app {A} (l : list A) (rest : list (option A)) :
  before_sentinel (map Some l ++ rest) = l ++ before_sentinel rest.
Proof. induction l as [|x l IH]; cbn; [reflexivity|]. rewrite IH. reflexivity. Qed.

(** Two readings of one queue history agree on the buffers before the
    sentinel. *)
Lemma some_prefix {A} (b a : list A) (X Y : list (option A)) :
  map Some a ++ X = map Some b ++ Y -> X = [] \/ X = [None] -> b `prefix_of` a.
Proof.
  revert a. induction b as [|y b IH]; intros a E HX.
  - apply prefix_nil.
  - destruct a as [|x a]; cbn in E.
    + destruct HX as [-> | ->]; discriminate.
    + injection E as -> E. apply prefix_cons, (IH a E HX).
Qed.

Lemma some_until_sentinel {A} (a b : list A) (q : list (option A)) :
  map Some a ++ [None] = map Some b ++ None :: q -> a = b /\ q = [].
Proof.
  revert b. induction a as [|x a IH]; intros [|y b] E; cbn in E; try discriminate.
  - injection E as <-. auto.
  - injection E as -> E. destruct (IH b E) as [-> ->]. auto.
Qed.

Lemma some_no_sentinel {A} (a b : list A) (q : list (option A)) :
  map Some a <> map Some b ++ None :: q.
Proof.
  revert b. induction a as [|x a IH]; intros [|y b] E; cbn in E; try discriminate.
  injection E as -> E. exact (IH b E).
Qed.

(** The playback worker makes no move after [break]: whatever the other
    threads do, it stays stopped and nothing is played. *)
Lemma stopped_stays (s : @sys audio) :
  player_at s = PlayerStopped ->
  forall more s' evs, run s more = Some (s', evs) ->
    player_at s' = PlayerStopped /\ play_events evs = [].
Proof.
  intros Hs more. revert s Hs.
  induction more as [|a more IH]; intros s Hs s' evs Hrun; cbn [run] in Hrun.
  - injection Hrun as <- <-. auto.
  - destruct (step s a) as [[s1 ev1]|] eqn:E1; [|discriminate].
    destruct (run s1 more) as [[s2 ev2]|] eqn:E2; [|discriminate].
    injection Hrun as <- <-.
    assert (H1 : player_at s1 = PlayerStopped /\ play_events ev1 = []).
    { unfold step in E1. destruct a.
      - injection E1 as <- <-. auto.
      - destruct (tts_at s), (tts_q s); try discriminate; injection E1 as <- <-; auto.
      - destruct (tts_at s) as [|[?|]|]; try discriminate; injection E1 as <- <-; auto.
      - destruct (tts_at s) as [|[?|]|]; try discriminate;
          destruct out; injection E1 as <- <-; auto.
      - rewrite Hs in E1. discriminate.
      - rewrite Hs in E1. discriminate. }
    destruct H1 as [H1 H2]. destruct (IH s1 H1 _ _ E2) as [H3 H4].
    rewrite play_events_app, H2, H4. auto.
Qed.

(** C8: after every schedule of the three threads, the synthesis worker has
    handled the chunks in the order they were put on [tts_q]; the playback
    worker has started the audio buffers in the order the worker made them,
    which is the order of their chunks, however the moves interleave; each
    buffer is played to its end before the next one starts; and the
    playback worker has stopped only on the sentinel, after every buffer
    made was played.  At [audio_q.get()] the playback worker takes the
    head of the queue: the sentinel stops it, without a play event, and a
    buffer is started; while a buffer plays it takes nothing from the
    queue; and once stopped it stays stopped and plays nothing more,
    whatever the other threads do. *)
Theorem playback_in_chunk_order acts s h :
  run sys_init acts = Some (s, h) ->
  map fst (synths h) `prefix_of` before_sentinel (puts h)
  /\ starts h `prefix_of` oks (synths h)
  /\ (exists done,
        play_events h
        = flat_map played done
          ++ match player_at s with PlayerPlaying a => [EvPlayStart a] | _ => [] end)
  /\ (player_at s = PlayerStopped ->
      tts_at s = TtsStopped /\ starts h = oks (synths h) /\ audio_q s = [])
  /\ (forall q, player_at s = PlayerWaiting -> audio_q s = None :: q ->
        step s PlayerGet = Some (Sys (tts_q s) q (tts_at s) PlayerStopped, []))
  /\ (forall (buf : audio) q, player_at s = PlayerWaiting -> audio_q s = Some buf :: q ->
        step s PlayerGet
        = Some (Sys (tts_q s) q (tts_at s) (PlayerPlaying buf), [EvPlayStart buf]))
  /\ (forall buf : audio, player_at s = PlayerPlaying buf ->
        step s PlayerGet = None
        /\ step s PlayerDone
           = Some (Sys (tts_q s) (audio_q s) (tts_at s) PlayerWaiting,
                   [EvPlayEnd buf]))
  /\ (player_at s = PlayerStopped ->
      forall more s' evs, run s more = Some (s', evs) ->
        player_at s' = PlayerStopped /\ play_events evs = []).
Proof.
  intros Hrun. pose proof (reachable_inv _ _ _ Hrun) as [I1 I2 I3 I4].
  split; [|split; [|split; [|split; [|split; [|split; [|split]]]]]];
    [| | | | | | |exact (stopped_stays s)]; [| | |repeat split| | |].
  - rewrite I1, before_sentinel_app. apply prefix_app_r. reflexivity.
  - apply (some_prefix _ _ _ _ I2). destruct (tts_at s); auto.
  - destruct (player_at s) as [|a|].
    + exists (starts h). rewrite app_nil_r. assumption.
    + destruct I4 as [done [_ E]]. eauto.
    + exists (starts h). rewrite app_nil_r. assumption.
  - destruct (tts_at s); try reflexivity; rewrite H in I2; cbn in I2;
      rewrite app_nil_r in I2; exfalso; exact (some_no_sentinel _ _ _ I2).
  - rewrite H in I2. destruct (tts_at s); cbn in I2.
    + rewrite app_nil_r in I2. exfalso. exact (some_no_sentinel _ _ _ I2).
    + rewrite app_nil_r in I2. exfalso. exact (some_no_sentinel _ _ _ I2).
    + symmetry. apply (some_until_sentinel _ _ _ I2).
  - rewrite H in I2. destruct (tts_at s); cbn in I2.
    + rewrite app_nil_r in I2. exfalso. exact (some_no_sentinel _ _ _ I2).
    + rewrite app_nil_r in I2. exfalso. exact (some_no_sentinel _ _ _ I2).
    + apply (some_until_sentinel _ _ _ I2).
  - intros q Hp Hq. unfold step. rewrite Hp, Hq. reflexivity.
  - intros a q Hp Hq. unfold step. rewrite Hp, Hq. reflexivity.
  - intros a Hp. unfold step. rewrite Hp. auto.
Qed.

(** What the worker writes for an error: an empty line, the tag with the
    text of the exception, and an empty line. *)
Lemma error_line_text (e : error) :
  tts_error_line e = [10] ++ py "[TTS error] " ++ message e ++ [10; 10].
Proof.
  unfold tts_error_line, print_line. rewrite <- !app_assoc. reflexivity.
Qed.

(** C7: when the engine raises on the chunk the synthesis worker holds, the
    worker prints the error and is back at [tts_q.get()]: no audio is made
    for the chunk, both queues and the playback worker are as they were,
    the next item is taken, and the conversation loop can go on putting
    chunks; what it printed is a line break, the tag [[TTS error]] with
    the text of the exception, and two line breaks; after every schedule,
    each failure was printed in this form, in the order the failures
    occurred, every chunk that did not fail has its audio played or
    queued, and the worker has stopped only on the sentinel, having
    handled every chunk before it. *)
Theorem tts_failure_is_skipped acts s h :
  run sys_init acts = Some (s, h) ->
  (forall text e, tts_at s = TtsGot (Some text) ->
     let s' := Sys (tts_q s) (audio_q s) TtsWaiting (player_at s) in
     let h' := h ++ [EvSynth text (inl e); EvPrint (tts_error_line e)] in
     run sys_init (acts ++ [TtsSynth (inl e)]) = Some (s', h')
     /\ oks (synths h') = oks (synths h)
     /\ prints h' = prints h ++ [tts_error_line e]
     /\ (forall item q, tts_q s = item :: q ->
          step s' TtsGet = Some (Sys q (audio_q s) (TtsGot item) (player_at s), []))
     /\ (forall item, is_Some (step s' (Put item)))
     /\ (is_Some (step s' PlayerGet) <-> is_Some (step s PlayerGet))
     /\ (is_Some (step s' PlayerDone) <-> is_Some (step s PlayerDone))
     /\ prints h'
        = prints h ++ [[10] ++ py "[TTS error] " ++ message e ++ [10; 10]])
  /\ prints h = map tts_error_line (errs (synths h))
  /\ map Some (oks (synths h)) ++ forwarded (tts_at s)
     = map Some (starts h) ++ received (player_at s) ++ audio_q s
  /\ (tts_at s = TtsStopped ->
      exists chunks rest,
        puts h = map Some chunks ++ None :: rest /\ map fst (synths h) = chunks)
  /\ prints h
     = map (fun e => [10] ++ py "[TTS error] " ++ message e ++ [10; 10])
           (errs (synths h)).
Proof.
  intros Hrun. pose proof (reachable_inv _ _ _ Hrun) as [I1 I2 I3 I4].
  split; [|split; [assumption|split; [assumption|split]]];
    [| |rewrite I3; apply map_ext; intros e; apply error_line_text].
  - intros text e Hpc. cbv zeta.
    split; [|split; [|split; [|split; [|split; [|split; [|split]]]]]];
      [| | | | | | |rewrite prints_app; cbn [prints flat_map app];
                      rewrite error_line_text; reflexivity].
    + apply (run_snoc _ _ _ _ _ _ _ Hrun). unfold step. rewrite Hpc. reflexivity.
    + rewrite synths_app, oks_app. cbn. rewrite app_nil_r. reflexivity.
    + rewrite prints_app. reflexivity.
    + intros item q Hq. unfold step. cbn [tts_at tts_q audio_q player_at]. rewrite Hq.
      reflexivity.
    + intros item. cbn. eauto.
    + unfold step. cbn [tts_at tts_q audio_q player_at].
      destruct (player_at s); [destruct (audio_q s) as [|[au|] q]|..];
        split; intros [x Hx]; try discriminate; eexists; reflexivity.
    + unfold step. cbn [tts_at tts_q audio_q player_at].
      destruct (player_at s); split; intros [x Hx]; try discriminate;
        eexists; reflexivity.
  - intros Hpc. rewrite Hpc in I1. cbn in I1. eauto.
Qed.

End PipelineProps.

Lemma playback_in_chunk_order_witness :
  let acts : list (@action nat) :=
    [Put (Some (py "Hi.")); Put (Some (py "Yo.")); TtsGet; TtsSynth (inr 1%nat);
     TtsGet; PlayerGet; TtsSynth (inr 2%nat); PlayerDone; PlayerGet] in
  let s := Sys [] [] TtsWaiting (PlayerPlaying 2%nat) in
  let h := [EvPut (Some (py "Hi.")); EvPut (Some (py "Yo."));
            EvSynth (py "Hi.") (inr 1%nat); EvPlayStart 1%nat;
            EvSynth (py "Yo.") (inr 2%nat); EvPlayEnd 1%nat; EvPlayStart 2%nat] in
  run sys_init acts = Some (s, h)
  /\ starts h `prefix_of` oks (synths h).
Proof.
  cbv zeta. split; [reflexivity|].
  eapply (playback_in_chunk_order
            [Put (Some (py "Hi.")); Put (Some (py "Yo.")); TtsGet; TtsSynth (inr 1%nat);
             TtsGet; PlayerGet; TtsSynth (inr 2%nat); PlayerDone; PlayerGet]
            (Sys [] [] TtsWaiting (PlayerPlaying 2%nat))).
  reflexivity.
Defined.

Lemma tts_failure_is_skipped_witness :
  let acts : list (@action nat) :=
    [Put (Some (py "Hi.")); Put (Some (py "Yo.")); TtsGet] in
  let s := Sys [Some (py "Yo.")] [] (TtsGot (Some (py "Hi."))) PlayerWaiting in
  let h := [EvPut (Some (py "Hi.")); EvPut (Some (py "Yo."))] in
  let e := OtherError (py "boom") in
  (run sys_init acts = Some (s, h) /\ tts_at s = TtsGot (Some (py "Hi.")))
  /\ run sys_init (acts ++ [TtsSynth (inl e)])
     = Some (Sys [Some (py "Yo.")] [] TtsWaiting PlayerWaiting,
             h ++ [EvSynth (py "Hi.") (inl e); EvPrint (tts_error_line e)])
  /\ prints (h ++ [EvSynth (py "Hi.") (inl e); EvPrint (tts_error_line e)])
     = [[10] ++ py "[TTS error] boom" ++ [10; 10]].
Proof.
  cbv zeta. split; [split; reflexivity|].
  destruct (tts_failure_is_skipped (audio := nat)
              [Put (Some (py "Hi.")); Put (Some (py "Yo.")); TtsGet]
              (Sys [Some (py "Yo.")] [] (TtsGot (Some (py "Hi."))) PlayerWaiting)
              [EvPut (Some (py "Hi.")); EvPut (Some (py "Yo."))]
              eq_refl) as [H _].
  destruct (H (py "Hi.") (OtherError (py "boom")) eq_refl)
    as [H1 [_ [_ [_ [_ [_ [_ H8]]]]]]].
  split; [exact H1|exact H8].
Defined.

(** ** One turn of the conversation *)

(** C9: when the backend raises during a turn, on the call or after any
    number of tokens, the message list after the turn is the list before it
    with the user's message and nothing else: no assistant message is
    recorded. *)
Theorem failed_turn_records_no_assistant
    (backend : list chat_message -> response) (messages : list chat_message)
    (line : str) (r : raised) :
  truthy (strip line) = true ->
  failure (backend (messages ++ [Message User (strip line)])) = Some r ->
  messages_after (turn backend messages line)
  = messages ++ [Message User (strip line)].
Proof.
  intros Hline Hfail. unfold turn. rewrite Hline. cbn [negb].
  rewrite Hfail. destruct r; reflexivity.
Qed.

Lemma failed_turn_records_no_assistant_witness :
  let backend := fun _ : list chat_message =>
    Response [Some (py "Sure. I"); Some (py " can")]
             (Some (Exception (OtherError (py "connection reset")))) in
  let messages := [Message User (py "hi"); Message Assistant (py "Hello!")] in
  let line := py " tell me more " in
  truthy (strip line) = true
  /\ failure (backend (messages ++ [Message User (strip line)]))
     = Some (Exception (OtherError (py "connection reset")))
  /\ messages_after (turn backend messages line)
     = messages ++ [Message User (strip line)]
  /\ tts_puts (turn backend messages line) = [py "Sure."].
Proof.
  cbv zeta. split; [reflexivity|]. split; [reflexivity|]. split; [|reflexivity].
  apply (failed_turn_records_no_assistant
           (fun _ => Response [Some (py "Sure. I"); Some (py " can")]
                              (Some (Exception (OtherError (py "connection reset")))))
           [Message User (py "hi"); Message Assistant (py "Hello!")]
           (py " tell me more ")
           (Exception (OtherError (py "connection reset"))));
    reflexivity.
Defined.

(** ** The synthesis adapter *)

Section SynthesisProps.

Import Server.

Context {sample : Type}.
Variable DEFAULT_VOICE : str.
Variable voice_catalog : gmap str voice_info.
Variable engine : pipeline -> str -> str -> list (list sample) * option error.
Variable audio_to_wav_base64 : list sample -> str.

Local Abbreviation get_voice_info := (get_voice_info DEFAULT_VOICE voice_catalog).
Local Abbreviation collect := (collect engine audio_to_wav_base64).
Local Abbreviation attempts := (attempts engine audio_to_wav_base64).
Local Abbreviation synthesize_audio :=
  (synthesize_audio DEFAULT_VOICE voice_catalog engine audio_to_wav_base64).

Lemma engine_calls_app t t' : engine_calls (t ++ t') = engine_calls t ++ engine_calls t'.
Proof. apply flat_map_app. Qed.

Lemma evictions_app t t' : evictions (t ++ t') = evictions t ++ evictions t'.
Proof. apply flat_map_app. Qed.

Lemma engine_calls_first_lookup w lang_code : engine_calls (first_lookup w lang_code) = [].
Proof. unfold first_lookup. destruct (pipelines w !! lang_code); reflexivity. Qed.

Lemma evictions_first_lookup w lang_code : evictions (first_lookup w lang_code) = [].
Proof. unfold first_lookup. destruct (pipelines w !! lang_code); reflexivity. Qed.

(** [get_pipeline] returns the cached pipeline or caches a new one. *)
Lemma get_pipeline_first lang_code w :
  get_pipeline lang_code w
  = (inr (first_pipeline w lang_code),
     World (<[lang_code := first_pipeline w lang_code]> (pipelines w))
           (created_after_first w lang_code)
           (trace w ++ first_lookup w lang_code)).
Proof.
  unfold get_pipeline, bind, tell, first_pipeline, created_after_first, first_lookup.
  cbn [pipelines created trace].
  destruct (pipelines w !! lang_code) as [p|] eqn:E; cbn [default from_option id].
  - rewrite insert_id by assumption. reflexivity.
  - rewrite <- app_assoc. reflexivity.
Qed.

Lemma engine_calls_retry w lang_code clean_text voice :
  engine_calls (retry_events w lang_code clean_text voice)
  = [first_pipeline w lang_code; second_pipeline w lang_code].
Proof.
  unfold retry_events. rewrite engine_calls_app, engine_calls_first_lookup. reflexivity.
Qed.

Lemma evictions_retry w lang_code clean_text voice :
  evictions (retry_events w lang_code clean_text voice)
  = [(lang_code, first_pipeline w lang_code)].
Proof.
  unfold retry_events. rewrite evictions_app, evictions_first_lookup. reflexivity.
Qed.

(** C5, as the code has it: when the engine fails on the first pipeline,
    the cache entry of the language is removed and the engine is called
    once more, on a pipeline constructed after the failure.  If that call
    returns, so does the request, with one eviction and the new pipeline
    cached.  If it fails too, the request ends with the [RuntimeError]
    whose cause is the second failure, and the entry of the new pipeline is
    removed as well: two evictions in all, and no entry left. *)
Theorem synthesis_retries_once
    (text voice_name : option str) (w : world)
    (resolved_voice lang_code : str) (e1 : error) :
  let clean_text := strip (default [] text) in
  let p1 := first_pipeline w lang_code in
  let p2 := second_pipeline w lang_code in
  let retry := retry_events w lang_code clean_text resolved_voice in
  let r := synthesize_audio text voice_name w in
  get_voice_info voice_name = inr (resolved_voice, lang_code) ->
  truthy clean_text = true ->
  collect p1 clean_text resolved_voice = inl e1 ->
  engine_calls retry = [p1; p2]
  /\ (created w <= serial p2)%nat
  /\ match collect p2 clean_text resolved_voice with
     | inr out =>
         fst r = inr out
         /\ trace (snd r) = trace w ++ retry
         /\ evictions retry = [(lang_code, p1)]
         /\ pipelines (snd r) !! lang_code = Some p2
     | inl e2 =>
         let failing := second_failure_events w lang_code resolved_voice e2 in
         fst r = inl (RuntimeError (tts_failed resolved_voice (message e2)) (Some e2))
         /\ trace (snd r) = trace w ++ retry ++ failing
         /\ engine_calls (retry ++ failing) = [p1; p2]
         /\ evictions (retry ++ failing) = [(lang_code, p1); (lang_code, p2)]
         /\ pipelines (snd r) !! lang_code = None
     end.
Proof.
  cbv zeta. intros Hv Ht H1.
  split; [apply engine_calls_retry|]. split.
  { unfold second_pipeline, created_after_first. cbn [serial].
    destruct (pipelines w !! lang_code); lia. }
  assert (E : synthesize_audio text voice_name w
              = try_except
                  (synth_once engine audio_to_wav_base64
                     (second_pipeline w lang_code) (strip (default [] text)) resolved_voice)
                  (fun exc =>
                     bind (pop_pipeline lang_code) (fun _ =>
                     let error_msg := tts_failed resolved_voice (message exc) in
                     bind (tell (EvLog error_msg)) (fun _ =>
                     raise (RuntimeError error_msg (Some exc)))))
                  (World (<[lang_code := second_pipeline w lang_code]>
                            (delete lang_code (pipelines w)))
                         (S (created_after_first w lang_code))
                         (trace w ++ first_lookup w lang_code
                          ++ [EvCall (first_pipeline w lang_code)
                                (strip (default [] text)) resolved_voice;
                              EvPop lang_code (Some (first_pipeline w lang_code));
                              EvGetPipeline lang_code;
                              EvCreate (second_pipeline w lang_code)]))).
  { unfold Server.synthesize_audio. rewrite Hv, Ht. cbn [negb].
    cbn [Server.attempts]. unfold bind at 1. rewrite get_pipeline_first.
    unfold try_except at 1. unfold synth_once at 1, bind at 1, tell at 1.
    cbn [pipelines created trace]. unfold bind at 1. rewrite H1.
    unfold bind at 1, pop_pipeline at 1. cbn [pipelines created trace Nat.eqb].
    rewrite lookup_insert_eq, delete_insert_eq.
    unfold bind at 1, get_pipeline at 1, bind at 1, tell at 1.
    cbn [pipelines created trace]. rewrite lookup_delete_eq.
    fold (second_pipeline w lang_code). rewrite <- !app_assoc. reflexivity. }
  rewrite E. clear E.
  unfold try_except, synth_once, bind at 1, tell at 1. cbn [pipelines created trace].
  destruct (collect (second_pipeline w lang_code) (strip (default [] text)) resolved_voice)
    as [e2|out] eqn:H2.
  - unfold bind, pop_pipeline, tell, raise. cbn [pipelines created trace fst snd].
    rewrite lookup_insert_eq, delete_insert_eq, lookup_delete_eq.
    split; [reflexivity|]. split.
    { unfold retry_events, second_failure_events. rewrite <- !app_assoc. reflexivity. }
    split.
    { rewrite engine_calls_app, engine_calls_retry. reflexivity. }
    split; [|reflexivity].
    rewrite evictions_app, evictions_retry. reflexivity.
  - unfold bind, tell. cbn [fst snd pipelines created trace]. rewrite lookup_insert_eq.
    split; [reflexivity|]. split.
    { unfold retry_events. rewrite <- !app_assoc. reflexivity. }
    split; [apply evictions_retry|reflexivity].
Qed.

(** C6, as the code has it: a requested voice name that is not empty and
    whose trimmed form is not in the catalog makes the request fail with the
    [ValueError] of [get_voice_info], and the world is untouched: no
    pipeline was looked up or constructed and the engine was not called.
    (The name is looked up trimmed; a missing or empty name selects the
    default voice.) *)
Theorem unknown_voice_rejected (text : option str) (voice : str) (w : world) :
  truthy voice = true ->
  voice_catalog !! strip voice = None ->
  synthesize_audio text (Some voice) w
  = (inl (ValueError (py "Voice '" ++ strip voice ++ py "' is not available.")), w).
Proof.
  intros Hv Hc. unfold Server.synthesize_audio, Server.get_voice_info, or_default.
  rewrite Hv, Hc. reflexivity.
Qed.

End SynthesisProps.

Lemma synthesis_retries_once_witness :
  let catalog : gmap str Server.voice_info :=
    {[ py "af_nicole" := Server.VoiceInfo (py "a") ]} in
  let engine := fun (_ : Server.pipeline) (_ _ : str) =>
    (@nil (list nat), Some (OtherError (py "boom"))) in
  let encode := fun _ : list nat => py "UklGRg" in
  let w := Server.World {[ py "a" := Server.KPipeline (py "a") 0 ]} 1 [] in
  (Server.get_voice_info (py "af_nicole") catalog (Some (py "af_nicole"))
   = inr (py "af_nicole", py "a")
   /\ truthy (strip (py " hi ")) = true
   /\ Server.collect engine encode (first_pipeline w (py "a")) (py "hi") (py "af_nicole")
      = inl (OtherError (py "boom")))
  /\ Server.engine_calls (retry_events w (py "a") (py "hi") (py "af_nicole"))
     = [Server.KPipeline (py "a") 0; Server.KPipeline (py "a") 1].
Proof.
  cbv zeta. split; [repeat split; vm_compute; reflexivity|].
  edestruct (synthesis_retries_once (py "af_nicole")
               {[ py "af_nicole" := Server.VoiceInfo (py "a") ]}
               (fun _ _ _ => (@nil (list nat), Some (OtherError (py "boom"))))
               (fun _ => py "UklGRg")
               (Some (py " hi ")) (Some (py "af_nicole"))
               (Server.World {[ py "a" := Server.KPipeline (py "a") 0 ]} 1 [])
               (py "af_nicole") (py "a") (OtherError (py "boom")))
    as [H _]; [vm_compute; reflexivity ..|].
  vm_compute in H. vm_compute. exact H.
Defined.

(** C5 as stated fails on its count: with one pipeline cached and an engine
    that always raises, the request removes the cached entry after the
    first failure and the entry of the new pipeline after the second. *)
Lemma second_failure_evicts_again :
  let catalog : gmap str Server.voice_info :=
    {[ py "af_nicole" := Server.VoiceInfo (py "a") ]} in
  let engine := fun (_ : Server.pipeline) (_ _ : str) =>
    (@nil (list nat), Some (OtherError (py "boom"))) in
  let encode := fun _ : list nat => py "UklGRg" in
  let w := Server.World {[ py "a" := Server.KPipeline (py "a") 0 ]} 1 [] in
  let r := Server.synthesize_audio (py "af_nicole") catalog engine encode
             (Some (py "hi")) (Some (py "af_nicole")) w in
  fst r = inl (RuntimeError (py "TTS failed for voice 'af_nicole': boom")
                            (Some (OtherError (py "boom"))))
  /\ Server.engine_calls (Server.trace (snd r))
     = [Server.KPipeline (py "a") 0; Server.KPipeline (py "a") 1]
  /\ Server.evictions (Server.trace (snd r))
     = [(py "a", Server.KPipeline (py "a") 0); (py "a", Server.KPipeline (py "a") 1)]
  /\ length (Server.evictions (Server.trace (snd r))) <> 1%nat.
Proof.
  cbv zeta. split; [vm_compute; reflexivity|]. split; [vm_compute; reflexivity|].
  split; [vm_compute; reflexivity|]. vm_compute. discriminate.
Qed.

Lemma unknown_voice_rejected_witness :
  let catalog : gmap str Server.voice_info :=
    {[ py "af_nicole" := Server.VoiceInfo (py "a") ]} in
  let engine := fun (_ : Server.pipeline) (_ _ : str) => ([[1%nat]], @None error) in
  let encode := fun _ : list nat => py "UklGRg" in
  let w := Server.World ∅ 0 [] in
  (truthy (py "bm_lewis") = true /\ catalog !! strip (py "bm_lewis") = None)
  /\ Server.synthesize_audio (py "af_nicole") catalog engine encode
       (Some (py "hi")) (Some (py "bm_lewis")) w
     = (inl (ValueError (py "Voice 'bm_lewis' is not available.")), w).
Proof.
  cbv zeta. split; [split; vm_compute; reflexivity|].
  apply (unknown_voice_rejected (py "af_nicole")
           {[ py "af_nicole" := Server.VoiceInfo (py "a") ]}
           (fun _ _ _ => ([[1%nat]], @None error)) (fun _ => py "UklGRg")
           (Some (py "hi")) (py "bm_lewis") (Server.World ∅ 0 []));
    vm_compute; reflexivity.
Defined.

(** C6 as stated fails: [" af_nicole"] is not a key of the catalog, and the
    request is served with the voice [af_nicole]; the empty name is not a
    key either, and the request is served with the default voice. *)
Lemma padded_voice_name_accepted :
  let catalog : gmap str Server.voice_info :=
    {[ py "af_nicole" := Server.VoiceInfo (py "a") ]} in
  let engine := fun (_ : Server.pipeline) (_ _ : str) => ([[1%nat]], @None error) in
  let encode := fun _ : list nat => py "UklGRg" in
  let w := Server.World ∅ 0 [] in
  (catalog !! py " af_nicole" = None
   /\ fst (Server.synthesize_audio (py "af_nicole") catalog engine encode
             (Some (py "hi")) (Some (py " af_nicole")) w)
      = inr (py "UklGRg", py "af_nicole"))
  /\ (catalog !! py "" = None
      /\ fst (Server.synthesize_audio (py "af_nicole") catalog engine encode
                (Some (py "hi")) (Some (py "")) w)
         = inr (py "UklGRg", py "af_nicole")).
Proof.
  cbv zeta. repeat split; vm_compute; reflexivity.
Qed.
Import Server App Session SynthSpec.

(** * More of the code *)

(** ** The synthesis adapter, beyond the failure path *)

Section SynthesisMore.

Context {sample : Type}.
Variable DEFAULT_VOICE : str.
Variable voice_catalog : gmap str voice_info.
Variable engine : pipeline -> str -> str -> list (list sample) * option error.
Variable audio_to_wav_base64 : list sample -> str.

Local Abbreviation get_voice_info := (get_voice_info DEFAULT_VOICE voice_catalog).
Local Abbreviation collect := (collect engine audio_to_wav_base64).
Local Abbreviation attempts := (attempts engine audio_to_wav_base64).
Local Abbreviation synthesize_audio :=
  (synthesize_audio DEFAULT_VOICE voice_catalog engine audio_to_wav_base64).

(** A resolved voice resolves to itself. *)
Lemma get_voice_info_resolved (requested : option str) (voice lang_code : str) :
  get_voice_info requested = inr (voice, lang_code) ->
  voice <> [] ->
  get_voice_info (Some voice) = inr (voice, lang_code).
Proof.
  unfold Server.get_voice_info. intros H Hne.
  destruct (voice_catalog !! strip (or_default DEFAULT_VOICE requested)) as [info|] eqn:E;
    [|discriminate].
  injection H as <- <-.
  assert (Ho : or_default DEFAULT_VOICE
                 (Some (strip (or_default DEFAULT_VOICE requested)))
               = strip (or_default DEFAULT_VOICE requested)).
  { unfold or_default at 1. destruct (strip (or_default DEFAULT_VOICE requested));
      [congruence|reflexivity]. }
  rewrite Ho, strip_strip, E. reflexivity.
Qed.

(** X6: A voice that was resolved resolves to itself: [chat] resolves the voice
    and passes the result to [synthesize_audio], which resolves it again. *)
Theorem get_voice_info_idempotent (requested : option str) (voice lang_code : str) :
  get_voice_info requested = inr (voice, lang_code) ->
  voice <> [] ->
  get_voice_info (Some voice) = inr (voice, lang_code).
Proof. exact (get_voice_info_resolved requested voice lang_code). Qed.

Lemma concat_nonempty_arrays (arrays : list (list sample)) :
  concat (List.filter (fun arr => negb (Nat.eqb (length arr) 0)) arrays) = concat arrays.
Proof.
  induction arrays as [|a arrays IH]; [reflexivity|].
  cbn [List.filter]. destruct a as [|x a]; cbn; [exact IH|]. rewrite IH. reflexivity.
Qed.

Lemma no_nonempty_arrays (arrays : list (list sample)) :
  List.filter (fun arr => negb (Nat.eqb (length arr) 0)) arrays = [] <-> concat arrays = [].
Proof.
  induction arrays as [|a arrays IH]; [tauto|].
  cbn [List.filter]. destruct a as [|x a]; cbn; [exact IH|].
  split; discriminate.
Qed.

(** What one attempt returns: the engine's exception if it raises; else the
    encoding of every sample the engine yielded, in order, the empty arrays
    dropped without loss; and an error if there is no sample at all. *)
Theorem collect_all_samples (p : pipeline) (clean_text voice : str) :
  collect p clean_text voice
  = match engine p clean_text voice with
    | (_, Some e) => inl e
    | (arrays, None) =>
        match concat arrays with
        | [] => inl (RuntimeError (py "Kokoro returned empty audio.") None)
        | _ :: _ => inr (audio_to_wav_base64 (concat arrays), voice)
        end
    end.
Proof.
  unfold Server.collect. destruct (engine p clean_text voice) as [arrays [e|]];
    [reflexivity|].
  destruct (List.filter _ arrays) as [|seg segs] eqn:E.
  - apply no_nonempty_arrays in E. rewrite E. reflexivity.
  - rewrite <- E, concat_nonempty_arrays.
    destruct (concat arrays) eqn:C; [|reflexivity].
    apply no_nonempty_arrays in C. rewrite C in E. discriminate.
Qed.

Lemma constructed_app t t' : constructed (t ++ t') = constructed t ++ constructed t'.
Proof. apply flat_map_app. Qed.

(** The request whose first attempt returns. *)
Lemma synthesize_audio_returns
    (text voice_name : option str) (w : world)
    (resolved_voice lang_code : str) (arrays : list (list sample)) :
  let clean_text := strip (default [] text) in
  let p1 := first_pipeline w lang_code in
  let new := first_lookup w lang_code ++ [EvCall p1 clean_text resolved_voice] in
  get_voice_info voice_name = inr (resolved_voice, lang_code) ->
  truthy clean_text = true ->
  engine p1 clean_text resolved_voice = (arrays, None) ->
  concat arrays <> [] ->
  synthesize_audio text voice_name w
  = (inr (audio_to_wav_base64 (concat arrays), resolved_voice),
     World (<[lang_code := p1]> (pipelines w)) (created_after_first w lang_code)
           (trace w ++ new))
  /\ engine_calls new = [p1]
  /\ evictions new = []
  /\ constructed new
     = match pipelines w !! lang_code with Some _ => [] | None => [p1] end.
Proof.
  cbv zeta. intros Hv Ht He Hne. split; [|split; [|split]].
  - unfold Server.synthesize_audio. rewrite Hv, Ht. cbn [negb Server.attempts].
    unfold bind at 1. rewrite get_pipeline_first.
    unfold try_except, synth_once, bind, tell. cbn [pipelines created trace].
    rewrite collect_all_samples, He.
    destruct (concat arrays) eqn:C; [congruence|].
    rewrite <- app_assoc. reflexivity.
  - rewrite engine_calls_app, engine_calls_first_lookup. reflexivity.
  - rewrite evictions_app, evictions_first_lookup. reflexivity.
  - rewrite constructed_app. unfold first_lookup, first_pipeline.
    destruct (pipelines w !! lang_code); reflexivity.
Qed.

(** X7: A request whose first attempt returns: one call of the engine, on the
    cached pipeline if there is one (nothing is constructed then), else on
    one that is constructed and cached; nothing is evicted; and the audio
    is the encoding of all the samples the engine yielded. *)
Theorem synthesis_first_try
    (text voice_name : option str) (w : world)
    (resolved_voice lang_code : str) (arrays : list (list sample)) :
  let clean_text := strip (default [] text) in
  let p1 := first_pipeline w lang_code in
  let new := first_lookup w lang_code ++ [EvCall p1 clean_text resolved_voice] in
  get_voice_info voice_name = inr (resolved_voice, lang_code) ->
  truthy clean_text = true ->
  engine p1 clean_text resolved_voice = (arrays, None) ->
  concat arrays <> [] ->
  synthesize_audio text voice_name w
  = (inr (audio_to_wav_base64 (concat arrays), resolved_voice),
     World (<[lang_code := p1]> (pipelines w)) (created_after_first w lang_code)
           (trace w ++ new))
  /\ engine_calls new = [p1]
  /\ evictions new = []
  /\ constructed new
     = match pipelines w !! lang_code with Some _ => [] | None => [p1] end.
Proof. exact (synthesize_audio_returns text voice_name w resolved_voice lang_code arrays). Qed.

(** *** The cache stays well formed *)

Lemma cache_ok_insert w l p n t :
  cache_ok w -> lang_code p = l -> (serial p < n)%nat -> (created w <= n)%nat ->
  cache_ok (World (<[l := p]> (pipelines w)) n t).
Proof.
  intros Hok Hl Hs Hn l' p'. cbn [pipelines created].
  rewrite lookup_insert. destruct (decide (l = l')) as [<-|Hne].
  - intros [= <-]. auto.
  - intros H. destruct (Hok l' p' H). split; [assumption|lia].
Qed.

Lemma cache_ok_empty n t : cache_ok (World ∅ n t).
Proof. intros l p. cbn [pipelines]. rewrite lookup_empty. discriminate. Qed.

Lemma cache_ok_delete w l t :
  cache_ok w -> cache_ok (World (delete l (pipelines w)) (created w) t).
Proof.
  intros Hok l' p'. cbn [pipelines created].
  rewrite lookup_delete. destruct (decide (l = l')); [discriminate|]. apply Hok.
Qed.

Lemma cache_ok_trace w t :
  cache_ok w -> cache_ok (World (pipelines w) (created w) t).
Proof. intros Hok l p. apply Hok. Qed.

Lemma first_pipeline_ok w l :
  cache_ok w ->
  lang_code (first_pipeline w l) = l
  /\ (serial (first_pipeline w l) < created_after_first w l)%nat
  /\ (created w <= created_after_first w l)%nat.
Proof.
  intros Hok. unfold first_pipeline, created_after_first.
  destruct (pipelines w !! l) as [p|] eqn:E; cbn.
  - destruct (Hok l p E). auto.
  - auto.
Qed.

(** One pass of the loop over the attempts. *)
Lemma attempts_cons attempt todo last lang_code clean_text voice w :
  let p1 := first_pipeline w lang_code in
  attempts (attempt :: todo) last lang_code clean_text voice w
  = match collect p1 clean_text voice with
    | inr out =>
        (inr out,
         World (<[lang_code := p1]> (pipelines w)) (created_after_first w lang_code)
               (trace w ++ first_lookup w lang_code ++ [EvCall p1 clean_text voice]))
    | inl exc =>
        let w2 := World (delete lang_code (pipelines w))
                        (created_after_first w lang_code)
                        (trace w ++ first_lookup w lang_code
                         ++ [EvCall p1 clean_text voice; EvPop lang_code (Some p1)]) in
        if Nat.eqb attempt 0 then attempts todo (Some exc) lang_code clean_text voice w2
        else (inl (RuntimeError (tts_failed voice (message exc)) (Some exc)),
              World (pipelines w2) (created w2)
                    (trace w2 ++ [EvLog (tts_failed voice (message exc))]))
    end.
Proof.
  cbv zeta. cbn [Server.attempts]. unfold bind at 1. rewrite get_pipeline_first.
  unfold try_except, synth_once, bind at 1, tell at 1.
  cbn [pipelines created trace]. unfold bind at 1.
  destruct (collect (first_pipeline w lang_code) clean_text voice) as [exc|out].
  - unfold bind at 1, pop_pipeline at 1. cbn [pipelines created trace].
    rewrite lookup_insert_eq, delete_insert_eq, <- !app_assoc. cbn [app].
    destruct (Nat.eqb attempt 0); [reflexivity|].
    unfold bind, tell, raise. cbn [pipelines created trace].
    rewrite <- !app_assoc. reflexivity.
  - rewrite <- !app_assoc. reflexivity.
Qed.

(** What the loop over the attempts keeps, however the engine answers. *)
Lemma attempts_keep todo : forall last lang_code clean_text voice w,
  cache_ok w ->
  let r := attempts todo last lang_code clean_text voice w in
  cache_ok (snd r)
  /\ (created w <= created (snd r))%nat
  /\ (forall l, l <> lang_code -> pipelines (snd r) !! l = pipelines w !! l)
  /\ exists new, trace (snd r) = trace w ++ new
                 /\ (length (engine_calls new) <= length todo)%nat.
Proof.
  induction todo as [|attempt todo IH]; intros last lang_code clean_text voice w Hok;
    cbv zeta.
  - cbn. split; [assumption|]. split; [lia|]. split; [reflexivity|].
    exists []. rewrite app_nil_r. cbn. auto.
  - rewrite attempts_cons. cbv zeta.
    destruct (first_pipeline_ok w lang_code Hok) as [Hl [Hs Hc]].
    destruct (collect (first_pipeline w lang_code) clean_text voice) as [exc|out].
    + assert (Hok2 : cache_ok
                (World (delete lang_code (pipelines w)) (created_after_first w lang_code)
                   (trace w ++ first_lookup w lang_code
                    ++ [EvCall (first_pipeline w lang_code) clean_text voice;
                        EvPop lang_code (Some (first_pipeline w lang_code))]))).
      { intros l p. cbn [pipelines created]. rewrite lookup_delete.
        destruct (decide (lang_code = l)); [discriminate|].
        intros H. destruct (Hok l p H). split; [assumption|lia]. }
      destruct (Nat.eqb attempt 0).
      * destruct (IH (Some exc) lang_code clean_text voice _ Hok2)
          as [I1 [I2 [I3 [new [I4 I5]]]]].
        cbn [pipelines created trace] in I2, I3, I4.
        split; [exact I1|]. split; [lia|].
        split; [intros l Hne; rewrite I3, lookup_delete_ne by congruence; reflexivity|].
        eexists. split; [rewrite I4, <- !app_assoc; reflexivity|].
        rewrite engine_calls_app, engine_calls_first_lookup. cbn.
        fold (engine_calls new). lia.
      * cbn [fst snd pipelines created trace].
        split; [apply (cache_ok_trace _ _ Hok2)|]. split; [lia|].
        split; [intros l Hne; rewrite lookup_delete_ne by congruence; reflexivity|].
        eexists. split; [rewrite <- !app_assoc; reflexivity|].
        rewrite engine_calls_app, engine_calls_first_lookup. cbn. lia.
    + cbn [fst snd pipelines created trace].
      split; [apply cache_ok_insert; assumption|]. split; [lia|].
      split; [intros l Hne; rewrite lookup_insert_ne by congruence; reflexivity|].
      eexists. split; [reflexivity|].
      rewrite engine_calls_app, engine_calls_first_lookup. cbn. lia.
Qed.

(** X8: Whatever the request and whatever the engine does, a request keeps the
    cache well formed, calls the engine at most twice, only adds to the
    trace, and leaves the pipelines of the other languages where they
    are. *)
Theorem synthesize_audio_keeps_cache (text voice_name : option str) (w : world) :
  cache_ok w ->
  let r := synthesize_audio text voice_name w in
  cache_ok (snd r)
  /\ (created w <= created (snd r))%nat
  /\ (forall voice lang_code l,
        get_voice_info voice_name = inr (voice, lang_code) -> l <> lang_code ->
        pipelines (snd r) !! l = pipelines w !! l)
  /\ exists new, trace (snd r) = trace w ++ new
                 /\ (length (engine_calls new) <= 2)%nat.
Proof.
  intros Hok. cbv zeta. unfold Server.synthesize_audio.
  destruct (get_voice_info voice_name) as [e|[voice lang_code]] eqn:Hv.
  - cbn. split; [assumption|]. split; [lia|]. split; [discriminate|].
    exists []. rewrite app_nil_r. cbn. auto.
  - destruct (truthy (strip (default [] text))); cbn [negb].
    + destruct (attempts_keep [0; 1]%nat None lang_code (strip (default [] text))
                  voice w Hok) as [I1 [I2 [I3 I4]]].
      split; [assumption|]. split; [assumption|]. split; [|assumption].
      intros v l' l [= <- <-]. apply I3.
    + cbn. split; [assumption|]. split; [lia|]. split; [reflexivity|].
      exists []. rewrite app_nil_r. cbn. auto.
Qed.

(** X9: Whenever a request calls the engine twice, the second call is on a
    pipeline other than the first: the first was removed from the cache
    after its call, and the second was constructed after that, during the
    request, so it is none of the pipelines cached when the request
    came. *)
Theorem retry_pipeline_is_new
    (text voice_name : option str) (w : world) (new : list Server.event)
    (p1 p2 : pipeline) :
  cache_ok w ->
  trace (snd (synthesize_audio text voice_name w)) = trace w ++ new ->
  engine_calls new = [p1; p2] ->
  p2 <> p1
  /\ (exists before between after text' voice',
        new = before ++ [EvCall p1 text' voice'] ++ [EvPop (lang_code p1) (Some p1)]
              ++ between ++ [EvCreate p2; EvCall p2 text' voice'] ++ after
        /\ engine_calls before = [] /\ engine_calls after = [])
  /\ constructed new = match pipelines w !! lang_code p1 with
                       | Some _ => [p2]
                       | None => [p1; p2]
                       end
  /\ (forall l p, pipelines w !! l = Some p -> p <> p2)
  /\ (created w <= serial p2)%nat
  /\ lang_code p2 = lang_code p1.
Proof.
  intros Hok Htr Hcalls. unfold Server.synthesize_audio in Htr.
  assert (Hnil : forall t, trace w = trace w ++ t -> t = []).
  { intros t H. rewrite <- (app_nil_r (trace w)) in H at 1.
    apply app_inv_head in H. auto. }
  destruct (get_voice_info voice_name) as [e0|[voice l]].
  { cbn in Htr. apply Hnil in Htr. subst. discriminate. }
  destruct (truthy (strip (default [] text))); cbn [negb] in Htr;
    [|cbn in Htr; apply Hnil in Htr; subst; discriminate].
  rewrite attempts_cons in Htr. cbv zeta in Htr.
  destruct (Server.collect _ _ (first_pipeline w l) _ voice) as [exc1|out].
  2:{ cbn [snd trace] in Htr. apply app_inv_head in Htr. subst new.
      rewrite engine_calls_app, engine_calls_first_lookup in Hcalls. discriminate. }
  cbn [Nat.eqb] in Htr. rewrite attempts_cons in Htr. cbv zeta in Htr.
  set (w2 := World (delete l (pipelines w)) (created_after_first w l)
                   (trace w ++ first_lookup w l
                    ++ [EvCall (first_pipeline w l) (strip (default [] text)) voice;
                        EvPop l (Some (first_pipeline w l))])) in *.
  assert (E2 : pipelines w2 !! l = None) by apply lookup_delete_eq.
  assert (Ep : first_pipeline w2 l = KPipeline l (created_after_first w l)).
  { unfold first_pipeline. rewrite E2. reflexivity. }
  assert (El : first_lookup w2 l
               = [EvGetPipeline l; EvCreate (KPipeline l (created_after_first w l))]).
  { unfold first_lookup. rewrite E2. reflexivity. }
  destruct (first_pipeline_ok w l Hok) as [F1 [F2 F3]].
  assert (Hnew : exists after,
             new = first_lookup w l
                   ++ [EvCall (first_pipeline w l) (strip (default [] text)) voice;
                       EvPop l (Some (first_pipeline w l))]
                   ++ [EvGetPipeline l]
                   ++ [EvCreate (KPipeline l (created_after_first w l));
                       EvCall (KPipeline l (created_after_first w l))
                         (strip (default [] text)) voice]
                   ++ after
             /\ engine_calls after = []).
  { rewrite Ep, El in Htr.
    destruct (Server.collect _ _ (KPipeline l (created_after_first w l)) _ voice)
      as [exc2|out]; cbn [Nat.eqb snd trace w2] in Htr;
      rewrite <- !app_assoc in Htr; apply app_inv_head in Htr; subst new;
      eexists; (split; [cbn [app]; reflexivity|reflexivity]). }
  destruct Hnew as [after [-> Ha]].
  rewrite !engine_calls_app, engine_calls_first_lookup, Ha in Hcalls.
  cbn in Hcalls. injection Hcalls as <- <-.
  split; [|split; [|split; [|split; [|split]]]].
  - intros E. rewrite <- E in F2. cbn in F2. lia.
  - exists (first_lookup w l), [EvGetPipeline l], after, (strip (default [] text)), voice.
    rewrite F1. split; [reflexivity|].
    split; [apply engine_calls_first_lookup|exact Ha].
  - rewrite F1. rewrite !constructed_app.
    assert (Hc : constructed after = []).
    { clear -Ha Htr El Ep. rewrite Ep, El in Htr.
      destruct (Server.collect _ _ (KPipeline l (created_after_first w l)) _ voice)
        as [exc2|out]; cbn [Nat.eqb snd trace w2] in Htr;
        rewrite <- !app_assoc in Htr; apply app_inv_head in Htr;
        cbn [app] in Htr; apply app_inv_head in Htr;
        injection Htr as <-; reflexivity. }
    rewrite Hc. unfold first_lookup, first_pipeline.
    destruct (pipelines w !! l); reflexivity.
  - intros l' p Hp E. destruct (Hok l' p Hp) as [_ Hs]. rewrite E in Hs.
    cbn in Hs. lia.
  - cbn. exact F3.
  - cbn. symmetry. exact F1.
Qed.

End SynthesisMore.
Import Server App Session SynthSpec.

Lemma get_voice_info_idempotent_witness :
  let catalog : gmap str voice_info := {[ py "af_nicole" := VoiceInfo (py "a") ]} in
  (get_voice_info (py "af_nicole") catalog (Some (py " af_nicole "))
   = inr (py "af_nicole", py "a")
   /\ py "af_nicole" <> [])
  /\ get_voice_info (py "af_nicole") catalog (Some (py "af_nicole"))
     = inr (py "af_nicole", py "a").
Proof.
  cbv zeta. split; [split; [vm_compute; reflexivity|discriminate]|].
  apply (get_voice_info_idempotent (py "af_nicole")
           {[ py "af_nicole" := VoiceInfo (py "a") ]} (Some (py " af_nicole "))).
  - vm_compute. reflexivity.
  - discriminate.
Defined.

Lemma synthesis_first_try_witness :
  let catalog : gmap str voice_info := {[ py "af_nicole" := VoiceInfo (py "a") ]} in
  let engine := fun (_ : pipeline) (_ _ : str) =>
    ([[1; 2]; []; [3]]%nat, @None error) in
  let encode := fun samples : list nat => map N.of_nat samples in
  let w := World ∅ 0 [] in
  (get_voice_info (py "af_nicole") catalog None = inr (py "af_nicole", py "a")
   /\ truthy (strip (py " hi ")) = true
   /\ engine (first_pipeline w (py "a")) (py "hi") (py "af_nicole")
      = ([[1; 2]; []; [3]]%nat, None)
   /\ concat [[1; 2]; []; [3]]%nat <> [])
  /\ fst (synthesize_audio (py "af_nicole") catalog engine encode
            (Some (py " hi ")) None w)
     = inr ([1; 2; 3], py "af_nicole").
Proof.
  cbv zeta. split; [repeat split; try (vm_compute; reflexivity); discriminate|].
  edestruct (synthesis_first_try (py "af_nicole")
               {[ py "af_nicole" := VoiceInfo (py "a") ]}
               (fun _ _ _ => ([[1; 2]; []; [3]]%nat, @None error))
               (fun samples : list nat => map N.of_nat samples)
               (Some (py " hi ")) None (World ∅ 0 [])
               (py "af_nicole") (py "a") [[1; 2]; []; [3]]%nat)
    as [H _]; [vm_compute; reflexivity ..|discriminate|].
  rewrite H. reflexivity.
Defined.

Lemma synthesize_audio_keeps_cache_witness :
  let catalog : gmap str voice_info := {[ py "af_nicole" := VoiceInfo (py "a") ]} in
  let engine := fun (_ : pipeline) (_ _ : str) =>
    (@nil (list nat), Some (OtherError (py "boom"))) in
  let encode := fun _ : list nat => py "UklGRg" in
  let w := World (<[py "a" := KPipeline (py "a") 0]>
                    (<[py "b" := KPipeline (py "b") 1]> ∅)) 2 [] in
  cache_ok w
  /\ cache_ok (snd (synthesize_audio (py "af_nicole") catalog engine encode
                      (Some (py "hi")) None w)).
Proof.
  cbv zeta.
  assert (H : cache_ok (World (<[py "a" := KPipeline (py "a") 0]>
                                 (<[py "b" := KPipeline (py "b") 1]> ∅)) 2 [])).
  { refine (cache_ok_insert (World (<[py "b" := KPipeline (py "b") 1]> ∅) 2 [])
              (py "a") (KPipeline (py "a") 0) 2 [] _ eq_refl _ _);
      [|cbn; lia|cbn; lia].
    refine (cache_ok_insert (World ∅ 2 []) (py "b") (KPipeline (py "b") 1) 2 []
              _ eq_refl _ _); [|cbn; lia|cbn; lia].
    apply cache_ok_empty. }
  split; [exact H|].
  apply (synthesize_audio_keeps_cache (py "af_nicole")
           {[ py "af_nicole" := VoiceInfo (py "a") ]}
           (fun _ _ _ => (@nil (list nat), Some (OtherError (py "boom"))))
           (fun _ => py "UklGRg") (Some (py "hi")) None _ H).
Defined.

Lemma retry_pipeline_is_new_witness :
  let catalog : gmap str voice_info := {[ py "af_nicole" := VoiceInfo (py "a") ]} in
  let engine := fun (_ : pipeline) (_ _ : str) =>
    (@nil (list nat), Some (OtherError (py "boom"))) in
  let encode := fun _ : list nat => py "UklGRg" in
  let w := World (<[py "a" := KPipeline (py "a") 0]> ∅) 1 [] in
  cache_ok w
  /\ engine_calls (trace (snd (synthesize_audio (py "af_nicole") catalog engine encode
                                 (Some (py "hi")) None w)))
     = [KPipeline (py "a") 0; KPipeline (py "a") 1]
  /\ KPipeline (py "a") 1 <> KPipeline (py "a") 0.
Proof.
  cbv zeta.
  assert (H : cache_ok (World (<[py "a" := KPipeline (py "a") 0]> ∅) 1 [])).
  { refine (cache_ok_insert (World ∅ 1 []) (py "a") (KPipeline (py "a") 0) 1 []
              _ eq_refl _ _); [|cbn; lia|cbn; lia].
    apply cache_ok_empty. }
  split; [exact H|]. split; [vm_compute; reflexivity|].
  edestruct (retry_pipeline_is_new (py "af_nicole")
               {[ py "af_nicole" := VoiceInfo (py "a") ]}
               (fun _ _ _ => (@nil (list nat), Some (OtherError (py "boom"))))
               (fun _ => py "UklGRg") (Some (py "hi")) None _
               (trace (snd (synthesize_audio (py "af_nicole")
                              {[ py "af_nicole" := VoiceInfo (py "a") ]}
                              (fun _ _ _ => (@nil (list nat), Some (OtherError (py "boom"))))
                              (fun _ => py "UklGRg") (Some (py "hi")) None
                              (World (<[py "a" := KPipeline (py "a") 0]> ∅) 1 []))))
               (KPipeline (py "a") 0) (KPipeline (py "a") 1) H) as [Hne _].
  - reflexivity.
  - vm_compute. reflexivity.
  - exact Hne.
Defined.
Import Server App Session SynthSpec.

(** ** The model list *)

Section ModelsProps.

Context {time : Type}.
Variable within_ttl : time -> time -> bool.
Variable LMSTUDIO_MODEL_NAME : option str.

Local Abbreviation available_models := (available_models within_ttl LMSTUDIO_MODEL_NAME).
Local Abbreviation resolve_model_name := (resolve_model_name within_ttl LMSTUDIO_MODEL_NAME).

Lemma given_truthy o s : given o = Some s -> truthy s = true.
Proof.
  unfold given. destruct o as [x|]; [|discriminate].
  destruct (truthy x) eqn:E; [|discriminate]. intros [= <-]. exact E.
Qed.

Lemma some_false {A} (l : list A) : some l = false -> l = [].
Proof. destruct l; [reflexivity|discriminate]. Qed.

Lemma fetch_ids_truthy response :
  forallb truthy (_fetch_lmstudio_models response) = true.
Proof.
  unfold _fetch_lmstudio_models. destruct response as [e|data]; [reflexivity|].
  induction (default [] data) as [|[i|] l IH]; cbn [flat_map]; [reflexivity| |exact IH].
  destruct (truthy i) eqn:E; [|exact IH]. cbn. rewrite E. exact IH.
Qed.

(** X10: When the backend cannot be reached or lists no model, and no model is
    configured, [available_models] answers with the cached list, expired
    or not, forced or not, and leaves the cache as it is. *)
Theorem backend_down_serves_cache (force_refresh : bool) (now : time)
    (response : listing) (cache : model_cache) :
  given LMSTUDIO_MODEL_NAME = None ->
  _fetch_lmstudio_models response = [] ->
  let m := available_models force_refresh now response cache in
  models_of m = cache_models cache /\ cache_after m = cache.
Proof.
  intros Hn Hf. cbv zeta. unfold App.available_models. rewrite Hn, Hf.
  destruct (negb force_refresh && some (cache_models cache)
            && within_ttl now (cache_ts cache)); cbn; auto.
Qed.

(** Truthy ids and a non-empty list are kept by [available_models]. *)
Lemma available_models_truthy (force_refresh : bool) (now : time)
    (response : listing) (cache : model_cache) :
  let m := available_models force_refresh now response cache in
  (forallb truthy (cache_models cache) = true ->
   forallb truthy (models_of m) = true
   /\ forallb truthy (cache_models (cache_after m)) = true)
  /\ (some (cache_models cache) = true ->
      some (models_of m) = true /\ some (cache_models (cache_after m)) = true).
Proof.
  cbv zeta. unfold App.available_models.
  destruct (given LMSTUDIO_MODEL_NAME) as [name|] eqn:Hn.
  - cbn. rewrite (given_truthy _ _ Hn). auto.
  - destruct (negb force_refresh && some (cache_models cache)
              && within_ttl now (cache_ts cache)); cbn [models_of cache_after].
    + auto.
    + pose proof (fetch_ids_truthy response) as Hf.
      destruct (_fetch_lmstudio_models response) as [|i l]; cbn [some models_of
        cache_after cache_models]; auto.
Qed.

(** X11: The cache is only ever replaced by a non-empty list of non-empty ids,
    and so are the results: once a model is known, some model is always
    returned. *)
Theorem models_cache_kept (force_refresh : bool) (now : time)
    (response : listing) (cache : model_cache) :
  let m := available_models force_refresh now response cache in
  (forallb truthy (cache_models cache) = true ->
   forallb truthy (models_of m) = true
   /\ forallb truthy (cache_models (cache_after m)) = true)
  /\ (some (cache_models cache) = true ->
      some (models_of m) = true /\ some (cache_models (cache_after m)) = true).
Proof. exact (available_models_truthy force_refresh now response cache). Qed.

(** X12: A list fetched at [ts] is served again, without asking the backend,
    by every unforced call made while [now - ts < MODEL_CACHE_TTL]. *)
Theorem fetched_models_are_reused (force_refresh : bool) (ts now : time)
    (response response' : listing) (cache : model_cache) :
  let m := available_models force_refresh ts response cache in
  let m' := available_models false now response' (cache_after m) in
  asked m = true ->
  some (_fetch_lmstudio_models response) = true ->
  within_ttl now ts = true ->
  models_of m = _fetch_lmstudio_models response
  /\ models_of m' = models_of m
  /\ asked m' = false
  /\ cache_after m' = cache_after m.
Proof.
  cbv zeta. unfold App.available_models.
  destruct (given LMSTUDIO_MODEL_NAME) as [name|]; [discriminate|].
  destruct (negb force_refresh && some (cache_models cache)
            && within_ttl ts (cache_ts cache)); [discriminate|].
  intros _ Hs Hw. rewrite Hs. cbn [models_of cache_after cache_models cache_ts negb].
  rewrite Hs, Hw. cbn. auto.
Qed.

(** X13: [resolve_model_name] raises exactly when nothing is known: no model
    requested, none configured, none cached and none listed by the
    backend.  Otherwise it returns a model whose name is not empty, as long
    as the cached names are not. *)
Theorem resolve_model_name_spec (requested : option str) (now : time)
    (response : listing) (cache : model_cache) :
  let r := fst (fst (resolve_model_name requested now response cache)) in
  (r = inl (RuntimeError (py "No LM Studio model is currently loaded.") None)
   <-> given requested = None /\ given LMSTUDIO_MODEL_NAME = None
       /\ cache_models cache = [] /\ _fetch_lmstudio_models response = [])
  /\ (forall e, r = inl e ->
        e = RuntimeError (py "No LM Studio model is currently loaded.") None)
  /\ (forall name, r = inr name ->
        forallb truthy (cache_models cache) = true -> truthy name = true).
Proof.
  cbv zeta. unfold App.resolve_model_name.
  destruct (given requested) as [req|] eqn:Hr.
  - cbn. split; [split; [discriminate|intros [? _]; discriminate]|].
    split; [discriminate|]. intros name [= <-] _. apply (given_truthy _ _ Hr).
  - pose proof (available_models_truthy false now response cache) as [Hk _]. cbv zeta in Hk.
    unfold App.available_models in *.
    destruct (given LMSTUDIO_MODEL_NAME) as [name|] eqn:Hn.
    + cbn. split; [split; [discriminate|intros [_ [? _]]; discriminate]|].
      split; [discriminate|]. intros n [= <-] _. apply (given_truthy _ _ Hn).
    + destruct (cache_models cache) as [|c cs] eqn:Hc.
      * cbn [negb some andb].
        destruct (_fetch_lmstudio_models response) as [|i l] eqn:Hf;
          cbn [some models_of fst].
        -- split; [split; auto|]. split; [intros e [= <-]; reflexivity|discriminate].
        -- split; [split; [discriminate|intros [_ [_ [_ ?]]]; discriminate]|].
           split; [discriminate|]. intros n [= <-] Hok.
           destruct (Hk Hok) as [H _]. cbn in H. apply andb_true_iff in H. tauto.
      * destruct (negb false && some (c :: cs) && within_ttl now (cache_ts cache));
          cbn [models_of fst] in *.
        -- split; [split; [discriminate|intros [_ [_ [? _]]]; discriminate]|].
           split; [discriminate|]. intros n [= <-] Hok.
           cbn in Hok. apply andb_true_iff in Hok. tauto.
        -- destruct (_fetch_lmstudio_models response) as [|i l] eqn:Hf;
             cbn [some models_of fst] in *.
           ++ split; [split; [discriminate|intros [_ [_ [? _]]]; discriminate]|].
              split; [discriminate|]. intros n [= <-] Hok.
              cbn in Hok. apply andb_true_iff in Hok. tauto.
           ++ split; [split; [discriminate|intros [_ [_ [? _]]]; discriminate]|].
              split; [discriminate|]. intros n [= <-] Hok.
              destruct (Hk Hok) as [H _]. cbn in H. apply andb_true_iff in H. tauto.
Qed.

End ModelsProps.

Lemma backend_down_serves_cache_witness :
  let within_ttl := fun now ts : nat => (now - ts <? 30)%nat in
  let cache := ModelCache 100%nat [py "qwen"] in
  (given None = None
   /\ _fetch_lmstudio_models (inl (OtherError (py "refused"))) = [])
  /\ models_of (available_models within_ttl None true 500%nat
                  (inl (OtherError (py "refused"))) cache) = [py "qwen"].
Proof.
  cbv zeta. split; [split; reflexivity|].
  apply (backend_down_serves_cache (fun now ts : nat => (now - ts <? 30)%nat)
           None true 500%nat (inl (OtherError (py "refused")))
           (ModelCache 100%nat [py "qwen"]) eq_refl eq_refl).
Defined.

Lemma models_cache_kept_witness :
  let within_ttl := fun now ts : nat => (now - ts <? 30)%nat in
  let cache := ModelCache 100%nat [py "qwen"] in
  let response : listing := inr (Some [Some (py ""); None; Some (py "phi")]) in
  forallb truthy (cache_models cache) = true
  /\ forallb truthy (models_of (available_models within_ttl None true 500%nat
                                  response cache)) = true.
Proof.
  cbv zeta. split; [reflexivity|].
  apply (models_cache_kept (fun now ts : nat => (now - ts <? 30)%nat)
           None true 500%nat (inr (Some [Some (py ""); None; Some (py "phi")]))
           (ModelCache 100%nat [py "qwen"])).
  reflexivity.
Defined.

Lemma fetched_models_are_reused_witness :
  let within_ttl := fun now ts : nat => (now - ts <? 30)%nat in
  let cache := ModelCache 0%nat [] in
  let response : listing := inr (Some [Some (py "phi")]) in
  let m := available_models within_ttl None false 100%nat response cache in
  (asked m = true
   /\ some (_fetch_lmstudio_models response) = true
   /\ within_ttl 120%nat 100%nat = true)
  /\ asked (available_models within_ttl None false 120%nat
              (inl (OtherError (py "refused"))) (cache_after m)) = false.
Proof.
  cbv zeta. split; [repeat split|].
  apply (fetched_models_are_reused (fun now ts : nat => (now - ts <? 30)%nat)
           None false 100%nat 120%nat (inr (Some [Some (py "phi")]))
           (inl (OtherError (py "refused"))) (ModelCache 0%nat []));
    reflexivity.
Defined.

Lemma resolve_model_name_spec_witness :
  let within_ttl := fun now ts : nat => (now - ts <? 30)%nat in
  let cache := ModelCache 0%nat [] in
  (given (Some (py "")) = None /\ given None = None
   /\ cache_models cache = []
   /\ _fetch_lmstudio_models (inl (OtherError (py "refused"))) = [])
  /\ fst (fst (resolve_model_name within_ttl None (Some (py "")) 5%nat
                 (inl (OtherError (py "refused"))) cache))
     = inl (RuntimeError (py "No LM Studio model is currently loaded.") None).
Proof.
  cbv zeta. split; [repeat split|].
  apply (resolve_model_name_spec (fun now ts : nat => (now - ts <? 30)%nat)
           None (Some (py "")) 5%nat (inl (OtherError (py "refused")))
           (ModelCache 0%nat [])).
  repeat split.
Defined.
Import Server App Session SynthSpec.

(** ** The voice catalog and the default voice *)

Lemma dict_get_set {V} (k k' : str) (v : V) (d : dict V) :
  dict_get k' (dict_set k v d) = if decide (k' = k) then Some v else dict_get k' d.
Proof.
  induction d as [|[k0 v0] d IH]; cbn [dict_set dict_get].
  - destruct (decide (k' = k)); reflexivity.
  - destruct (decide (k = k0)) as [->|Hne]; cbn [dict_get].
    + destruct (decide (k' = k0)); reflexivity.
    + destruct (decide (k' = k0)) as [->|Hne'].
      * destruct (decide (k0 = k)); [congruence|reflexivity].
      * exact IH.
Qed.

Lemma dict_keys_set {V} (k : str) (v : V) (d : dict V) :
  dict_keys (dict_set k v d)
  = if dict_has k d then dict_keys d else dict_keys d ++ [k].
Proof.
  unfold dict_has. induction d as [|[k0 v0] d IH]; cbn [dict_set dict_get dict_keys map fst];
    [reflexivity|].
  destruct (decide (k = k0)) as [->|Hne]; [reflexivity|].
  cbn [map fst]. fold (dict_keys (dict_set k v d)). rewrite IH.
  destruct (dict_get k d); reflexivity.
Qed.

Lemma dict_get_keys {V} (k : str) (d : dict V) :
  dict_get k d = None <-> k ∉ dict_keys d.
Proof.
  induction d as [|[k0 v0] d IH]; cbn [dict_get dict_keys map fst].
  - split; [intros _ H; inversion H|reflexivity].
  - destruct (decide (k = k0)) as [->|Hne].
    + split; [discriminate|]. intros H. exfalso. apply H. left.
    + rewrite IH. split.
      * intros H [?|?]%elem_of_cons; [congruence|]. apply H. assumption.
      * intros H ?. apply H. right. assumption.
Qed.

Lemma dict_set_NoDup {V} (k : str) (v : V) (d : dict V) :
  NoDup (dict_keys d) -> NoDup (dict_keys (dict_set k v d)).
Proof.
  intros H. rewrite dict_keys_set. unfold dict_has.
  destruct (dict_get k d) eqn:E; [assumption|].
  apply NoDup_app. split; [assumption|]. split; [|apply NoDup_singleton].
  intros x Hx ->%list_elem_of_singleton. apply dict_get_keys in E. contradiction.
Qed.

(** The map [get_voice_info] reads holds what the dictionary holds. *)
Lemma as_map_lookup {V} (d : dict V) (k : str) : as_map d !! k = dict_get k d.
Proof.
  unfold as_map. induction d as [|[k0 v0] d IH]; cbn [list_to_map foldr dict_get].
  - apply lookup_empty.
  - cbn. rewrite lookup_insert. destruct (decide (k0 = k)) as [->|Hne].
    + destruct (decide (k = k)); [reflexivity|congruence].
    + destruct (decide (k = k0)); [congruence|exact IH].
Qed.

(** *** What a row gives *)

Lemma split_bar_fields s field :
  field ∈ split_bar s -> forall c, c ∈ field -> c ∈ s /\ c <> 124.
Proof.
  revert field. induction s as [|x s IH]; intros field; cbn [split_bar].
  - intros ->%list_elem_of_singleton c H. inversion H.
  - destruct (N.eqb_spec x 124) as [->|Hx].
    + intros [->|H]%elem_of_cons c Hc; [inversion Hc|].
      destruct (IH field H c Hc). split; [right|]; assumption.
    + destruct (split_bar s) as [|f fs] eqn:E.
      * intros ->%list_elem_of_singleton c ->%list_elem_of_singleton.
        split; [left|assumption].
      * intros [->|H]%elem_of_cons c Hc.
        -- apply elem_of_cons in Hc as [->|Hc]; [split; [left|assumption]|].
           destruct (IH f (list_elem_of_here _ _) c Hc). split; [right|]; assumption.
        -- destruct (IH field (list_elem_of_further _ _ _ H) c Hc).
           split; [right|]; assumption.
Qed.

Lemma inner_subset {A} (l : list A) x : x ∈ inner l -> x ∈ l.
Proof.
  unfold inner. destruct l as [|a l]; cbn [tail]; [intros H; inversion H|].
  intros H. right. revert H. induction l as [|b l IH]; cbn; [intros H; inversion H|].
  destruct l as [|c l]; [intros H; inversion H|].
  intros [->|H]%elem_of_cons; [left|right; apply IH, H].
Qed.

Lemma strip_subset s c : c ∈ strip s -> c ∈ s.
Proof.
  intros H. destruct (strip_split s) as [w1 [w2 [_ [_ E]]]]. rewrite E.
  apply elem_of_app. right. apply elem_of_app. left. exact H.
Qed.

Lemma unescape_subset s : forall c, c ∈ unescape_underscore s -> c ∈ s.
Proof.
  remember (length s) as n eqn:Hn. revert s Hn.
  induction n as [n IH] using lt_wf_ind. intros s -> c.
  destruct s as [|x [|u s]]; cbn [unescape_underscore]; try tauto.
  destruct ((x =? 92) && (u =? 95)) eqn:E.
  - apply andb_true_iff in E as [_ ->%N.eqb_eq].
    intros [->|H]%elem_of_cons; [right; left|].
    right. right. eapply IH; [|reflexivity|exact H]. cbn. lia.
  - intros [->|H]%elem_of_cons; [left|].
    right. eapply IH; [|reflexivity|exact H]. cbn. lia.
Qed.

Lemma drop_emphasis_chars s c :
  c ∈ drop_emphasis s -> c ∈ s /\ c <> 96 /\ c <> 42.
Proof.
  unfold drop_emphasis. rewrite !list_elem_of_In, filter_In.
  intros [H Hc]. split; [assumption|].
  apply negb_true_iff, orb_false_iff in Hc as [H1 H2].
  apply N.eqb_neq in H1, H2. auto.
Qed.

(** The name of a row is not empty, is trimmed, is not [name] in any case,
    and holds no bar, backquote or asterisk. *)
Lemma row_name_ok line name :
  row_name line = Some name ->
  truthy name = true /\ strip name = name /\ lower_is_name name = false
  /\ forall c, c ∈ name -> c <> 124 /\ c <> 96 /\ c <> 42.
Proof.
  unfold row_name.
  destruct (negb (startswith (py "|") line) || startswith (py "| Name") line
            || startswith (py "| ----") line); [discriminate|].
  destruct (inner (split_bar line)) as [|cell cells] eqn:E; [discriminate|].
  cbn [map].
  destruct (truthy (strip (unescape_underscore (drop_emphasis (strip cell))))) eqn:T;
    [|discriminate].
  destruct (lower_is_name (strip (unescape_underscore (drop_emphasis (strip cell)))))
    eqn:L; [discriminate|].
  cbn [negb orb]. intros [= <-]. split; [exact T|]. split; [apply strip_strip|].
  split; [exact L|]. intros c Hc.
  apply strip_subset, unescape_subset, drop_emphasis_chars in Hc as [Hc [H1 H2]].
  apply strip_subset in Hc.
  assert (Hcell : cell ∈ split_bar line).
  { apply inner_subset. rewrite E. left. }
  destruct (split_bar_fields line cell Hcell c Hc). auto.
Qed.

Lemma lang_match_here_letter s x : lang_match_here s = Some x -> is_lang_letter x = true.
Proof.
  unfold lang_match_here.
  destruct s as [|c1 [|c2 [|c3 [|c4 [|c5 [|c6 [|c7 [|c8 [|c9 [|c10 [|c11 [|c12 [|c13 s]]]]]]]]]]]]];
    try discriminate.
  destruct (_ && _) eqn:E; [|discriminate]. intros [= <-].
  apply andb_true_iff in E as [E _]. apply andb_true_iff in E as [_ E]. exact E.
Qed.

Lemma lang_search_letter line x : lang_search line = Some x -> is_lang_letter x = true.
Proof.
  induction line as [|c line IH]; cbn [lang_search].
  - destruct (lang_match_here []) eqn:E; [|discriminate].
    intros [= <-]. eapply lang_match_here_letter, E.
  - destruct (lang_match_here (c :: line)) eqn:E.
    + intros [= <-]. eapply lang_match_here_letter, E.
    + exact IH.
Qed.
Import Server App Session SynthSpec CatalogSpec.

(** *** The parser *)

(** A blank line holds neither a marker nor a row, so the loop body is the
    search for a marker, then for a row. *)
Lemma parse_line_cases voices lang_code raw :
  parse_line (voices, lang_code) raw
  = match lang_search (strip raw) with
    | Some x => (voices, [x])
    | None =>
        match row_name (strip raw) with
        | Some name => (dict_set name (VoiceInfo lang_code) voices, lang_code)
        | None => (voices, lang_code)
        end
    end.
Proof.
  unfold parse_line. destruct (strip raw) as [|c s]; reflexivity.
Qed.

Lemma parse_line_ok fallback voices lang_code raw :
  catalog_ok fallback voices -> lang_ok fallback lang_code ->
  catalog_ok fallback (fst (parse_line (voices, lang_code) raw))
  /\ lang_ok fallback (snd (parse_line (voices, lang_code) raw)).
Proof.
  intros [Hnd Hok] Hl. rewrite parse_line_cases.
  destruct (lang_search (strip raw)) as [x|] eqn:Es.
  - split; [split; assumption|]. right. exists x. split; [|reflexivity].
    eapply lang_search_letter, Es.
  - destruct (row_name (strip raw)) as [name|] eqn:Er; [|split; [split|]; assumption].
    split; [|assumption]. split; [apply dict_set_NoDup, Hnd|].
    intros n info. cbn [fst]. rewrite dict_get_set.
    destruct (decide (n = name)) as [->|_]; [|apply Hok].
    intros [= <-]. split; [eapply row_name_ok, Er|exact Hl].
Qed.

Lemma parse_lines_ok fallback lines : forall voices lang_code,
  catalog_ok fallback voices -> lang_ok fallback lang_code ->
  catalog_ok fallback (fst (fold_left parse_line lines (voices, lang_code))).
Proof.
  induction lines as [|raw lines IH]; intros voices lang_code Hc Hl; [exact Hc|].
  cbn [fold_left]. destruct (parse_line_ok fallback voices lang_code raw Hc Hl) as [H1 H2].
  destruct (parse_line (voices, lang_code) raw) as [v l]. apply IH; assumption.
Qed.

(** What every parsed catalog satisfies. *)
Lemma parse_catalog_invariant (file : option (list str)) (fallback : str) :
  catalog_ok fallback (_parse_voice_catalog file fallback)
  /\ (file = None -> _parse_voice_catalog file fallback = []).
Proof.
  split; [|intros ->; reflexivity].
  assert (H0 : catalog_ok fallback []).
  { split; [apply NoDup_nil_2|]. intros name info. discriminate. }
  destruct file as [lines|]; [|exact H0].
  apply parse_lines_ok; [exact H0|left; reflexivity].
Qed.

(** X1: Whatever the file holds, the catalog read from it has each name once;
    every name is not empty, trimmed, not [name], and free of bars,
    backquotes and asterisks; and every language code is the fallback or
    the letter of a marker.  A missing file gives the empty catalog. *)
Theorem parsed_catalog_ok (file : option (list str)) (fallback : str) :
  catalog_ok fallback (_parse_voice_catalog file fallback)
  /\ (file = None -> _parse_voice_catalog file fallback = []).
Proof. exact (parse_catalog_invariant file fallback). Qed.

(** Rows without a marker among them all get the current language code,
    and the other entries stay as they are. *)
Lemma parse_rows rows : forall voices lang_code,
  (forall r, r ∈ rows -> lang_search (strip r) = None) ->
  snd (fold_left parse_line rows (voices, lang_code)) = lang_code
  /\ forall name,
       ((exists r, r ∈ rows /\ row_name (strip r) = Some name) ->
        dict_get name (fst (fold_left parse_line rows (voices, lang_code)))
        = Some (VoiceInfo lang_code))
       /\ ((forall r, r ∈ rows -> row_name (strip r) <> Some name) ->
           dict_get name (fst (fold_left parse_line rows (voices, lang_code)))
           = dict_get name voices).
Proof.
  induction rows as [|raw rows IH] using rev_ind; intros voices lang_code Hno.
  - split; [reflexivity|]. intros name. split; [|reflexivity].
    intros [r [H _]]. inversion H.
  - rewrite fold_left_app. cbn [fold_left].
    assert (Hno' : forall r, r ∈ rows -> lang_search (strip r) = None).
    { intros r Hr. apply Hno, elem_of_app. left. exact Hr. }
    destruct (IH voices lang_code Hno') as [I1 I2].
    destruct (fold_left parse_line rows (voices, lang_code)) as [v l].
    cbn [fst snd] in I1, I2. subst l.
    rewrite parse_line_cases, (Hno raw) by (apply elem_of_app; right; left).
    destruct (row_name (strip raw)) as [n|] eqn:Er; cbn [fst snd].
    + split; [reflexivity|]. intros name. rewrite dict_get_set. split.
      * intros [r [Hr Hn]]. destruct (decide (name = n)); [reflexivity|].
        apply I2. apply elem_of_app in Hr as [Hr| ->%list_elem_of_singleton];
          [eauto|congruence].
      * intros Hnone. destruct (decide (name = n)) as [->|_].
        -- exfalso. apply (Hnone raw); [apply elem_of_app; right; left|exact Er].
        -- apply I2. intros r Hr. apply Hnone, elem_of_app. left. exact Hr.
    + split; [reflexivity|]. intros name. split.
      * intros [r [Hr Hn]]. apply I2.
        apply elem_of_app in Hr as [Hr| ->%list_elem_of_singleton]; [eauto|congruence].
      * intros Hnone. apply I2. intros r Hr. apply Hnone, elem_of_app. left. exact Hr.
Qed.

Lemma no_marker_all rows :
  forallb no_marker rows = true -> forall r, r ∈ rows -> lang_search (strip r) = None.
Proof.
  intros H r Hr%list_elem_of_In. rewrite forallb_forall in H. specialize (H r Hr).
  unfold no_marker in H. destruct (lang_search (strip r)); [discriminate|reflexivity].
Qed.

(** X2: A voice whose row comes after a marker, with no other marker after
    that one, has the letter of the marker as its language code, whatever
    came before. *)
Theorem voice_takes_last_marker
    (before rows : list str) (marker row : str) (x : char) (i : nat)
    (name fallback : str) :
  lang_search (strip marker) = Some x ->
  forallb no_marker rows = true ->
  rows !! i = Some row ->
  row_name (strip row) = Some name ->
  dict_get name (_parse_voice_catalog (Some (before ++ marker :: rows)) fallback)
  = Some (VoiceInfo [x]).
Proof.
  intros Hm Hno Hr%list_elem_of_lookup_2 Hn. unfold _parse_voice_catalog.
  pose proof (no_marker_all rows Hno) as Hno'. clear Hno. rename Hno' into Hno.
  rewrite fold_left_app. cbn [fold_left].
  destruct (fold_left parse_line before ([], fallback)) as [v l].
  rewrite parse_line_cases, Hm.
  destruct (parse_rows rows v [x] Hno) as [_ H]. apply H. eauto.
Qed.

Lemma parse_rows_uniform rows : forall voices lang_code,
  (forall r, r ∈ rows -> lang_search (strip r) = None) ->
  (forall name info, dict_get name voices = Some info -> info = VoiceInfo lang_code) ->
  forall name info,
    dict_get name (fst (fold_left parse_line rows (voices, lang_code))) = Some info ->
    info = VoiceInfo lang_code.
Proof.
  induction rows as [|raw rows IH]; intros voices lang_code Hno Hall; [exact Hall|].
  cbn [fold_left]. rewrite parse_line_cases, (Hno raw) by left.
  assert (Hno' : forall r, r ∈ rows -> lang_search (strip r) = None).
  { intros r Hr. apply Hno. right. exact Hr. }
  destruct (row_name (strip raw)) as [n|]; [|apply IH; assumption].
  apply IH; [assumption|]. intros name info. rewrite dict_get_set.
  destruct (decide (name = n)); [intros [= <-]; reflexivity|apply Hall].
Qed.

(** X3: Without any marker in the file, every voice has the fallback code. *)
Theorem voices_without_marker (lines : list str) (fallback name : str) (info : voice_info) :
  forallb no_marker lines = true ->
  dict_get name (_parse_voice_catalog (Some lines) fallback) = Some info ->
  info = VoiceInfo fallback.
Proof.
  intros Hno. unfold _parse_voice_catalog.
  apply parse_rows_uniform; [exact (no_marker_all lines Hno)|]. intros n i. discriminate.
Qed.
Import Server App Session SynthSpec CatalogSpec.

(** *** Start-up *)

Lemma dict_has_first {V} (d : dict V) first rest :
  dict_keys d = first :: rest -> dict_has first d = true.
Proof.
  destruct d as [|[k v] d]; [discriminate|]. cbn. intros [= -> _].
  unfold dict_has. cbn. destruct (decide (first = first)); [reflexivity|congruence].
Qed.

Lemma dict_has_set {V} (k : str) (v : V) (d : dict V) : dict_has k (dict_set k v d) = true.
Proof.
  unfold dict_has. rewrite dict_get_set. destruct (decide (k = k)); [reflexivity|congruence].
Qed.

(** The default voice and the catalog after start-up. *)
Lemma startup_catalog
    (env_voice : option str) (fallback : str) (parsed : dict voice_info) :
  let DEFAULT_VOICE := fst (startup env_voice fallback parsed) in
  let voice_catalog := snd (startup env_voice fallback parsed) in
  dict_has DEFAULT_VOICE voice_catalog = true
  /\ (parsed <> [] -> voice_catalog = parsed)
  /\ (parsed = [] -> voice_catalog = [(DEFAULT_VOICE, VoiceInfo fallback)]
                     /\ DEFAULT_VOICE <> [])
  /\ (dict_has (default (py "af_nicole") env_voice) parsed = true ->
      DEFAULT_VOICE = default (py "af_nicole") env_voice).
Proof.
  cbv zeta. unfold startup.
  destruct (dict_has (default (py "af_nicole") env_voice) parsed) eqn:H0; cbn [negb fst snd].
  - split; [exact H0|]. split; [reflexivity|]. split; [|reflexivity].
    intros ->. discriminate.
  - destruct (dict_keys parsed) as [|first rest] eqn:K.
    + assert (parsed = []) as -> by (destruct parsed; [reflexivity|discriminate]).
      set (D := if truthy (default (py "af_nicole") env_voice)
                then default (py "af_nicole") env_voice else py "af_nicole").
      assert (HD : D <> []).
      { unfold D. destruct (default (py "af_nicole") env_voice); discriminate. }
      cbn [dict_has dict_get negb fst snd dict_set].
      split; [unfold dict_has; cbn; destruct (decide (D = D)); [reflexivity|congruence]|].
      split; [congruence|]. split; [auto|discriminate].
    + rewrite (dict_has_first parsed first rest K). cbn [negb fst snd].
      split; [apply (dict_has_first parsed first rest K)|].
      split; [reflexivity|]. split; [|discriminate].
      intros ->. discriminate.
Qed.

(** X4: After start-up the default voice is a key of the catalog; the catalog
    is the parsed one, with the default voice added when the parsed one is
    empty and with nothing else added or changed. *)
Theorem startup_default_in_catalog
    (env_voice : option str) (fallback : str) (parsed : dict voice_info) :
  let DEFAULT_VOICE := fst (startup env_voice fallback parsed) in
  let voice_catalog := snd (startup env_voice fallback parsed) in
  dict_has DEFAULT_VOICE voice_catalog = true
  /\ (parsed <> [] -> voice_catalog = parsed)
  /\ (parsed = [] -> voice_catalog = [(DEFAULT_VOICE, VoiceInfo fallback)]
                     /\ DEFAULT_VOICE <> [])
  /\ (dict_has (default (py "af_nicole") env_voice) parsed = true ->
      DEFAULT_VOICE = default (py "af_nicole") env_voice).
Proof. exact (startup_catalog env_voice fallback parsed). Qed.

(** X5: The catalog read from any file, after start-up with any setting of
    [KOKORO_VOICE], serves the requests that name no voice, or the empty
    one, with the default voice, unless the file gave no voice and the
    setting has white space around it. *)
Theorem default_voice_resolves
    (env_voice : option str) (fallback : str) (file : option (list str)) :
  let parsed := _parse_voice_catalog file fallback in
  let DEFAULT_VOICE := fst (startup env_voice fallback parsed) in
  let voice_catalog := as_map (snd (startup env_voice fallback parsed)) in
  parsed <> [] \/ strip (default (py "af_nicole") env_voice)
                 = default (py "af_nicole") env_voice ->
  exists lang_code,
    get_voice_info DEFAULT_VOICE voice_catalog None = inr (DEFAULT_VOICE, lang_code)
    /\ get_voice_info DEFAULT_VOICE voice_catalog (Some []) = inr (DEFAULT_VOICE, lang_code).
Proof.
  cbv zeta. intros Hyp.
  destruct (parse_catalog_invariant file fallback) as [[_ Hok] _].
  destruct (startup_catalog env_voice fallback
              (_parse_voice_catalog file fallback)) as [Hin [Hsame [Hnew Henv]]].
  cbv zeta in Hin, Hsame, Hnew, Henv.
  set (D := fst (startup env_voice fallback (_parse_voice_catalog file fallback))) in *.
  set (cat := snd (startup env_voice fallback (_parse_voice_catalog file fallback))) in *.
  assert (Htrim : strip D = D).
  { destruct (_parse_voice_catalog file fallback) as [|e parsed] eqn:P.
    - destruct Hyp as [?|Hyp]; [congruence|].
      unfold D, startup. cbn [dict_has dict_get negb dict_keys map fst snd].
      destruct (default (py "af_nicole") env_voice) eqn:E; [reflexivity|exact Hyp].
    - assert (Hc : cat = e :: parsed) by (apply Hsame; discriminate).
      unfold dict_has in Hin. rewrite Hc in Hin.
      destruct (dict_get D (e :: parsed)) as [info|] eqn:G; [|discriminate].
      destruct (Hok D info G) as [[_ [Ht _]] _]. exact Ht. }
  unfold dict_has in Hin. destruct (dict_get D cat) as [info|] eqn:G; [|discriminate].
  exists (lang info). unfold get_voice_info, or_default. cbn [truthy].
  rewrite Htrim, as_map_lookup, G. auto.
Qed.
Import Server App Session SynthSpec CatalogSpec.

(** A catalog file in the format of [VOICES.md], read as the interpreter
    reads it. *)
Example parse_voices_md :
  _parse_voice_catalog
    (Some (map (fun line => line ++ [10])
             [py "### American English";
              py "- `lang_code='a'` in misaki";
              py "";
              py "| Name | Traits | Target Quality |";
              py "| ---- | ------ | -------------- |";
              py "| **af\_heart** | x | **A** |";
              py "| af\_bella | y | A- |";
              py "### British English";
              py "- `lang_code='b'`";
              py "| Name | Traits |";
              py "| ---- | ------ |";
              py "| bf\_emma | z |"]))
    (py "a")
  = [(py "af_heart", VoiceInfo (py "a")); (py "af_bella", VoiceInfo (py "a"));
     (py "bf_emma", VoiceInfo (py "b"))].
Proof. vm_compute. reflexivity. Qed.

Lemma parsed_catalog_ok_witness :
  @None (list str) = None /\ _parse_voice_catalog None (py "a") = [].
Proof.
  split; [reflexivity|].
  destruct (parsed_catalog_ok None (py "a")) as [_ H]. apply H. reflexivity.
Defined.

Lemma voice_takes_last_marker_witness :
  let before := [py "- `lang_code='a'`"; py "| af\_bella | y |"] in
  let marker := py "- `lang_code='b'`" ++ [10] in
  let rows := [py "| Name | Traits |"; py "| af\_bella | again |" ++ [10]] in
  (lang_search (strip marker) = Some 98
   /\ forallb no_marker rows = true
   /\ rows !! 1%nat = Some (py "| af\_bella | again |" ++ [10])
   /\ row_name (strip (py "| af\_bella | again |" ++ [10])) = Some (py "af_bella"))
  /\ dict_get (py "af_bella")
       (_parse_voice_catalog (Some (before ++ marker :: rows)) (py "a"))
     = Some (VoiceInfo (py "b")).
Proof.
  cbv zeta. split; [repeat split; vm_compute; reflexivity|].
  apply (voice_takes_last_marker
           [py "- `lang_code='a'`"; py "| af\_bella | y |"]
           [py "| Name | Traits |"; py "| af\_bella | again |" ++ [10]]
           (py "- `lang_code='b'`" ++ [10])
           (py "| af\_bella | again |" ++ [10]) 98 1 (py "af_bella") (py "a"));
    vm_compute; reflexivity.
Defined.

Lemma voices_without_marker_witness :
  let lines := [py "| Name | Traits |"; py "| zf\_xiaobei | q |"] in
  (forallb no_marker lines = true
   /\ dict_get (py "zf_xiaobei") (_parse_voice_catalog (Some lines) (py "z"))
      = Some (VoiceInfo (py "z")))
  /\ VoiceInfo (py "z") = VoiceInfo (py "z").
Proof.
  cbv zeta. split; [split; vm_compute; reflexivity|].
  apply (voices_without_marker [py "| Name | Traits |"; py "| zf\_xiaobei | q |"]
           (py "z") (py "zf_xiaobei") (VoiceInfo (py "z")));
    vm_compute; reflexivity.
Defined.

Lemma startup_default_in_catalog_witness :
  let parsed := [(py "af_heart", VoiceInfo (py "a")); (py "bf_emma", VoiceInfo (py "b"))] in
  (parsed <> [] /\ dict_has (py "bf_emma") parsed = true)
  /\ startup (Some (py "bf_emma")) (py "a") parsed = (py "bf_emma", parsed)
  /\ fst (startup (Some (py "nobody")) (py "a") parsed) = py "af_heart".
Proof.
  cbv zeta. split; [split; [discriminate|reflexivity]|].
  destruct (startup_default_in_catalog (Some (py "bf_emma")) (py "a")
              [(py "af_heart", VoiceInfo (py "a")); (py "bf_emma", VoiceInfo (py "b"))])
    as [_ [H1 [_ H2]]].
  split; [|reflexivity].
  rewrite (surjective_pairing (startup _ _ _)).
  rewrite H1 by discriminate. rewrite H2 by reflexivity. reflexivity.
Defined.

Lemma default_voice_resolves_witness :
  let file := Some [py "- `lang_code='b'`"; py "| bf\_emma | z |"] in
  let parsed := _parse_voice_catalog file (py "a") in
  parsed <> []
  /\ exists lang_code,
       get_voice_info (fst (startup (Some (py " nobody ")) (py "a") parsed))
         (as_map (snd (startup (Some (py " nobody ")) (py "a") parsed))) None
       = inr (fst (startup (Some (py " nobody ")) (py "a") parsed), lang_code).
Proof.
  cbv zeta. split; [vm_compute; discriminate|].
  destruct (default_voice_resolves (Some (py " nobody ")) (py "a")
              (Some [py "- `lang_code='b'`"; py "| bf\_emma | z |"]))
    as [l [H _]]; [left; vm_compute; discriminate|].
  exists l. exact H.
Defined.
Import Server App Session SynthSpec CatalogSpec.

(** ** The routes *)

Section RoutesProps.

Context {time sample msg : Type}.
Variable within_ttl : time -> time -> bool.
Variable LMSTUDIO_MODEL_NAME : option str.
Variable DEFAULT_VOICE : str.
Variable voice_catalog : gmap str voice_info.
Variable engine : pipeline -> str -> str -> list (list sample) * option error.
Variable audio_to_wav_base64 : list sample -> str.

Local Abbreviation get_voice_info := (get_voice_info DEFAULT_VOICE voice_catalog).
Local Abbreviation synthesize_audio :=
  (synthesize_audio DEFAULT_VOICE voice_catalog engine audio_to_wav_base64).
Local Abbreviation resolve_model_name := (resolve_model_name within_ttl LMSTUDIO_MODEL_NAME).
Local Abbreviation chat :=
  (chat (msg := msg) within_ttl LMSTUDIO_MODEL_NAME DEFAULT_VOICE voice_catalog engine
     audio_to_wav_base64).
Local Abbreviation tts :=
  (tts (time := time) DEFAULT_VOICE voice_catalog engine audio_to_wav_base64).

Lemma synthesize_unknown_voice text voice_name w e :
  get_voice_info voice_name = inl e -> synthesize_audio text voice_name w = (inl e, w).
Proof. intros H. unfold Server.synthesize_audio. rewrite H. reflexivity. Qed.

Lemma synthesize_blank_text text voice_name w voice lang_code :
  get_voice_info voice_name = inr (voice, lang_code) ->
  truthy (strip (default [] text)) = false ->
  synthesize_audio text voice_name w
  = (inl (ValueError (py "No text provided to synthesize.")), w).
Proof. intros H Ht. unfold Server.synthesize_audio. rewrite H, Ht. reflexivity. Qed.

Lemma get_voice_info_value_error requested e :
  get_voice_info requested = inl e -> is_value_error e = true.
Proof.
  unfold Server.get_voice_info.
  destruct (voice_catalog !! strip (or_default DEFAULT_VOICE requested));
    [discriminate|]. intros [= <-]. reflexivity.
Qed.

(** X17: [/api/tts] answers 400 to a voice that does not resolve, whatever the
    text, and to a text that is missing or blank; nothing is constructed,
    called or cached for such a request. *)
Theorem tts_bad_input (text voice : option str) (st : app_state) :
  (exists e, get_voice_info voice = inl e)
  \/ ((exists v l, get_voice_info voice = inr (v, l))
      /\ truthy (strip (default [] text)) = false) ->
  exists error,
    tts text voice st = Served (ErrorReply error 400) st [] false
    /\ error = match get_voice_info voice with
               | inl e => message e
               | inr _ => py "No text provided to synthesize."
               end.
Proof.
  unfold App.tts. intros [[e He]|[[v [l Hv]] Ht]].
  - rewrite (synthesize_unknown_voice _ _ _ _ He), He.
    unfold synthesis_error. rewrite (get_voice_info_value_error _ _ He).
    destruct st. eauto.
  - rewrite (synthesize_blank_text _ _ _ _ _ Hv Ht), Hv.
    destruct st. eauto.
Qed.

(** X15: When the model answers with nothing but white space, or with no
    content at all, [/api/chat] answers 400, after the chat backend was
    called and without calling the engine. *)
Theorem chat_blank_answer_is_400 (payload : chat_payload) (now : time)
    (response : listing) (llm : str -> list msg -> error + option str)
    (st : app_state) (voice lang_code model_name : str) (cache : model_cache)
    (asked : bool) (answer : option str) :
  some (payload_messages payload) = true ->
  get_voice_info (payload_voice payload) = inr (voice, lang_code) ->
  voice <> [] ->
  resolve_model_name (payload_model payload) now response (models_cache st)
  = (inr model_name, cache, asked) ->
  llm model_name (payload_messages payload) = inr answer ->
  truthy (strip (default [] (given answer))) = false ->
  chat payload now response llm st
  = Served (ErrorReply (py "No text provided to synthesize.") 400)
           (AppState cache (synth_world st)) [model_name] asked.
Proof.
  intros Hm Hv Hne Hr Hl Hb. unfold App.chat. rewrite Hm, Hv. cbn [negb].
  rewrite Hr, Hl. cbn [synth_world].
  rewrite (synthesize_blank_text _ _ _ voice lang_code); [reflexivity| |exact Hb].
  apply (get_voice_info_resolved _ _ _ _ _ Hv Hne).
Qed.

(** X16: A request that goes through: the voice resolves, a model is found, the
    model answers with text and the engine returns on its first call.  The
    reply carries the answer as the model gave it, the encoding of all the
    samples made from the trimmed answer, the model and the voice; the
    chat backend was called once. *)
Theorem chat_serves (payload : chat_payload) (now : time)
    (response : listing) (llm : str -> list msg -> error + option str)
    (st : app_state) (voice lang_code model_name : str) (cache : model_cache)
    (asked : bool) (answer : option str) (arrays : list (list sample)) :
  let content := default [] (given answer) in
  let p1 := first_pipeline (synth_world st) lang_code in
  some (payload_messages payload) = true ->
  get_voice_info (payload_voice payload) = inr (voice, lang_code) ->
  voice <> [] ->
  resolve_model_name (payload_model payload) now response (models_cache st)
  = (inr model_name, cache, asked) ->
  llm model_name (payload_messages payload) = inr answer ->
  truthy (strip content) = true ->
  engine p1 (strip content) voice = (arrays, None) ->
  concat arrays <> [] ->
  let r := chat payload now response llm st in
  reply_of r = ChatReply content (audio_to_wav_base64 (concat arrays)) model_name voice
  /\ llm_calls r = [model_name]
  /\ models_cache (state_after r) = cache
  /\ engine_calls (trace (synth_world (state_after r)))
     = engine_calls (trace (synth_world st)) ++ [p1].
Proof.
  cbv zeta. intros Hm Hv Hne Hr Hl Ht He Hc. unfold App.chat. rewrite Hm, Hv. cbn [negb].
  rewrite Hr, Hl. cbn [synth_world].
  pose proof (get_voice_info_resolved _ _ _ _ _ Hv Hne) as Hv'.
  destruct (synthesize_audio_returns DEFAULT_VOICE voice_catalog engine audio_to_wav_base64
              (Some (default [] (given answer))) (Some voice) (synth_world st)
              voice lang_code arrays Hv' Ht He Hc) as [E [Hcalls _]].
  rewrite E. cbn [reply_of llm_calls state_after models_cache synth_world trace].
  rewrite engine_calls_app, Hcalls. auto.
Qed.

End RoutesProps.

Lemma tts_bad_input_witness :
  let catalog : gmap str voice_info := {[ py "af_nicole" := VoiceInfo (py "a") ]} in
  let engine := fun (_ : pipeline) (_ _ : str) => ([[1%nat]], @None error) in
  let encode := fun _ : list nat => py "UklGRg" in
  let st := AppState (ModelCache 0%nat []) (World ∅ 0 []) in
  (exists v l, get_voice_info (py "af_nicole") catalog None = inr (v, l))
  /\ truthy (strip (default [] (Some (py "   ")))) = false
  /\ exists error,
       tts (py "af_nicole") catalog engine encode (Some (py "   ")) None st
       = Served (ErrorReply error 400) st [] false.
Proof.
  cbv zeta.
  assert (Hv : exists v l, get_voice_info (py "af_nicole")
                 {[ py "af_nicole" := VoiceInfo (py "a") ]} None = inr (v, l)).
  { exists (py "af_nicole"), (py "a"). vm_compute. reflexivity. }
  split; [exact Hv|]. split; [reflexivity|].
  destruct (tts_bad_input (time := nat) (py "af_nicole")
              {[ py "af_nicole" := VoiceInfo (py "a") ]}
              (fun _ _ _ => ([[1%nat]], @None error)) (fun _ => py "UklGRg")
              (Some (py "   ")) None
              (AppState (ModelCache 0%nat []) (World ∅ 0 [])))
    as [error [H _]]; [right; split; [exact Hv|reflexivity]|].
  exists error. exact H.
Defined.

Lemma chat_blank_answer_is_400_witness :
  let within_ttl := fun now ts : nat => (now - ts <? 30)%nat in
  let catalog : gmap str voice_info := {[ py "af_nicole" := VoiceInfo (py "a") ]} in
  let engine := fun (_ : pipeline) (_ _ : str) => ([[1%nat]], @None error) in
  let encode := fun _ : list nat => py "UklGRg" in
  let st := AppState (ModelCache 0%nat []) (World ∅ 0 []) in
  let payload := ChatPayload [py "hello"] None (Some (py "phi")) in
  let llm := fun (_ : str) (_ : list str) => @inr error _ (Some (py "  ")) in
  (some (payload_messages payload) = true
   /\ get_voice_info (py "af_nicole") catalog (payload_voice payload)
      = inr (py "af_nicole", py "a")
   /\ py "af_nicole" <> []
   /\ resolve_model_name within_ttl None (payload_model payload) 7%nat (inr None)
        (models_cache st) = (inr (py "phi"), ModelCache 0%nat [], false)
   /\ llm (py "phi") (payload_messages payload) = inr (Some (py "  "))
   /\ truthy (strip (default [] (given (Some (py "  "))))) = false)
  /\ chat within_ttl None (py "af_nicole") catalog engine encode payload 7%nat
       (inr None) llm st
     = Served (ErrorReply (py "No text provided to synthesize.") 400)
              (AppState (ModelCache 0%nat []) (World ∅ 0 [])) [py "phi"] false.
Proof.
  cbv zeta. split; [repeat split; try (vm_compute; reflexivity); discriminate|].
  apply (chat_blank_answer_is_400 (fun now ts : nat => (now - ts <? 30)%nat) None
           (py "af_nicole") {[ py "af_nicole" := VoiceInfo (py "a") ]}
           (fun _ _ _ => ([[1%nat]], @None error)) (fun _ => py "UklGRg")
           (ChatPayload [py "hello"] None (Some (py "phi"))) 7%nat (inr None)
           (fun _ _ => inr (Some (py "  ")))
           (AppState (ModelCache 0%nat []) (World ∅ 0 []))
           (py "af_nicole") (py "a") (py "phi") (ModelCache 0%nat []) false
           (Some (py "  ")));
    try (vm_compute; reflexivity); discriminate.
Defined.

Lemma chat_serves_witness :
  let within_ttl := fun now ts : nat => (now - ts <? 30)%nat in
  let catalog : gmap str voice_info := {[ py "af_nicole" := VoiceInfo (py "a") ]} in
  let engine := fun (_ : pipeline) (_ _ : str) => ([[1; 2]; [3]]%nat, @None error) in
  let encode := fun samples : list nat => map N.of_nat samples in
  let st := AppState (ModelCache 0%nat []) (World ∅ 0 []) in
  let payload := ChatPayload [py "hello"] None None in
  let response : listing := inr (Some [Some (py "phi")]) in
  let llm := fun (_ : str) (_ : list str) => @inr error _ (Some (py " Hi. ")) in
  (some (payload_messages payload) = true
   /\ get_voice_info (py "af_nicole") catalog (payload_voice payload)
      = inr (py "af_nicole", py "a")
   /\ resolve_model_name within_ttl None (payload_model payload) 7%nat response
        (models_cache st) = (inr (py "phi"), ModelCache 7%nat [py "phi"], true)
   /\ truthy (strip (default [] (given (Some (py " Hi. "))))) = true)
  /\ reply_of (chat within_ttl None (py "af_nicole") catalog engine encode payload
                 7%nat response llm st)
     = ChatReply (py " Hi. ") [1; 2; 3] (py "phi") (py "af_nicole").
Proof.
  cbv zeta. split; [repeat split; vm_compute; reflexivity|].
  refine (proj1 (chat_serves (fun now ts : nat => (now - ts <? 30)%nat) None
               (py "af_nicole") {[ py "af_nicole" := VoiceInfo (py "a") ]}
               (fun _ _ _ => ([[1; 2]; [3]]%nat, @None error))
               (fun samples : list nat => map N.of_nat samples)
               (ChatPayload [py "hello"] None None) 7%nat
               (inr (Some [Some (py "phi")]))
               (fun _ _ => inr (Some (py " Hi. ")))
               (AppState (ModelCache 0%nat []) (World ∅ 0 []))
               (py "af_nicole") (py "a") (py "phi") (ModelCache 7%nat [py "phi"]) true
               (Some (py " Hi. ")) [[1; 2]; [3]]%nat _ _ _ _ _ _ _ _));
    try (vm_compute; reflexivity); discriminate.
Defined.
Import Server App Session SynthSpec CatalogSpec.

(** ** The conversation loop *)

Lemma padded_blank_r chunks body w :
  padded chunks body -> blank w = true -> padded chunks (body ++ w).
Proof.
  intros H Hw. rewrite <- (app_nil_r chunks).
  apply padded_app; [exact H|]. apply padded_nil, Hw.
Qed.

(** One call of the chunker: its chunks are speakable, and with white
    space around them they are the buffer up to the remainder, which holds
    no delimiter. *)
Lemma split_decompose buffer :
  let r := split_into_speakable_chunks buffer in
  Forall (fun c => speakable c = true) (fst r)
  /\ no_delim (snd r) = true
  /\ exists pre, padded (fst r) pre /\ pre ++ snd r = buffer.
Proof.
  cbv zeta. rewrite split_view.
  pose proof (scan_init_ok buffer) as Hok.
  split; [|split].
  - apply Forall_forall. intros c Hc.
    destruct (view_chunks _ _ Hok Hc) as [t [d [Ht [Hd He]]]].
    destruct (emit_chunk t d c Ht Hd He) as [H1 [H2 _]].
    unfold speakable. rewrite H1. cbn. apply bool_decide_eq_true_2, H2.
  - apply view_ok_remainder, Hok.
  - destruct (padded_view _ Hok) as [body [Hp E]].
    rewrite consumed_scan_init in E. eauto.
Qed.

(** What the loop over the events keeps: the chunks queued so far, with
    white space around them, and then the buffer, are the text received so
    far. *)
Lemma stream_loop_padded events : forall st,
  (exists body, padded (spoken st) body /\ body ++ buffer st = full st) ->
  Forall (fun c => speakable c = true) (spoken st) ->
  no_delim (buffer st) = true ->
  let st' := stream_loop st events in
  (exists body, padded (spoken st') body /\ body ++ buffer st' = full st')
  /\ Forall (fun c => speakable c = true) (spoken st')
  /\ no_delim (buffer st') = true
  /\ full st' = full st ++ concat (tokens_of events).
Proof.
  induction events as [|ev events IH]; intros st Hp Hs Hb; cbv zeta.
  - cbn. rewrite app_nil_r. auto.
  - unfold stream_loop. cbn [fold_left]. fold (stream_loop (on_event st ev) events).
    assert (Hstep :
      (exists body, padded (spoken (on_event st ev)) body
                    /\ body ++ buffer (on_event st ev) = full (on_event st ev))
      /\ Forall (fun c => speakable c = true) (spoken (on_event st ev))
      /\ no_delim (buffer (on_event st ev)) = true
      /\ full (on_event st ev) = full st ++ concat (tokens_of [ev])).
    { unfold on_event. destruct ev as [token|]; [|cbn; rewrite app_nil_r; auto].
      destruct (truthy token) eqn:T; [|cbn; rewrite T; cbn; rewrite app_nil_r; auto].
      destruct (split_decompose (buffer st ++ token)) as [S1 [S2 [pre [S3 S4]]]].
      destruct (split_into_speakable_chunks (buffer st ++ token)) as [chunks rem].
      cbn [fst snd] in *. cbn [spoken buffer full].
      destruct Hp as [body [Hp1 Hp2]].
      split; [|split; [|split]].
      - exists (body ++ pre). split; [apply padded_app; assumption|].
        rewrite <- app_assoc, S4, app_assoc, Hp2. reflexivity.
      - apply Forall_app. auto.
      - exact S2.
      - cbn. rewrite T. cbn. rewrite app_nil_r. reflexivity. }
    destruct Hstep as [H1 [H2 [H3 H4]]].
    destruct (IH (on_event st ev) H1 H2 H3) as [I1 [I2 [I3 I4]]].
    split; [exact I1|]. split; [exact I2|]. split; [exact I3|].
    rewrite I4, H4, <- app_assoc. f_equal.
    change (ev :: events) with ([ev] ++ events).
    unfold tokens_of. rewrite flat_map_app, concat_app. reflexivity.
Qed.

(** X18: What a turn puts on [tts_q] is the text the model sent, in order and
    without repetition: the items are speakable and, with white space
    around them, they make up the text received, up to an unspoken rest.
    When the stream ends normally there is no rest, and the text is the
    content of the assistant message; when it fails, the rest is the
    sentence that was not finished. *)
Theorem turn_speaks_the_text
    (backend : list chat_message -> response) (messages : list chat_message)
    (line : str) :
  truthy (strip line) = true ->
  let asked := messages ++ [Message User (strip line)] in
  let received := concat (tokens_of (deltas (backend asked))) in
  let t := turn backend messages line in
  Forall (fun c => speakable c = true) (tts_puts t)
  /\ (exists body rest,
        padded (tts_puts t) body /\ body ++ rest = received
        /\ no_delim rest = true
        /\ (failure (backend asked) = None -> rest = []))
  /\ (failure (backend asked) = None ->
      messages_after t = asked ++ [Message Assistant received]).
Proof.
  intros Hl. cbv zeta. unfold turn. rewrite Hl. cbn [negb].
  set (asked := messages ++ [Message User (strip line)]).
  destruct (stream_loop_padded (deltas (backend asked))
              (TurnState [] [] [] [py "Assistant: "])) as [[body [P1 P2]] [P3 [P4 P5]]].
  { exists []. split; [apply padded_nil|]; reflexivity. }
  { apply Forall_nil_2. }
  { reflexivity. }
  cbn [full app] in P5.
  set (st := stream_loop (TurnState [] [] [] [py "Assistant: "]) (deltas (backend asked))) in *.
  destruct (failure (backend asked)) as [[e|]|] eqn:F; cbn [tts_puts messages_after].
  - split; [exact P3|]. split; [|discriminate].
    exists body, (buffer st). rewrite P2, P5. split; [assumption|].
    split; [reflexivity|]. split; [assumption|discriminate].
  - split; [exact P3|]. split; [|discriminate].
    exists body, (buffer st). rewrite P2, P5. split; [assumption|].
    split; [reflexivity|]. split; [assumption|discriminate].
  - destruct (truthy (strip (buffer st))) eqn:T.
    + split; [|split].
      * apply Forall_app. split; [exact P3|]. apply Forall_singleton.
        unfold speakable. rewrite T. cbn. apply bool_decide_eq_true_2, strip_strip.
      * exists (body ++ buffer st), []. split.
        { destruct (strip_split (buffer st)) as [w1 [w2 [H1 [H2 E]]]].
          apply padded_app; [exact P1|]. rewrite E at 2.
          apply padded_cons; [exact H1|]. apply padded_nil, H2. }
        rewrite app_nil_r, P2, P5. auto.
      * intros _. rewrite P5. reflexivity.
    + rewrite app_nil_r. split; [exact P3|]. split.
      * exists (body ++ buffer st), []. split.
        { apply padded_blank_r; [exact P1|].
          apply strip_nil_blank, truthy_false, T. }
        rewrite app_nil_r, P2, P5. auto.
      * intros _. rewrite P5. reflexivity.
Qed.

(** The items of one pass are speakable, whatever the line and the
    backend. *)
Lemma turn_puts_speakable backend messages line :
  Forall (fun c => speakable c = true) (tts_puts (turn backend messages line)).
Proof.
  unfold turn. destruct (truthy (strip line)) eqn:Hl; cbn [negb]; [|apply Forall_nil_2].
  set (asked := messages ++ [Message User (strip line)]).
  destruct (stream_loop_padded (deltas (backend asked))
              (TurnState [] [] [] [py "Assistant: "])) as [_ [P3 _]].
  { exists []. split; [apply padded_nil|]; reflexivity. }
  { apply Forall_nil_2. }
  { reflexivity. }
  destruct (failure (backend asked)) as [[e|]|]; cbn [tts_puts]; try exact P3.
  apply Forall_app. split; [exact P3|].
  destruct (truthy (strip (buffer _))) eqn:T; [|apply Forall_nil_2].
  apply Forall_singleton. unfold speakable. rewrite T. cbn.
  apply bool_decide_eq_true_2, strip_strip.
Qed.

(** The messages after one pass: the old ones, then nothing, the question,
    or the question and its answer; the question is speakable. *)
Lemma turn_messages backend messages line :
  let t := turn backend messages line in
  messages_after t = messages
  \/ exists q, speakable q = true
       /\ (messages_after t = messages ++ [Message User q]
           \/ exists a, messages_after t
                        = messages ++ [Message User q; Message Assistant a]).
Proof.
  cbv zeta. unfold turn. destruct (truthy (strip line)) eqn:Hl; cbn [negb]; [|left; reflexivity].
  right. exists (strip line). split.
  { unfold speakable. rewrite Hl. cbn. apply bool_decide_eq_true_2, strip_strip. }
  destruct (failure _) as [[e|]|]; cbn [messages_after]; auto.
  right. eexists. rewrite <- app_assoc. reflexivity.
Qed.

Lemma answers_follow_app roles : forall asked,
  answers_follow asked roles = true ->
  answers_follow asked (roles ++ [User]) = true
  /\ answers_follow asked (roles ++ [User; Assistant]) = true.
Proof.
  induction roles as [|r roles IH]; intros asked H; [cbn; auto|].
  destruct r; cbn in *.
  - apply IH, H.
  - apply andb_true_iff in H. destruct H as [-> H]. cbn. apply IH, H.
Qed.

Lemma main_loop_ok backend inputs : forall messages queued chunks,
  queued = map Some chunks ->
  Forall (fun c => speakable c = true) chunks ->
  answers_follow false (map msg_role messages) = true ->
  Forall question_ok messages ->
  let s := main_loop backend inputs messages queued in
  (exists chunks',
     Session.queued s
     = map Some (chunks ++ chunks')
       ++ match status_of s with Finished => [None] | _ => [] end
     /\ Forall (fun c => speakable c = true) chunks')
  /\ messages `prefix_of` history s
  /\ answers_follow false (map msg_role (history s)) = true
  /\ Forall question_ok (history s).
Proof.
  induction inputs as [|[r|line] inputs IH]; intros messages queued chunks Hq Hc Ha Hm; cbv zeta.
  - cbn. split; [|auto]. exists []. rewrite !app_nil_r. auto.
  - cbn. split; [|auto]. exists []. rewrite !app_nil_r. auto.
  - cbn [main_loop].
    pose proof (turn_puts_speakable backend messages line) as Hp.
    assert (Ht : messages `prefix_of` messages_after (turn backend messages line)
                 /\ answers_follow false (map msg_role (messages_after (turn backend messages line))) = true
                 /\ Forall question_ok (messages_after (turn backend messages line))).
    { destruct (turn_messages backend messages line) as [->|[q [Hq' [->|[a ->]]]]].
      - auto.
      - split; [eexists; reflexivity|]. split.
        + rewrite map_app. apply (answers_follow_app _ _ Ha).
        + apply Forall_app. split; [exact Hm|]. apply Forall_singleton. intros _. exact Hq'.
      - split; [eexists; reflexivity|]. split.
        + rewrite map_app. apply (answers_follow_app _ _ Ha).
        + apply Forall_app. split; [exact Hm|].
          apply Forall_cons. split; [intros _; exact Hq'|].
          apply Forall_singleton. intros H. discriminate H. }
    destruct Ht as [T1 [T2 T3]].
    destruct (exits (turn backend messages line)).
    + cbn. split; [|auto]. exists (tts_puts (turn backend messages line)).
      rewrite Hq, map_app. auto.
    + destruct (IH (messages_after (turn backend messages line))
                   (queued ++ map Some (tts_puts (turn backend messages line)))
                   (chunks ++ tts_puts (turn backend messages line)))
        as [[chunks' [I1 I2]] [I3 [I4 I5]]]; auto.
      { rewrite Hq, map_app. reflexivity. }
      { apply Forall_app. auto. }
      split.
      * exists (tts_puts (turn backend messages line) ++ chunks').
        rewrite I1, <- app_assoc. split; [reflexivity|]. apply Forall_app. auto.
      * split; [|auto]. etransitivity; eassumption.
Qed.

(** A session back at the prompt goes on from its history and its queue. *)
Lemma main_loop_app backend more inputs : forall messages queued,
  status_of (main_loop backend inputs messages queued) = AtPrompt ->
  main_loop backend (inputs ++ more) messages queued
  = main_loop backend more
      (history (main_loop backend inputs messages queued))
      (Session.queued (main_loop backend inputs messages queued)).
Proof.
  induction inputs as [|[r|line] inputs IH]; intros messages queued H.
  - reflexivity.
  - discriminate H.
  - cbn [main_loop app] in *.
    destruct (exits (turn backend messages line)); [discriminate H|].
    apply IH, H.
Qed.

(** X19: What a whole session puts on [tts_q]: speakable chunks only, and the
    sentinel exactly when the loop was left by [break], as the last item.
    A session that ends at [input] (end of input, or Ctrl+C at the prompt)
    puts no sentinel. *)
Theorem session_queue
    (backend : list chat_message -> response) (inputs : list (raised + str)) :
  let s := main backend inputs in
  exists chunks,
    queued s = map Some chunks
               ++ match status_of s with Finished => [None] | _ => [] end
    /\ Forall (fun c => speakable c = true) chunks.
Proof.
  cbv zeta. unfold main.
  destruct (main_loop_ok backend inputs [] [] []) as [[chunks [H1 H2]] _];
    try reflexivity; try apply Forall_nil_2.
  exists chunks. auto.
Qed.

(** X20: The history of a session: every question is a trimmed, non-empty line
    and every answer directly follows a question, so the history never
    starts with an answer and never holds two answers in a row. *)
Theorem session_history
    (backend : list chat_message -> response) (inputs : list (raised + str)) :
  let s := main backend inputs in
  answers_follow false (map msg_role (history s)) = true
  /\ Forall question_ok (history s).
Proof.
  cbv zeta. unfold main.
  destruct (main_loop_ok backend inputs [] [] []) as [_ [_ [H1 H2]]];
    try reflexivity; try apply Forall_nil_2.
  auto.
Qed.

(** X21: A session that is back at the prompt goes on from where it stands:
    more inputs are handled as by a loop started with its history and its
    queue, and they only add to both. *)
Theorem session_continues
    (backend : list chat_message -> response)
    (inputs more : list (raised + str)) :
  let s := main backend inputs in
  let s' := main backend (inputs ++ more) in
  status_of s = AtPrompt ->
  s' = main_loop backend more (history s) (queued s)
  /\ history s `prefix_of` history s'
  /\ queued s `prefix_of` queued s'.
Proof.
  cbv zeta. unfold main. intros Hs.
  rewrite (main_loop_app backend more inputs [] [] Hs).
  split; [reflexivity|].
  destruct (main_loop_ok backend inputs [] [] []) as [[chunks [H1 H2]] [_ [H3 H4]]];
    try reflexivity; try apply Forall_nil_2.
  rewrite Hs, app_nil_r in H1. cbn [app] in H1.
  destruct (main_loop_ok backend more (history (main_loop backend inputs [] []))
              (queued (main_loop backend inputs [] [])) chunks)
    as [[chunks' [I1 _]] [I2 _]]; auto.
  split; [exact I2|].
  rewrite I1, H1, map_app, <- app_assoc. eexists. reflexivity.
Qed.

Lemma turn_speaks_the_text_witness :
  tts_puts (turn (fun _ => Response [Some (py "Hi. "); None; Some (py "Bye")] None) [] (py " hello ")) = [py "Hi."; py "Bye"]
  /\ messages_after (turn (fun _ => Response [Some (py "Hi. "); None; Some (py "Bye")] None) [] (py " hello "))
     = [Message User (py "hello"); Message Assistant (py "Hi. Bye")].
Proof.
  destruct (turn_speaks_the_text (fun _ => Response [Some (py "Hi. "); None; Some (py "Bye")] None) [] (py " hello ")) as [_ [_ H]];
    [vm_compute; reflexivity|].
  split; [vm_compute; reflexivity|].
  rewrite H; [|reflexivity]. vm_compute. reflexivity.
Defined.

Lemma session_continues_witness :
  main (fun _ => Response [Some (py "Hi. "); None; Some (py "Bye")] None) [inr (py "a"); inr (py "b")]
  = main_loop (fun _ => Response [Some (py "Hi. "); None; Some (py "Bye")] None) [inr (py "b")]
      (history (main (fun _ => Response [Some (py "Hi. "); None; Some (py "Bye")] None) [inr (py "a")]))
      (queued (main (fun _ => Response [Some (py "Hi. "); None; Some (py "Bye")] None) [inr (py "a")])).
Proof.
  refine (proj1 (session_continues (fun _ => Response [Some (py "Hi. "); None; Some (py "Bye")] None) [inr (py "a")] [inr (py "b")] _)).
  vm_compute. reflexivity.
Defined.
Import Server App Session SynthSpec CatalogSpec Drain.

(** ** Running the pipeline to its end *)

Section DrainProps.

Context {audio : Type}.
Variable synth : str -> error + audio.

Lemma run_app (a1 a2 : list (@action audio)) : forall s s1 e1 s2 e2,
  run s a1 = Some (s1, e1) -> run s1 a2 = Some (s2, e2) ->
  run s (a1 ++ a2) = Some (s2, e1 ++ e2).
Proof.
  induction a1 as [|a a1 IH]; intros s s1 e1 s2 e2 H1 H2.
  - cbn in H1. injection H1 as <- <-. exact H2.
  - cbn [run app] in *. destruct (step s a) as [[s' evs]|]; [|discriminate].
    destruct (run s' a1) as [[s'' evs']|] eqn:R; [|discriminate].
    injection H1 as <- <-. rewrite (IH _ _ _ _ _ R H2), app_assoc. reflexivity.
Qed.

Lemma sentinel_not_some {A} (l : list A) : None ∉ map Some l.
Proof.
  induction l as [|x l IH]; cbn; intros H; [inversion H|].
  apply elem_of_cons in H. destruct H as [H|H]; [discriminate|auto].
Qed.

(** With the sentinel queued, the synthesis worker runs through [tts_q] up
    to it and stops. *)
Lemma run_tts_moves (q : list (option str)) : forall aq ppc,
  None ∈ q ->
  exists q' evs,
    run (Sys q aq TtsWaiting ppc) (tts_moves synth q)
    = Some (Sys q' (aq ++ tts_output synth q) TtsStopped ppc, evs).
Proof.
  induction q as [|[text|] q IH]; intros aq ppc H.
  - inversion H.
  - apply elem_of_cons in H. destruct H as [H|H]; [discriminate|].
    cbn [tts_moves tts_output run step tts_at tts_q audio_q player_at].
    destruct (synth text) as [e|a].
    + destruct (IH aq ppc H) as [q' [evs ->]]. eauto.
    + destruct (IH (aq ++ [Some a]) ppc H) as [q' [evs R]].
      rewrite R, <- app_assoc. eauto.
  - cbn. eauto.
Qed.

Lemma run_tts_finish (s : @sys audio) :
  None ∈ in_flight (tts_at s) ++ tts_q s ->
  exists q' evs,
    run s (tts_finish synth (tts_at s) (tts_q s))
    = Some (Sys q' (audio_q s ++ tts_finish_output synth (tts_at s) (tts_q s))
                TtsStopped (player_at s), evs).
Proof.
  destruct s as [q aq [|[text|]|] ppc]; cbn [tts_at tts_q audio_q player_at in_flight app];
    intros H.
  - apply run_tts_moves, H.
  - apply elem_of_cons in H. destruct H as [H|H]; [discriminate|].
    cbn [tts_finish tts_finish_output run step tts_at tts_q audio_q player_at].
    destruct (synth text) as [e|a].
    + destruct (run_tts_moves q aq ppc H) as [q' [evs ->]]. eauto.
    + destruct (run_tts_moves q (aq ++ [Some a]) ppc H) as [q' [evs R]].
      rewrite R, <- app_assoc. eauto.
  - cbn. eauto.
  - cbn. rewrite app_nil_r. eauto.
Qed.

(** With the sentinel queued, the playback worker plays the buffers before
    it and stops. *)
Lemma run_player_moves (aq : list (option audio)) : forall tq tpc,
  None ∈ aq ->
  exists aq' evs,
    run (Sys tq aq tpc PlayerWaiting) (player_moves aq)
    = Some (Sys tq aq' tpc PlayerStopped, evs).
Proof.
  induction aq as [|[a|] aq IH]; intros tq tpc H.
  - inversion H.
  - apply elem_of_cons in H. destruct H as [H|H]; [discriminate|].
    cbn [player_moves run step tts_at tts_q audio_q player_at].
    destruct (IH tq tpc H) as [aq' [evs ->]]. eauto.
  - cbn. eauto.
Qed.

Lemma run_player_finish (s : @sys audio) :
  None ∈ received (player_at s) ++ audio_q s ->
  exists aq' evs,
    run s (player_finish (player_at s) (audio_q s))
    = Some (Sys (tts_q s) aq' (tts_at s) PlayerStopped, evs).
Proof.
  destruct s as [q aq tpc [|a|]]; cbn [tts_at tts_q audio_q player_at received app];
    intros H.
  - apply run_player_moves, H.
  - cbn [player_finish run step tts_at tts_q audio_q player_at].
    destruct (run_player_moves aq q tpc H) as [aq' [evs ->]]. eauto.
  - cbn. eauto.
Qed.

Lemma run_no_put (acts : list (@action audio)) : forall s s' evs,
  forallb (fun a => negb (is_put a)) acts = true ->
  run s acts = Some (s', evs) -> puts evs = [].
Proof.
  induction acts as [|a acts IH]; intros s s' evs Hn Hrun; cbn [run] in Hrun.
  - injection Hrun as <- <-. reflexivity.
  - cbn in Hn. apply andb_true_iff in Hn. destruct Hn as [Ha Hn].
    destruct (step s a) as [[s1 ev1]|] eqn:E1; [|discriminate].
    destruct (run s1 acts) as [[s2 ev2]|] eqn:E2; [|discriminate].
    injection Hrun as <- <-. rewrite puts_app, (IH _ _ _ Hn E2), app_nil_r.
    destruct a; try discriminate Ha; unfold step in E1.
    + destruct (tts_at s), (tts_q s); try discriminate; injection E1 as <- <-; reflexivity.
    + destruct (tts_at s) as [|[?|]|]; try discriminate; injection E1 as <- <-; reflexivity.
    + destruct (tts_at s) as [|[?|]|]; try discriminate;
        destruct out; injection E1 as <- <-; reflexivity.
    + destruct (player_at s), (audio_q s) as [|[?|] ?]; try discriminate;
        injection E1 as <- <-; reflexivity.
    + destruct (player_at s); try discriminate; injection E1 as <- <-; reflexivity.
Qed.

Lemma tts_moves_no_put q :
  forallb (fun a => negb (is_put a)) (tts_moves synth q) = true.
Proof. induction q as [|[text|] q IH]; cbn; auto. Qed.

Lemma player_moves_no_put (q : list (option audio)) :
  forallb (fun a => negb (is_put a)) (player_moves q) = true.
Proof. induction q as [|[a|] q IH]; cbn; auto. Qed.

Lemma drain_no_put s :
  forallb (fun a => negb (is_put a)) (drain synth s) = true.
Proof.
  unfold drain. rewrite forallb_app. apply andb_true_iff. split.
  - destruct (tts_at s) as [|[text|]|]; cbn; auto using tts_moves_no_put.
  - destruct (player_at s); cbn; auto using player_moves_no_put.
Qed.

(** X22: Once the sentinel has been put, the workers can always run to their
    end: from every state a schedule of the three threads can reach, the
    moves of [drain] are enabled one after the other, both workers stop,
    and then every chunk put before the sentinel has been given to the
    engine, in order, and every buffer the engine returned has been played
    from start to end, in order. *)
Theorem pipeline_drains (acts : list (@action audio)) (s : sys)
    (h : list (@Stream.event audio)) :
  run sys_init acts = Some (s, h) ->
  None ∈ puts h ->
  exists s' evs,
    run sys_init (acts ++ drain synth s) = Some (s', h ++ evs)
    /\ tts_at s' = TtsStopped /\ player_at s' = PlayerStopped
    /\ audio_q s' = []
    /\ puts (h ++ evs) = puts h
    /\ map fst (synths (h ++ evs)) = before_sentinel (puts h)
    /\ starts (h ++ evs) = oks (synths (h ++ evs))
    /\ play_events (h ++ evs) = flat_map played (starts (h ++ evs)).
Proof.
  intros Hrun Hput. pose proof (reachable_inv _ _ _ Hrun) as [I1 I2 _ _].
  assert (Hs : None ∈ in_flight (tts_at s) ++ tts_q s).
  { rewrite I1 in Hput. apply elem_of_app in Hput. destruct Hput as [H|H]; [|exact H].
    exfalso. exact (sentinel_not_some _ H). }
  destruct (run_tts_finish s Hs) as [q1 [e1 R1]].
  set (s1 := Sys q1 (audio_q s ++ tts_finish_output synth (tts_at s) (tts_q s))
                 TtsStopped (player_at s)) in *.
  pose proof (run_inv _ _ _ _ _ (reachable_inv _ _ _ Hrun) R1)
    as [J1 J2 _ _].
  assert (Hp : None ∈ received (player_at s1) ++ audio_q s1).
  { cbn [forwarded tts_at s1] in J2.
    assert (H : None ∈ map Some (starts (h ++ e1)) ++ received (player_at s1) ++ audio_q s1).
    { rewrite <- J2. apply elem_of_app. right. apply elem_of_cons. left. reflexivity. }
    apply elem_of_app in H. destruct H as [H|H]; [|exact H].
    exfalso. exact (sentinel_not_some _ H). }
  destruct (run_player_finish s1 Hp) as [aq2 [e2 R2]].
  cbn [tts_q tts_at player_at audio_q s1] in R2.
  pose proof (run_app _ _ _ _ _ _ _ R1 R2) as R. fold (drain synth s) in R.
  pose proof (run_app _ _ _ _ _ _ _ Hrun R) as Rall.
  pose proof (reachable_inv _ _ _ Rall) as [K1 K2 K3 K4].
  cbn [tts_at player_at audio_q tts_q in_flight forwarded received app] in K1, K2, K4.
  destruct (some_until_sentinel _ _ _ K2) as [E1 E2].
  exists (Sys q1 aq2 TtsStopped PlayerStopped), (e1 ++ e2).
  split; [exact Rall|]. split; [reflexivity|]. split; [reflexivity|].
  split; [exact E2|].
  assert (Hp' : puts (h ++ e1 ++ e2) = puts h).
  { rewrite puts_app, (run_no_put _ _ _ _ (drain_no_put s) R), app_nil_r. reflexivity. }
  split; [exact Hp'|]. split.
  { rewrite <- Hp', K1, before_sentinel_app. cbn. rewrite app_nil_r. reflexivity. }
  split; [symmetry; exact E1|exact K4].
Qed.

End DrainProps.

Lemma pipeline_drains_witness :
  exists s' evs,
    run sys_init ([Put (Some (py "Hi.")); TtsGet; Put (Some (py "Bye")); Put None]
                  ++ drain (fun text => if length text <? 4 then inl (OtherError (py "short"))
                                        else inr (length text))%nat
                       (Sys [Some (py "Bye"); None] [] (TtsGot (Some (py "Hi.")))
                            PlayerWaiting))
    = Some (s', [EvPut (Some (py "Hi.")); EvPut (Some (py "Bye")); EvPut None] ++ evs)
    /\ tts_at s' = TtsStopped /\ player_at s' = PlayerStopped.
Proof.
  destruct (pipeline_drains
              (fun text => if length text <? 4 then inl (OtherError (py "short"))
                           else inr (length text))%nat
              [Put (Some (py "Hi.")); TtsGet; Put (Some (py "Bye")); Put None]
              (Sys [Some (py "Bye"); None] [] (TtsGot (Some (py "Hi."))) PlayerWaiting)
              [EvPut (Some (py "Hi.")); EvPut (Some (py "Bye")); EvPut None])
    as [s' [evs [H1 [H2 [H3 _]]]]].
  - vm_compute. reflexivity.
  - apply (bool_decide_unpack _). vm_compute. exact I.
  - exists s', evs. auto.
Defined.
Import Server App Session SynthSpec CatalogSpec Listing.

(** ** The routes on any request *)

Section HttpProps.

Context {time sample pyfloat : Type}.
Variable float_truthy : pyfloat -> bool.
Variable float : Http.pyval pyfloat -> error + pyfloat.
Variable default_temperature : pyfloat.
Variable within_ttl : time -> time -> bool.
Variable LMSTUDIO_MODEL_NAME : option str.
Variable DEFAULT_VOICE : str.
Variable voice_catalog : gmap str voice_info.
Variable engine : pipeline -> str -> str -> list (list sample) * option error.
Variable audio_to_wav_base64 : list sample -> str.
Variable construct : world -> str -> option error.

Local Abbreviation value := (Http.pyval pyfloat).
Local Abbreviation py_truthy := (Http.py_truthy float_truthy).
Local Abbreviation payload_of := (Http.payload_of float_truthy).
Local Abbreviation temperature_of := (Http.temperature_of float default_temperature).
Local Abbreviation get_voice_info :=
  (Http.get_voice_info float_truthy DEFAULT_VOICE voice_catalog).
Local Abbreviation clean_text_of := (Http.clean_text_of float_truthy).
Local Abbreviation get_pipeline := (Http.get_pipeline construct).
Local Abbreviation collect := (Server.collect engine audio_to_wav_base64).
Local Abbreviation attempts := (Http.attempts engine audio_to_wav_base64 construct).
Local Abbreviation synthesize_audio :=
  (Http.synthesize_audio float_truthy DEFAULT_VOICE voice_catalog engine
     audio_to_wav_base64 construct).
Local Abbreviation bad_input :=
  (Http.bad_input float_truthy DEFAULT_VOICE voice_catalog).
Local Abbreviation constructor_failed :=
  (Http.constructor_failed float_truthy DEFAULT_VOICE voice_catalog engine
     audio_to_wav_base64 construct).
Local Abbreviation engine_failed_twice :=
  (Http.engine_failed_twice float_truthy DEFAULT_VOICE voice_catalog).
Local Abbreviation resolve_model_name :=
  (Http.resolve_model_name float_truthy within_ttl LMSTUDIO_MODEL_NAME).
Local Abbreviation chat :=
  (Http.chat float_truthy float default_temperature within_ttl LMSTUDIO_MODEL_NAME
     DEFAULT_VOICE voice_catalog engine audio_to_wav_base64 construct).
Local Abbreviation tts :=
  (Http.tts (time := time) float_truthy DEFAULT_VOICE voice_catalog engine
     audio_to_wav_base64 construct).

(** The world once [get_pipeline] is entered. *)
Local Abbreviation entered w l :=
  (World (pipelines w) (created w) (trace w ++ [EvGetPipeline l])).

(** The three ways [get_pipeline] ends. *)
Lemma get_pipeline_cases (l : str) (w : world) :
  (exists p, pipelines w !! l = Some p
             /\ get_pipeline l w = (inr p, entered w l))
  \/ (pipelines w !! l = None
      /\ exists exc, construct (entered w l) l = Some exc
                     /\ get_pipeline l w = (inl exc, entered w l))
  \/ (pipelines w !! l = None /\ construct (entered w l) l = None
      /\ get_pipeline l w
         = (inr (KPipeline l (created w)),
            World (<[l := KPipeline l (created w)]> (pipelines w)) (S (created w))
                  (trace w ++ [EvGetPipeline l; EvCreate (KPipeline l (created w))]))).
Proof.
  unfold Http.get_pipeline, bind, tell. cbn [pipelines created trace].
  destruct (pipelines w !! l) as [p|] eqn:E.
  - left. eauto.
  - right. destruct (construct (entered w l) l) as [exc|] eqn:C.
    + left. eauto.
    + right. rewrite <- app_assoc. auto.
Qed.

(** One pass of the loop over the attempts. *)
Lemma attempts_step attempt todo last l t v w :
  attempts (attempt :: todo) last l t v w
  = match get_pipeline l w with
    | (inl exc, w1) => (inl exc, w1)
    | (inr p, w1) =>
        match collect p t v with
        | inr out =>
            (inr out, World (pipelines w1) (created w1) (trace w1 ++ [EvCall p t v]))
        | inl exc =>
            let w2 := World (delete l (pipelines w1)) (created w1)
                            (trace w1 ++ [EvCall p t v; EvPop l (pipelines w1 !! l)]) in
            if Nat.eqb attempt 0 then attempts todo (Some exc) l t v w2
            else (inl (RuntimeError (tts_failed v (message exc)) (Some exc)),
                  World (pipelines w2) (created w2)
                        (trace w2 ++ [EvLog (tts_failed v (message exc))]))
        end
    end.
Proof.
  cbn [Http.attempts]. unfold bind at 1.
  destruct (get_pipeline l w) as [[exc|p] w1]; [reflexivity|].
  unfold try_except, synth_once, bind at 1, tell at 1.
  cbn [pipelines created trace].
  destruct (collect p t v) as [exc|out]; [|reflexivity].
  unfold bind at 1, pop_pipeline at 1. cbn [pipelines created trace].
  rewrite <- !app_assoc. cbn [app].
  destruct (Nat.eqb attempt 0); [reflexivity|].
  unfold bind, tell, raise. cbn [pipelines created trace].
  rewrite <- !app_assoc. reflexivity.
Qed.

(** How [synthesize_audio] can fail. *)
Lemma synthesize_audio_raises
    (text voice_name : value) (w w' : world) (e : error) :
  synthesize_audio text voice_name w = (inl e, w') ->
  (w' = w
   /\ (get_voice_info voice_name = inl e
       \/ (exists voice l,
             get_voice_info voice_name = inr (voice, l)
             /\ (clean_text_of text = inl e
                 \/ (exists clean_text,
                       clean_text_of text = inr clean_text
                       /\ truthy clean_text = false
                       /\ e = ValueError (py "No text provided to synthesize."))))))
  \/ (exists voice l clean_text new,
        get_voice_info voice_name = inr (voice, l)
        /\ clean_text_of text = inr clean_text /\ truthy clean_text = true
        /\ trace w' = trace w ++ new
        /\ pipelines w' !! l = None
        /\ ((construct w' l = Some e
             /\ (engine_calls new = []
                 \/ exists p1 exc1,
                      engine_calls new = [p1]
                      /\ collect p1 clean_text voice = inl exc1))
            \/ (exists exc,
                  e = RuntimeError (tts_failed voice (message exc)) (Some exc)
                  /\ length (engine_calls new) = 2%nat
                  /\ last new = Some (EvLog (tts_failed voice (message exc)))))).
Proof.
  unfold Http.synthesize_audio.
  destruct (get_voice_info voice_name) as [e0|[voice l]] eqn:Hv.
  { intros [= <- <-]. left. auto. }
  destruct (clean_text_of text) as [e1|ct] eqn:Hc.
  { intros [= <- <-]. left. split; [reflexivity|]. right. exists voice, l. auto. }
  destruct (truthy ct) eqn:Ht; cbn [negb].
  2:{ intros [= <- <-]. left. split; [reflexivity|]. right. exists voice, l.
      split; [reflexivity|]. right. exists ct. auto. }
  intros H. right. exists voice, l, ct.
  rewrite attempts_step in H.
  destruct (get_pipeline_cases l w) as [[p [E G]]|[[E [exc [C G]]]|[E [C G]]]];
    rewrite G in H.
  - (* cached *)
    destruct (collect p ct voice) as [exc1|out] eqn:C1; [|discriminate H].
    cbv zeta in H. cbn [Nat.eqb pipelines created trace] in H.
    rewrite attempts_step in H.
    match type of H with context [get_pipeline l ?w2] =>
      destruct (get_pipeline_cases l w2) as [[p2 [E2 G2]]|[[E2 [exc [C2 G2]]]|[E2 [C2 G2]]]];
        cbn [pipelines created trace] in E2, G2; rewrite G2 in H
    end.
    + rewrite lookup_delete_eq in E2. discriminate E2.
    + injection H as <- <-. eexists. split; [reflexivity|]. split; [reflexivity|].
      split; [exact Ht|]. cbn [pipelines trace].
      split; [rewrite <- !app_assoc; reflexivity|].
      split; [apply lookup_delete_eq|]. left. split; [exact C2|].
      right. exists p, exc1. split; [reflexivity|exact C1].
    + destruct (collect (KPipeline l (created w)) ct voice) as [exc2|out] eqn:C3;
        [|discriminate H].
      cbv zeta in H. cbn [Nat.eqb pipelines created trace] in H.
      injection H as <- <-. eexists. split; [reflexivity|]. split; [reflexivity|].
      split; [exact Ht|]. cbn [pipelines trace].
      split; [rewrite <- !app_assoc; reflexivity|].
      split; [rewrite delete_insert_eq; apply lookup_delete_eq|].
      right. exists exc2. split; [reflexivity|]. split; [reflexivity|].
      rewrite !app_assoc. apply last_snoc.
  - (* constructor raises at once *)
    injection H as <- <-. exists [EvGetPipeline l].
    split; [reflexivity|]. split; [reflexivity|]. split; [exact Ht|].
    cbn [pipelines trace]. split; [reflexivity|]. split; [exact E|].
    left. split; [exact C|]. left. reflexivity.
  - (* constructed *)
    destruct (collect (KPipeline l (created w)) ct voice) as [exc1|out] eqn:C1;
      [|discriminate H].
    cbv zeta in H. cbn [Nat.eqb pipelines created trace] in H.
    rewrite attempts_step in H.
    match type of H with context [get_pipeline l ?w2] =>
      destruct (get_pipeline_cases l w2) as [[p2 [E2 G2]]|[[E2 [exc [C2 G2]]]|[E2 [C2 G2]]]];
        cbn [pipelines created trace] in E2, G2; rewrite G2 in H
    end.
    + rewrite lookup_delete_eq in E2. discriminate E2.
    + injection H as <- <-. eexists. split; [reflexivity|]. split; [reflexivity|].
      split; [exact Ht|]. cbn [pipelines trace].
      split; [rewrite <- !app_assoc; reflexivity|].
      split; [apply lookup_delete_eq|]. left. split; [exact C2|].
      right. exists (KPipeline l (created w)), exc1. split; [reflexivity|exact C1].
    + destruct (collect (KPipeline l (S (created w))) ct voice) as [exc2|out] eqn:C3;
        [|discriminate H].
      cbv zeta in H. cbn [Nat.eqb pipelines created trace] in H.
      injection H as <- <-. eexists. split; [reflexivity|]. split; [reflexivity|].
      split; [exact Ht|]. cbn [pipelines trace].
      split; [rewrite <- !app_assoc; reflexivity|].
      split; [rewrite delete_insert_eq; apply lookup_delete_eq|].
      right. exists exc2. split; [reflexivity|]. split; [reflexivity|].
      rewrite !app_assoc. apply last_snoc.
Qed.

(** The failures of [synthesize_audio], by kind. *)
Lemma synthesize_audio_fails
    (text voice_name : value) (w w' : world) (e : error) :
  synthesize_audio text voice_name w = (inl e, w') ->
  (w' = w /\ bad_input text voice_name e)
  \/ constructor_failed text voice_name w w' e
  \/ engine_failed_twice text voice_name w w' e.
Proof.
  intros H. destruct (synthesize_audio_raises _ _ _ _ _ H)
    as [[-> Hb]|[voice [l [ct [new [Hv [Hc [Ht [Htr [Hp [[C Hn]|[exc [-> [Hn Hl]]]]]]]]]]]]]].
  - left. split; [reflexivity|exact Hb].
  - right. left. exists voice, l, ct, new. auto 10.
  - right. right. exists voice, l, ct, new, exc. auto 10.
Qed.


(** A success names the voice the request resolves to. *)
Lemma synthesize_audio_voice (text voice_name : value) (w w' : world) audio v :
  synthesize_audio text voice_name w = (inr (audio, v), w') ->
  exists l, get_voice_info voice_name = inr (v, l).
Proof.
  unfold Http.synthesize_audio.
  destruct (get_voice_info voice_name) as [e0|[voice l]]; [discriminate|].
  destruct (clean_text_of text) as [e1|ct]; [discriminate|].
  destruct (truthy ct); cbn [negb]; [|discriminate].
  assert (Hcol : forall p o, collect p ct voice = inr o -> snd o = voice).
  { intros p o. unfold Server.collect. destruct (engine p ct voice) as [arrays [x|]];
      [discriminate|]. destruct (List.filter _ arrays); [discriminate|].
    intros [= <-]. reflexivity. }
  intros H. exists l. rewrite attempts_step in H.
  destruct (get_pipeline l w) as [[exc|p] w1]; [discriminate H|].
  destruct (collect p ct voice) as [exc1|out] eqn:C1.
  - cbv zeta in H. cbn [Nat.eqb] in H. rewrite attempts_step in H.
    destruct (get_pipeline l _) as [[exc|p2] w2]; [discriminate H|].
    destruct (collect p2 ct voice) as [exc2|out] eqn:C2;
      [cbv zeta in H; cbn [Nat.eqb] in H; discriminate H|].
    injection H as -> _. apply Hcol in C2. cbn in C2. subst. reflexivity.
  - injection H as -> _. apply Hcol in C1. cbn in C1. subst. reflexivity.
Qed.


(** X14: What [/api/chat] does before it asks for a model, for every body.
    A body without [get], a temperature [float] refuses, and a voice that
    is not a [str] make an exception leave the route; when the
    temperature converts, a request without messages is answered 400, and
    so is one whose voice is not in the catalog.  The temperature is
    converted before the messages are looked at.  In each of these cases
    the model list is not asked for, the chat backend is not called, and
    both caches are as they were. *)
Theorem chat_rejects_before_llm (body : value) (now : time) (response : listing)
    (llm : Http.llm_call -> error + option str) (st : app_state) :
  let r := chat body now response llm st in
  (forall exc, payload_of body = inl exc ->
     r = Http.Served (Http.Unhandled exc) st [] false)
  /\ (forall payload,
        payload_of body = inr payload ->
        let messages := Http.get_or payload (py "messages") (Http.PList []) in
        let voice := Http.get payload (py "voice") in
        (forall exc, temperature_of payload = inl exc ->
           r = Http.Served (Http.Unhandled exc) st [] false)
        /\ (forall t, temperature_of payload = inr t ->
              (py_truthy messages = false ->
               r = Http.Served (Http.ErrorReply (py "messages are required") 400)
                     st [] false)
              /\ (forall exc,
                    py_truthy messages = true -> get_voice_info voice = inl exc ->
                    r = Http.Served
                          (if is_value_error exc
                           then Http.ErrorReply (message exc) 400
                           else Http.Unhandled exc) st [] false))).
Proof.
  cbv zeta. unfold Http.chat. split.
  - intros exc ->. reflexivity.
  - intros payload ->. split.
    + intros exc ->. reflexivity.
    + intros t ->. split.
      * intros ->. reflexivity.
      * intros exc -> ->. cbn [negb]. destruct (is_value_error exc); reflexivity.
Qed.


(** *** The typed models are these, on typed requests *)

Section Typed.

(** The constructor returns. *)
Hypothesis constructs : forall w l, construct w l = None.

Lemma get_voice_info_typed (o : option str) :
  get_voice_info (Http.optional o)
  = Server.get_voice_info DEFAULT_VOICE voice_catalog o.
Proof.
  unfold Http.get_voice_info, Server.get_voice_info, or_default.
  destruct o as [s|]; cbn [Http.optional Http.py_truthy]; [|reflexivity].
  destruct (truthy s); reflexivity.
Qed.

Lemma clean_text_typed (o : option str) :
  clean_text_of (Http.optional o) = inr (strip (default [] o)).
Proof.
  unfold Http.clean_text_of. destruct o as [[|c s]|]; reflexivity.
Qed.

Lemma get_pipeline_typed l w : get_pipeline l w = Server.get_pipeline l w.
Proof.
  unfold Http.get_pipeline, Server.get_pipeline, bind, tell.
  cbn [pipelines created trace].
  destruct (pipelines w !! l); [reflexivity|]. rewrite constructs. reflexivity.
Qed.

Lemma attempts_typed todo : forall last l t v w,
  attempts todo last l t v w
  = Server.attempts engine audio_to_wav_base64 todo last l t v w.
Proof.
  induction todo as [|attempt todo IH]; intros last l t v w; [reflexivity|].
  cbn [Http.attempts Server.attempts]. unfold bind, try_except.
  rewrite get_pipeline_typed.
  destruct (Server.get_pipeline l w) as [[exc|p] w1]; [reflexivity|].
  destruct (synth_once engine audio_to_wav_base64 p t v w1) as [[exc|out] w2];
    [|reflexivity].
  unfold pop_pipeline.
  destruct (Nat.eqb attempt 0); [apply IH|reflexivity].
Qed.

(** [Server.synthesize_audio] is [synthesize_audio] on a text and a voice
    that are a [str] or nothing, when the constructor returns. *)
Lemma synthesize_audio_typed (text voice_name : option str) (w : world) :
  synthesize_audio (Http.optional text) (Http.optional voice_name) w
  = Server.synthesize_audio DEFAULT_VOICE voice_catalog engine audio_to_wav_base64
      text voice_name w.
Proof.
  unfold Http.synthesize_audio, Server.synthesize_audio.
  rewrite get_voice_info_typed, clean_text_typed.
  destruct (Server.get_voice_info _ _ voice_name) as [e|[voice l]]; [reflexivity|].
  destruct (truthy (strip (default [] text))); cbn [negb]; [|reflexivity].
  apply attempts_typed.
Qed.

(** [App.tts] is [tts] on a body whose text and voice are a [str] or
    nothing. *)
Lemma tts_typed (body : value) (payload : list (str * value))
    (text voice : option str) (st : app_state) :
  payload_of body = inr payload ->
  Http.get_or payload (py "text") (Http.PStr []) = Http.optional text ->
  Http.get payload (py "voice") = Http.optional voice ->
  tts body st
  = Http.typed_served [] default_temperature
      (App.tts DEFAULT_VOICE voice_catalog engine audio_to_wav_base64 text voice st).
Proof.
  intros Hp Ht Hv. unfold Http.tts, App.tts. rewrite Hp, Ht, Hv, synthesize_audio_typed.
  destruct (Server.synthesize_audio _ _ _ _ text voice (synth_world st))
    as [[e|[audio v]] w']; [|reflexivity].
  unfold Http.synthesis_error, App.synthesis_error, Http.typed_served.
  cbn [App.reply_of App.state_after App.llm_calls App.models_asked map].
  destruct (is_value_error e); reflexivity.
Qed.

(** [App.chat] is [chat] on a body whose messages are a list, whose voice
    and model are a [str] or nothing, and whose temperature converts. *)
Lemma chat_typed (body : value) (fields : list (str * value))
    (payload : chat_payload) (temperature : pyfloat) (now : time)
    (response : listing) (llm : Http.llm_call -> error + option str)
    (st : app_state) :
  payload_of body = inr fields ->
  Http.get_or fields (py "messages") (Http.PList [])
  = Http.PList (payload_messages payload) ->
  temperature_of fields = inr temperature ->
  Http.get fields (py "voice") = Http.optional (payload_voice payload) ->
  Http.get fields (py "model") = Http.optional (payload_model payload) ->
  chat body now response llm st
  = Http.typed_served (payload_messages payload) temperature
      (App.chat within_ttl LMSTUDIO_MODEL_NAME DEFAULT_VOICE voice_catalog engine
         audio_to_wav_base64 payload now response
         (fun model messages =>
            llm (Http.LlmCall (Http.PStr model) (Http.PList messages) temperature))
         st).
Proof.
  intros Hp Hm Ht Hv Hmod. unfold Http.chat, App.chat.
  rewrite Hp, Hm, Ht, Hv, Hmod, get_voice_info_typed.
  cbn [Http.py_truthy].
  destruct (some (payload_messages payload)); cbn [negb]; [|reflexivity].
  destruct (Server.get_voice_info _ _ (payload_voice payload)) as [e|[voice l]] eqn:Hg.
  { rewrite (get_voice_info_value_error _ _ _ _ Hg). reflexivity. }
  assert (Hres :
    resolve_model_name (Http.optional (payload_model payload)) now response
      (models_cache st)
    = (let '(r, c, a) := App.resolve_model_name within_ttl LMSTUDIO_MODEL_NAME
                            (payload_model payload) now response (models_cache st) in
       (match r with inl e => inl e | inr m => inr (Http.PStr m) end, c, a))).
  { unfold Http.resolve_model_name, App.resolve_model_name, given.
    destruct (payload_model payload) as [m|]; cbn [Http.optional Http.py_truthy].
    - destruct (truthy m); [reflexivity|].
      destruct (models_of _); reflexivity.
    - destruct (models_of _); reflexivity. }
  rewrite Hres.
  destruct (App.resolve_model_name _ _ _ _ _ _) as [[[exc|model] cache] asked];
    [reflexivity|].
  destruct (llm _) as [exc|answer]; [reflexivity|].
  cbn [synth_world].
  change (Http.PStr (default [] (given answer)))
    with (Http.optional (pyfloat := pyfloat) (Some (default [] (given answer)))).
  change (Http.PStr voice) with (Http.optional (pyfloat := pyfloat) (Some voice)).
  rewrite synthesize_audio_typed.
  destruct (Server.synthesize_audio _ _ _ _ _ _ (synth_world st))
    as [[e|[audio v]] w']; [|reflexivity].
  unfold Http.synthesis_error, App.synthesis_error, Http.typed_served.
  cbn [App.reply_of App.state_after App.llm_calls App.models_asked map].
  destruct (is_value_error e); reflexivity.
Qed.

End Typed.

End HttpProps.


Lemma chat_rejects_before_llm_witness :
  let float_truthy := fun n : nat => negb (Nat.eqb n 0) in
  let float := fun v : Http.pyval nat =>
    match v with
    | Http.PInt n => inr (Z.to_nat n)
    | Http.PFloat x => inr x
    | _ => inl (ValueError (py "could not convert string to float: 'hot'"))
    end in
  let within_ttl := fun now ts : nat => (now - ts <? 30)%nat in
  let catalog : gmap str voice_info := {[ py "af_nicole" := VoiceInfo (py "a") ]} in
  let engine := fun (_ : pipeline) (_ _ : str) => ([[1%nat]], @None error) in
  let encode := fun _ : list nat => py "UklGRg" in
  let construct := fun (_ : world) (_ : str) => @None error in
  let st := AppState (ModelCache 0%nat []) (World ∅ 0 []) in
  let body := Http.PDict [(py "messages", Http.PList []);
                          (py "temperature", Http.PStr (py "hot"))] in
  Http.chat float_truthy float 7%nat within_ttl None (py "af_nicole") catalog engine
    encode construct body 7%nat (inr None) (fun _ => inr (Some (py "Hi."))) st
  = Http.Served
      (Http.Unhandled (ValueError (py "could not convert string to float: 'hot'")))
      st [] false.
Proof.
  cbv zeta.
  refine (proj1 (proj2 (chat_rejects_before_llm (fun n : nat => negb (Nat.eqb n 0))
            (fun v : Http.pyval nat =>
               match v with
               | Http.PInt n => inr (Z.to_nat n)
               | Http.PFloat x => inr x
               | _ => inl (ValueError (py "could not convert string to float: 'hot'"))
               end)
            7%nat (fun now ts : nat => (now - ts <? 30)%nat) None (py "af_nicole")
            {[ py "af_nicole" := VoiceInfo (py "a") ]}
            (fun _ _ _ => ([[1%nat]], @None error)) (fun _ => py "UklGRg")
            (fun _ _ => None)
            (Http.PDict [(py "messages", Http.PList []);
                         (py "temperature", Http.PStr (py "hot"))])
            7%nat (inr None) (fun _ => inr (Some (py "Hi.")))
            (AppState (ModelCache 0%nat []) (World ∅ 0 [])))
          _ _) _ _).
  - vm_compute. reflexivity.
  - vm_compute. reflexivity.
Defined.
Import Server App Session SynthSpec CatalogSpec Listing.

(** ** The list of voices *)

Lemma str_le_total a : forall b, str_le a b = true \/ str_le b a = true.
Proof.
  induction a as [|x a IH]; intros [|y b]; cbn; auto.
  destruct (N.ltb_spec x y), (N.ltb_spec y x); auto; lia.
Qed.

Lemma str_le_trans a : forall b c,
  str_le a b = true -> str_le b c = true -> str_le a c = true.
Proof.
  induction a as [|x a IH]; intros [|y b] [|z c]; cbn; auto; try discriminate.
  destruct (N.ltb_spec x y), (N.ltb_spec y x), (N.ltb_spec y z), (N.ltb_spec z y),
    (N.ltb_spec x z), (N.ltb_spec z x); auto; try discriminate; try lia.
  apply IH.
Qed.

Lemma str_le_antisym a : forall b,
  str_le a b = true -> str_le b a = true -> a = b.
Proof.
  induction a as [|x a IH]; intros [|y b]; cbn; auto; try discriminate.
  destruct (N.ltb_spec x y), (N.ltb_spec y x); try discriminate; try lia.
  intros H1 H2. f_equal; [lia|]. apply IH; assumption.
Qed.

#[local] Instance item_le_trans : Transitive item_le.
Proof. intros x y z. apply str_le_trans. Qed.

#[local] Instance item_le_total : Total item_le.
Proof. intros x y. apply str_le_total. Qed.

Lemma dict_get_elem_of {V} (d : dict V) k v :
  NoDup (dict_keys d) -> (dict_get k d = Some v <-> (k, v) ∈ d).
Proof.
  induction d as [|[k0 v0] d IH]; cbn [dict_get dict_keys map fst].
  - intros _. split; [discriminate|intros H; inversion H].
  - intros [Hk Hd]%NoDup_cons. rewrite elem_of_cons.
    destruct (decide (k = k0)) as [->|Hne].
    + split; [intros [= ->]; auto|].
      intros [[= ->]|H]; [reflexivity|].
      exfalso. apply Hk. apply list_elem_of_fmap. exists (k0, v). auto.
    + rewrite (IH Hd). split; [auto|]. intros [[= -> _]|H]; [congruence|exact H].
Qed.

(** Sorted by name without repetition is sorted strictly. *)
Lemma sorted_strictly (items : list (str * voice_info)) :
  StronglySorted item_le items -> NoDup (map fst items) ->
  StronglySorted str_lt (map fst items).
Proof.
  induction 1 as [|x items Hs IH Hx]; cbn [map]; [constructor|].
  intros [Hn Hd]%NoDup_cons. constructor; [apply IH, Hd|].
  apply Forall_forall. intros k Hk. apply list_elem_of_fmap in Hk.
  destruct Hk as [y [-> Hy]]. split.
  - rewrite Forall_forall in Hx. apply (Hx y Hy).
  - intros E. apply Hn. rewrite E. apply list_elem_of_fmap. eauto.
Qed.

(** What [sorted] makes of the items of a dict. *)
Lemma sorted_items_spec (d : dict voice_info) :
  NoDup (dict_keys d) ->
  sorted_items d ≡ₚ d
  /\ StronglySorted str_lt (map fst (sorted_items d))
  /\ forall items, items ≡ₚ d -> StronglySorted item_le items -> items = sorted_items d.
Proof.
  intros Hd. pose proof (merge_sort_Permutation item_le d) as Hp.
  pose proof (StronglySorted_merge_sort item_le d) as Hs.
  fold (sorted_items d) in Hp, Hs.
  assert (Hk : NoDup (map fst (sorted_items d))).
  { apply (NoDup_Permutation_proper _ _ (Permutation_map fst Hp)), Hd. }
  split; [exact Hp|]. split; [apply sorted_strictly; assumption|].
  intros items Hi Hsi.
  apply (StronglySorted_unique_strong item_le); [|assumption|assumption|].
  - intros [k1 v1] [k2 v2] H1 H2 L1 L2. unfold item_le in L1, L2. cbn in L1, L2.
    pose proof (str_le_antisym _ _ L1 L2) as ->. f_equal.
    rewrite Hi in H1. rewrite Hp in H2.
    apply (dict_get_elem_of d _ _ Hd) in H1, H2. congruence.
  - rewrite Hi, Hp. reflexivity.
Qed.

(** X26: [/api/voices] lists every voice of the catalog once, with its language
    code, in strictly increasing order of the names; the list is the only
    arrangement of the catalog's entries in name order, whatever the sort
    does on its way; and the default is the one of the module. *)
Theorem list_voices_sorted (DEFAULT_VOICE : str) (voice_catalog : dict voice_info) :
  NoDup (dict_keys voice_catalog) ->
  let r := list_voices DEFAULT_VOICE voice_catalog in
  StronglySorted str_lt (map name (voices r))
  /\ (forall n l, VoiceEntry n l ∈ voices r
                  <-> dict_get n voice_catalog = Some (VoiceInfo l))
  /\ length (voices r) = length voice_catalog
  /\ (forall items, items ≡ₚ voice_catalog -> StronglySorted item_le items ->
        voices r = map (fun '(n, meta) => VoiceEntry n (lang meta)) items)
  /\ default_of r = DEFAULT_VOICE.
Proof.
  intros Hd. cbv zeta. destruct (sorted_items_spec voice_catalog Hd) as [Hp [Hs Hu]].
  unfold list_voices. cbn [voices default_of].
  split; [|split; [|split; [|split]]].
  - rewrite map_map.
    erewrite map_ext; [exact Hs|]. intros [n meta]. reflexivity.
  - intros n l. rewrite (dict_get_elem_of _ _ _ Hd).
    assert (Hm : (n, VoiceInfo l) ∈ sorted_items voice_catalog
                 <-> (n, VoiceInfo l) ∈ voice_catalog) by (rewrite Hp; reflexivity).
    rewrite <- Hm. split.
    + intros H. apply list_elem_of_In, in_map_iff in H.
      destruct H as [[n' [l']] [[= -> ->] H]]. apply list_elem_of_In, H.
    + intros H. apply list_elem_of_In, in_map_iff. exists (n, VoiceInfo l).
      split; [reflexivity|]. apply list_elem_of_In, H.
  - rewrite length_map. apply Permutation_length, Hp.
  - intros items Hi Hsi. rewrite (Hu items Hi Hsi). reflexivity.
  - reflexivity.
Qed.

(** X27: After start-up from any file and any setting, the default voice is one
    of the voices [/api/voices] lists, so the list is not empty, and the
    names listed are in strictly increasing order. *)
Theorem default_voice_is_listed
    (env_voice : option str) (fallback : str) (file : option (list str)) :
  let s := startup env_voice fallback (_parse_voice_catalog file fallback) in
  let r := list_voices (fst s) (snd s) in
  default_of r ∈ map name (voices r)
  /\ StronglySorted str_lt (map name (voices r)).
Proof.
  cbv zeta.
  set (parsed := _parse_voice_catalog file fallback).
  destruct (startup_catalog env_voice fallback parsed) as [Hh [Hne [He _]]].
  cbv zeta in Hh, Hne, He.
  assert (Hd : NoDup (dict_keys (snd (startup env_voice fallback parsed)))).
  { destruct parsed as [|kv parsed'] eqn:E.
    - destruct (He eq_refl) as [-> _]. cbn. apply NoDup_singleton.
    - rewrite Hne; [|discriminate]. rewrite <- E.
      apply (parse_catalog_invariant file fallback). }
  destruct (sorted_items_spec _ Hd) as [Hp [Hs _]].
  unfold list_voices. cbn [voices default_of]. rewrite map_map.
  rewrite (map_ext _ fst); [|intros [n meta]; reflexivity].
  split; [|exact Hs].
  unfold dict_has in Hh.
  destruct (dict_get _ _) as [v|] eqn:G; [|discriminate Hh].
  apply (dict_get_elem_of _ _ _ Hd) in G.
  assert (G' : (fst (startup env_voice fallback parsed), v)
               ∈ sorted_items (snd (startup env_voice fallback parsed)))
    by (rewrite Hp; exact G).
  apply list_elem_of_fmap. exists (fst (startup env_voice fallback parsed), v). auto.
Qed.

Lemma list_voices_sorted_witness :
  map name (voices (list_voices (py "af_heart")
                      [(py "bf_emma", VoiceInfo (py "b")); (py "af_heart", VoiceInfo (py "a"));
                       (py "af", VoiceInfo (py "a"))]))
  = [py "af"; py "af_heart"; py "bf_emma"]
  /\ length (voices (list_voices (py "af_heart")
                      [(py "bf_emma", VoiceInfo (py "b")); (py "af_heart", VoiceInfo (py "a"));
                       (py "af", VoiceInfo (py "a"))])) = 3%nat.
Proof.
  split; [vm_compute; reflexivity|].
  refine (proj1 (proj2 (proj2 (list_voices_sorted (py "af_heart")
                      [(py "bf_emma", VoiceInfo (py "b")); (py "af_heart", VoiceInfo (py "a"));
                       (py "af", VoiceInfo (py "a"))] _)))).
  apply (bool_decide_unpack _). vm_compute. exact I.
Defined.
Import Server App Session SynthSpec CatalogSpec Listing.

(** ** A default voice with white space around it *)

(** X28: When the file gives no voice and [KOKORO_VOICE] is set to a name with
    white space around it, start-up files the default voice under the name
    as it is set, and [get_voice_info] looks it up trimmed: every request
    that names no voice is refused, with the [ValueError] for the trimmed
    name. *)
Theorem untrimmed_default_voice_fails
    (env_voice fallback : str) (file : option (list str)) (requested : option str) :
  _parse_voice_catalog file fallback = [] ->
  strip env_voice <> env_voice ->
  given requested = None ->
  let s := startup (Some env_voice) fallback (_parse_voice_catalog file fallback) in
  fst s = env_voice
  /\ snd s = [(env_voice, VoiceInfo fallback)]
  /\ get_voice_info (fst s) (as_map (snd s)) requested
     = inl (ValueError (py "Voice '" ++ strip env_voice ++ py "' is not available.")).
Proof.
  intros -> Hs Hr. cbv zeta.
  assert (Ht : truthy env_voice = true).
  { destruct env_voice; [exfalso; apply Hs; reflexivity|reflexivity]. }
  assert (E : startup (Some env_voice) fallback []
              = (env_voice, [(env_voice, VoiceInfo fallback)])).
  { unfold startup. cbn [default dict_has dict_get negb dict_keys map dict_set].
    unfold id. rewrite Ht. reflexivity. }
  rewrite E. cbn [fst snd]. split; [reflexivity|]. split; [reflexivity|].
  unfold Server.get_voice_info.
  assert (Ho : or_default env_voice requested = env_voice).
  { unfold or_default. destruct requested as [v|]; [|reflexivity].
    cbn in Hr. destruct (truthy v); [discriminate Hr|reflexivity]. }
  rewrite Ho, as_map_lookup. cbn [dict_get].
  destruct (decide (strip env_voice = env_voice)); [contradiction|reflexivity].
Qed.

Lemma untrimmed_default_voice_fails_witness :
  get_voice_info (py " nobody ")
    (as_map [(py " nobody ", VoiceInfo (py "a"))]) None
  = inl (ValueError (py "Voice 'nobody' is not available.")).
Proof.
  refine (proj2 (proj2 (untrimmed_default_voice_fails (py " nobody ") (py "a") None None
                          _ _ _))).
  - reflexivity.
  - vm_compute. discriminate.
  - reflexivity.
Defined.
